(** * The OpenAPI interpretation engine of the docs UI

    A shallow embedding of the TypeScript sources of [docs-ui]:

      - [src/types/openapi.ts]: the data model, [extractEndpoints],
        [groupEndpointsByTag], [resolveRef], [resolveParameter] and
        [resolveParameters];
      - [src/components/EndpointView.tsx]: [generateExampleResponse];
      - the [Playground] component (it stands after [MethodBadge] in
        [src/components/MethodBadge.tsx]): [buildUrl], [executeRequest]
        and [generateCurl];
      - further on, of the same files and of [src/components/Sidebar.tsx]
        (with the hook [useOpenAPI], which stands after [Sidebar] there)
        and [src/App.tsx]: [getInitialParams], [updateParam], the
        documentation URL, [formatInline], the splitting of descriptions,
        [toggleTag], [isSelected], [fetchSpec] and the view [App]
        chooses;

    and the properties of these functions.

    Modelling conventions.

      - A JavaScript string is a [string]: the sequence of bytes of its
        UTF-8 encoding.  Searching and splitting agree with the UTF-16
        operations on well-formed text, and [encodeURIComponent] works on
        the UTF-8 bytes anyway.
      - An object used as a dictionary ([Record<string, T>], the result of
        [JSON.parse]) is the list of its entries in the order
        [Object.entries] enumerates them; [lookup] returns the entry of a
        key.  Besides its entries an object answers to the names of
        [Object_prototype]: reading such a name that is no entry gives the
        inherited member ([components_schema], [components_parameter]),
        and assigning to [__proto__] stores no entry ([set_property]).
        The parameter state of the playground is read through its entries
        ([param_value]); the properties about a state that may lack an
        entry say that the name is none of these.
      - An optional field is an [option]; [undefined] is [None].
      - The truthiness tests of the source ([if (x)], [x || y], [x && y])
        are written out: the empty string, [0], [false] and [null] are
        falsy, objects and arrays are truthy.
      - A number of a JSON document is an integer of the safe range
        ([JNumber]), or else is carried by the text JavaScript prints for
        it ([JDecimal]).
      - Functions that recurse through [$ref] take a fuel argument and
        return [None] when it runs out: the source has no cycle detection
        and does not return on a cyclic document. *)

From Stdlib Require Import List String Ascii ZArith Lia Bool Arith.
From Stdlib Require Import DecimalString Permutation Sorted.
Import ListNotations.
Open Scope list_scope.
Open Scope string_scope.

Set Implicit Arguments.
Set Warnings "-register-all".

(** ** Strings *)

Module Str.

(** [if (s)] on a string: the empty string is falsy. *)
Definition truthy (s : string) : bool :=
  match s with
  | EmptyString => false
  | String _ _ => true
  end.

(** [s.startsWith(pat)] *)
Fixpoint startsWith (s pat : string) {struct pat} : bool :=
  match pat with
  | EmptyString => true
  | String a pat' =>
      match s with
      | EmptyString => false
      | String b s' => Ascii.eqb a b && startsWith s' pat'
      end
  end.

(** [s.slice(n)] *)
Fixpoint drop (n : nat) (s : string) : string :=
  match n, s with
  | O, _ => s
  | S _, EmptyString => EmptyString
  | S n', String _ s' => drop n' s'
  end.

(** The first occurrence of [pat] in [s]: the text before it and the
    text after it ([s.indexOf(pat)], as a split). *)
Fixpoint split_first (pat s : string) : option (string * string) :=
  if startsWith s pat then Some (EmptyString, drop (String.length pat) s)
  else match s with
       | EmptyString => None
       | String c s' =>
           match split_first pat s' with
           | Some (before, after) => Some (String c before, after)
           | None => None
           end
       end.

(** [s.includes(pat)] *)
Definition includes (s pat : string) : bool :=
  match split_first pat s with
  | Some _ => true
  | None => false
  end.

(** [GetSubstitution] of ECMAScript for a string pattern (no capture
    groups): in the replacement text [$$] stands for [$], [$&] for the
    matched text, [$`] for the text before the match and [$'] for the
    text after it; every other character stands for itself. *)
Fixpoint GetSubstitution (matched before after template : string)
  : string :=
  match template with
  | EmptyString => EmptyString
  | String c rest =>
      if Ascii.eqb c "$" then
        match rest with
        | EmptyString => String c EmptyString
        | String d rest' =>
            if Ascii.eqb d "$" then
              String "$" (GetSubstitution matched before after rest')
            else if Ascii.eqb d "&" then
              matched ++ GetSubstitution matched before after rest'
            else if Ascii.eqb d "`" then
              before ++ GetSubstitution matched before after rest'
            else if Ascii.eqb d "'" then
              after ++ GetSubstitution matched before after rest'
            else String c (GetSubstitution matched before after rest)
        end
      else String c (GetSubstitution matched before after rest)
  end.

(** [s.replace(pat, repl)] with a string pattern: only the first
    occurrence is replaced, and the replacement text is expanded by
    [GetSubstitution]. *)
Definition replace (s pat repl : string) : string :=
  match split_first pat s with
  | None => s
  | Some (before, after) =>
      before ++ GetSubstitution pat before after repl ++ after
  end.

(** The number of places of [s] at which [pat] occurs. *)
Fixpoint occurrences (pat s : string) : nat :=
  match s with
  | EmptyString => O
  | String _ s' =>
      ((if startsWith s pat then 1 else 0) + occurrences pat s')%nat
  end.

(** No brace in a name. *)
Fixpoint brace_free (name : string) : bool :=
  match name with
  | EmptyString => true
  | String c name' =>
      negb (Ascii.eqb c "{") && negb (Ascii.eqb c "}") && brace_free name'
  end.

Definition hex_upper (n : nat) : ascii :=
  ascii_of_nat (if n <? 10 then 48 + n else 55 + n)%nat.

Definition hex_lower (n : nat) : ascii :=
  ascii_of_nat (if n <? 10 then 48 + n else 87 + n)%nat.

(** The characters [encodeURIComponent] leaves alone:
    [A-Z a-z 0-9 - _ . ! ~ * ' ( )]. *)
Definition uri_unreserved (c : ascii) : bool :=
  let n := nat_of_ascii c in
  (((65 <=? n) && (n <=? 90)) || ((97 <=? n) && (n <=? 122))
   || ((48 <=? n) && (n <=? 57))
   || existsb (Nat.eqb n) [45; 95; 46; 33; 126; 42; 39; 40; 41])%nat.

(** [encodeURIComponent(s)]: every byte of the UTF-8 encoding that is
    not unreserved becomes [%XX]. *)
Fixpoint encodeURIComponent (s : string) : string :=
  match s with
  | EmptyString => EmptyString
  | String c s' =>
      let n := nat_of_ascii c in
      if uri_unreserved c then String c (encodeURIComponent s')
      else String "%" (String (hex_upper (n / 16))
                         (String (hex_upper (n mod 16))
                            (encodeURIComponent s')))
  end.

Definition upper_char (c : ascii) : ascii :=
  let n := nat_of_ascii c in
  if ((97 <=? n) && (n <=? 122))%nat then ascii_of_nat (n - 32) else c.

End Str.

(** [a.includes(x)] on an array of strings. *)
Definition includes (l : list string) (x : string) : bool :=
  existsb (String.eqb x) l.

(** [a.indexOf(x)] on an array of strings: the first index, or [-1]. *)
Fixpoint indexOf (l : list string) (x : string) : Z :=
  match l with
  | [] => (-1)%Z
  | y :: l' =>
      if String.eqb y x then 0%Z
      else let i := indexOf l' x in
           if (i =? -1)%Z then (-1)%Z else (i + 1)%Z
  end.

(** The names of the members of [Object.prototype]: [o[name]] on an object
    [o] that has no entry of that name gives the inherited member, not
    [undefined]. *)
Definition Object_prototype : list string :=
  ["constructor"; "__defineGetter__"; "__defineSetter__"; "hasOwnProperty";
   "__lookupGetter__"; "__lookupSetter__"; "isPrototypeOf";
   "propertyIsEnumerable"; "toString"; "valueOf"; "__proto__";
   "toLocaleString"].

Definition inherited (name : string) : bool := includes Object_prototype name.

(** ** Dictionaries *)

Section Record.
Variable V : Type.

(** [Record<string, V>] in the order of [Object.entries]. *)
Definition Dict := list (string * V).

(** [d[k]] *)
Fixpoint lookup (d : Dict) (k : string) : option V :=
  match d with
  | [] => None
  | (k', v) :: d' => if String.eqb k' k then Some v else lookup d' k
  end.

(** [d[k] = v]: an existing key keeps its place, a new key goes last. *)
Fixpoint assign (d : Dict) (k : string) (v : V) : Dict :=
  match d with
  | [] => [(k, v)]
  | (k', v') :: d' =>
      if String.eqb k' k then (k', v) :: d' else (k', v') :: assign d' k v
  end.

(** [d[k] = v] on an object the code has created as [{}]: [__proto__]
    names the accessor such an object inherits, and assigning to it stores
    no entry (it replaces the prototype when [v] is an object or [null],
    which neither [Object.entries] nor [JSON.stringify] shows).  A computed
    key of an object literal, [{ [k]: v }], is not this assignment: it
    always defines an entry. *)
Definition set_property (d : Dict) (k : string) (v : V) : Dict :=
  if String.eqb k "__proto__" then d else assign d k v.

Definition keys (d : Dict) : list string := map fst d.
End Record.

(** ** JSON values and [JSON.stringify(v, null, 2)] *)

(** [JNumber z] is an integer of the safe range, [-(2^53 - 1)] to
    [2^53 - 1], where the number of the document is the integer written
    and prints in decimal.  Any other number (a fraction such as [0.5], a
    large number such as [1e+21]) is a [JDecimal]: it is given by the text
    [Number.prototype.toString] and [JSON.stringify] print for it; it is
    not zero. *)
Inductive JSON : Type :=
| JNull
| JBool (b : bool)
| JNumber (z : Z)
| JDecimal (text : string)
| JString (s : string)
| JArray (l : list JSON)
| JObject (l : list (string * JSON)).

(** [if (v)] on a JSON value. *)
Definition truthy (v : JSON) : bool :=
  match v with
  | JNull => false
  | JBool b => b
  | JNumber z => negb (z =? 0)%Z
  | JDecimal _ => true
  | JString s => Str.truthy s
  | JArray _ | JObject _ => true
  end.

Module Stringify.

Definition nl : string := String (ascii_of_nat 10) EmptyString.
Definition gap : string := "  ".

(** One character of [QuoteJSONString]. *)
Definition quote_char (c : ascii) : string :=
  let n := nat_of_ascii c in
  if (n =? 8)%nat then "\b"
  else if (n =? 9)%nat then "\t"
  else if (n =? 10)%nat then "\n"
  else if (n =? 12)%nat then "\f"
  else if (n =? 13)%nat then "\r"
  else if (n =? 34)%nat then String "\" (String c EmptyString)
  else if (n =? 92)%nat then "\\"
  else if (n <? 32)%nat then
    "\u00" ++ String (Str.hex_lower (n / 16))
                (String (Str.hex_lower (n mod 16)) EmptyString)
  else String c EmptyString.

Fixpoint quote_body (s : string) : string :=
  match s with
  | EmptyString => EmptyString
  | String c s' => quote_char c ++ quote_body s'
  end.

Definition quote (s : string) : string :=
  String (ascii_of_nat 34) (quote_body s)
  ++ String (ascii_of_nat 34) EmptyString.

(** An integer of the safe range prints in decimal. *)
Definition number (z : Z) : string := NilZero.string_of_int (Z.to_int z).

(** [SerializeJSONProperty] with a gap of two spaces; [indent] is the
    current indentation. *)
Fixpoint str (indent : string) (v : JSON) {struct v} : string :=
  match v with
  | JNull => "null"
  | JBool true => "true"
  | JBool false => "false"
  | JNumber z => number z
  | JDecimal text => text
  | JString s => quote s
  | JArray [] => "[]"
  | JArray l =>
      let inner := indent ++ gap in
      "[" ++ nl ++ inner
      ++ String.concat ("," ++ nl ++ inner) (map (str inner) l)
      ++ nl ++ indent ++ "]"
  | JObject [] => "{}"
  | JObject l =>
      let inner := indent ++ gap in
      "{" ++ nl ++ inner
      ++ String.concat ("," ++ nl ++ inner)
           (map (fun kv => let '(k, x) := kv in
                           quote k ++ ": " ++ str inner x) l)
      ++ nl ++ indent ++ "}"
  end.

End Stringify.

(** [JSON.stringify(v, null, 2)] *)
Definition JSON_stringify (v : JSON) : string :=
  Stringify.str EmptyString v.

(** ** The data model ([types/openapi.ts]) *)

Inductive Schema : Type := mkSchema {
  schema_type : option string;
  schema_format : option string;
  schema_properties : option (Dict Schema);
  schema_items : option Schema;
  schema_example : option JSON;
  schema_default : option JSON;
  schema_ref : option string
}.

(** The field [in] of a parameter; [in_other] when the object has no such
    field or another value in it. *)
Inductive ParamIn : Type :=
  in_path | in_query | in_header | in_cookie | in_other.

Definition ParamIn_eqb (a b : ParamIn) : bool :=
  match a, b with
  | in_path, in_path | in_query, in_query
  | in_header, in_header | in_cookie, in_cookie | in_other, in_other => true
  | _, _ => false
  end.

(** The interface [Parameter] ([Parameter] is reserved here). *)
Record Param : Type := mkParam {
  param_name : string;
  param_in : ParamIn;
  param_required : option bool;
  param_schema : option Schema;
  param_example : option JSON;
  param_ref : option string
}.

Record Tag : Type := mkTag {
  tag_name : string;
  tag_description : option string
}.

(** Of an operation, the fields the functions below read. *)
Record Operation : Type := mkOperation {
  op_tags : option (list string);
  op_summary : option string;
  op_description : option string;
  op_parameters : option (list Param)
}.

Record PathItem : Type := mkPathItem {
  item_get : option Operation;
  item_post : option Operation;
  item_put : option Operation;
  item_delete : option Operation;
  item_patch : option Operation
}.

Record Components : Type := mkComponents {
  comp_schemas : option (Dict Schema);
  comp_parameters : option (Dict Param)
}.

Record Server : Type := mkServer { server_url : string }.

Record OpenAPISpec : Type := mkSpec {
  spec_servers : option (list Server);
  spec_tags : option (list Tag);
  spec_paths : Dict PathItem;
  spec_components : option Components
}.

Inductive Method : Type := get | post | put | delete | patch.

Definition Method_eqb (a b : Method) : bool :=
  match a, b with
  | get, get | post, post | put, put | delete, delete | patch, patch => true
  | _, _ => false
  end.

(** The method as it is written in the source: ['get'], ['post'], ... *)
Definition method_name (m : Method) : string :=
  match m with
  | get => "get" | post => "post" | put => "put"
  | delete => "delete" | patch => "patch"
  end.

Record Endpoint : Type := mkEndpoint {
  ep_path : string;
  ep_method : Method;
  ep_operation : Operation
}.

Record TagGroup : Type := mkTagGroup {
  group_name : string;
  group_description : option string;
  group_endpoints : list Endpoint
}.

(** [pathItem[method]] *)
Definition item_method (pathItem : PathItem) (m : Method) : option Operation :=
  match m with
  | get => item_get pathItem
  | post => item_post pathItem
  | put => item_put pathItem
  | delete => item_delete pathItem
  | patch => item_patch pathItem
  end.

(** A member inherited from [Object.prototype] (a function, or
    [Object.prototype] itself under [__proto__]), read as a schema: it has
    none of the fields, and it is truthy. *)
Definition member_schema : Schema :=
  mkSchema None None None None None None None.

(** The same, read as a parameter.  Of the fields it has at most [name]:
    a function has its own name there ([Object] for [constructor]), and
    [Object.prototype] has none; a name that is [undefined] is written as
    the text it gives as a key or in a template, [undefined]. *)
Definition member_name (key : string) : string :=
  if String.eqb key "constructor" then "Object"
  else if String.eqb key "__proto__" then "undefined"
  else key.

Definition member_parameter (key : string) : Param :=
  mkParam (member_name key) in_other None None None None.

(** [spec.components?.schemas?.[name]]: the entry of that name, or else the
    inherited member when the name is one of [Object_prototype]. *)
Definition components_schema (spec : OpenAPISpec) (name : string)
  : option Schema :=
  match spec_components spec with
  | None => None
  | Some c =>
      match comp_schemas c with
      | None => None
      | Some schemas =>
          match lookup schemas name with
          | Some schema => Some schema
          | None => if inherited name then Some member_schema else None
          end
      end
  end.

(** [spec.components?.parameters?.[name]] *)
Definition components_parameter (spec : OpenAPISpec) (name : string)
  : option Param :=
  match spec_components spec with
  | None => None
  | Some c =>
      match comp_parameters c with
      | None => None
      | Some parameters =>
          match lookup parameters name with
          | Some parameter => Some parameter
          | None => if inherited name then Some (member_parameter name)
                    else None
          end
      end
  end.

(** ** The endpoint index ([types/openapi.ts]) *)

Definition HIDDEN_ENDPOINTS : list string := ["/api/v1/test-key"].

Definition methods : list Method := [get; post; put; delete; patch].

(** The inner loop of [extractEndpoints]: [endpoints.push(...)] for every
    method the path item has. *)
Definition push_methods (path : string) (pathItem : PathItem)
  (endpoints : list Endpoint) : list Endpoint :=
  fold_left
    (fun endpoints method =>
       match item_method pathItem method with
       | Some operation =>
           (endpoints ++ [mkEndpoint path method operation])%list
       | None => endpoints
       end)
    methods endpoints.

Definition extractEndpoints (spec : OpenAPISpec) : list Endpoint :=
  fold_left
    (fun endpoints entry =>
       let '(path, pathItem) := entry in
       if includes HIDDEN_ENDPOINTS path then endpoints
       else push_methods path pathItem endpoints)
    (spec_paths spec) [].

(** [endpoint.operation.tags?.[0] || 'Other'] *)
Definition first_tag (endpoint : Endpoint) : string :=
  match op_tags (ep_operation endpoint) with
  | Some (tag :: _) => if Str.truthy tag then tag else "Other"
  | _ => "Other"
  end.

(** [if (!tagMap.has(tag)) tagMap.set(tag, []); tagMap.get(tag)!.push(e)]
    on a [Map] kept in insertion order. *)
Fixpoint tagMap_push (tagMap : Dict (list Endpoint)) (tag : string)
  (endpoint : Endpoint) : Dict (list Endpoint) :=
  match tagMap with
  | [] => [(tag, [endpoint])]
  | (k, es) :: rest =>
      if String.eqb k tag then (k, (es ++ [endpoint])%list) :: rest
      else (k, es) :: tagMap_push rest tag endpoint
  end.

(** [tagDescriptions.set(tag.name, tag.description || '')] for every
    declared tag. *)
Definition tagDescriptions (spec : OpenAPISpec) : Dict string :=
  match spec_tags spec with
  | None => []
  | Some tags =>
      fold_left
        (fun m tag =>
           assign m (tag_name tag)
             (match tag_description tag with
              | Some d => if Str.truthy d then d else EmptyString
              | None => EmptyString
              end))
        tags []
  end.

(** [spec.tags?.map(t => t.name) || []] *)
Definition tagOrder (spec : OpenAPISpec) : list string :=
  match spec_tags spec with
  | Some tags => map tag_name tags
  | None => []
  end.

(** The comparator handed to [groups.sort]. *)
Definition compare_groups (tagOrder : list string) (a b : TagGroup) : Z :=
  let aIndex := indexOf tagOrder (group_name a) in
  let bIndex := indexOf tagOrder (group_name b) in
  if (aIndex =? -1)%Z && (bIndex =? -1)%Z then 0%Z
  else if (aIndex =? -1)%Z then 1%Z
  else if (bIndex =? -1)%Z then (-1)%Z
  else (aIndex - bIndex)%Z.

(** [Array.prototype.sort] is stable; with a comparator that is a
    consistent ordering its result is the stable sorted arrangement,
    computed here by insertion from the right. *)
Section Sort.
Variable A : Type.
Variable cmp : A -> A -> Z.

Fixpoint insert (x : A) (l : list A) : list A :=
  match l with
  | [] => [x]
  | y :: l' => if (cmp x y <=? 0)%Z then x :: y :: l' else y :: insert x l'
  end.

Definition sort (l : list A) : list A := fold_right insert [] l.
End Sort.

Definition groupEndpointsByTag (spec : OpenAPISpec) : list TagGroup :=
  let endpoints := extractEndpoints spec in
  let descriptions := tagDescriptions spec in
  let tagMap :=
    fold_left (fun tagMap endpoint =>
                 tagMap_push tagMap (first_tag endpoint) endpoint)
      endpoints [] in
  let order := tagOrder spec in
  let groups :=
    map (fun entry => let '(name, endpoints) := entry in
                      mkTagGroup name (lookup descriptions name) endpoints)
      tagMap in
  let groups := sort (compare_groups order) groups in
  filter (fun g => negb (List.length (group_endpoints g) =? 0)%nat) groups.

(** ** Reference resolution ([types/openapi.ts]) *)

Definition schemas_prefix : string := "#/components/schemas/".
Definition parameters_prefix : string := "#/components/parameters/".

Definition resolveRef (spec : OpenAPISpec) (ref : string) : option Schema :=
  if negb (Str.startsWith ref schemas_prefix) then None
  else
    let schemaName := Str.replace ref schemas_prefix EmptyString in
    components_schema spec schemaName.

Definition resolveParameter (spec : OpenAPISpec) (param : Param)
  : option Param :=
  match param_ref param with
  | Some ref =>
      if Str.truthy ref then
        if negb (Str.startsWith ref parameters_prefix) then None
        else
          let paramName := Str.replace ref parameters_prefix EmptyString in
          components_parameter spec paramName
      else Some param
  | None => Some param
  end.

Definition resolveParameters (spec : OpenAPISpec) (operation : Operation)
  : list Param :=
  match op_parameters operation with
  | None => []
  | Some parameters =>
      flat_map (fun p => match resolveParameter spec p with
                         | Some q => [q]
                         | None => []
                         end) parameters
  end.

(** ** Example synthesis ([components/EndpointView.tsx]) *)

(** [x === 'literal'] on an optional string field. *)
Definition field_is (field : option string) (literal : string) : bool :=
  match field with
  | Some s => String.eqb s literal
  | None => false
  end.

(** The [$ref] prologue of [generateExampleResponse] and [SchemaFields]:

      if (schema.$ref && spec) {
        const refName = schema.$ref.replace('#/components/schemas/', '')
        const resolved = spec.components?.schemas?.[refName]
        if (resolved) ...

    [Some resolved] when the function goes on with [resolved]. *)
Definition resolve_step (spec : option OpenAPISpec) (schema : Schema)
  : option Schema :=
  match schema_ref schema, spec with
  | Some ref, Some spec =>
      if Str.truthy ref then
        let refName := Str.replace ref schemas_prefix EmptyString in
        components_schema spec refName
      else None
  | _, _ => None
  end.

(** The schema [generateExampleResponse] and [SchemaFields] end up working
    on: the prologue, repeated by the recursive call until it does not
    apply. *)
Fixpoint resolveSchema (fuel : nat) (spec : option OpenAPISpec)
  (schema : Schema) : option Schema :=
  match fuel with
  | O => None
  | S fuel' =>
      match resolve_step spec schema with
      | Some resolved => resolveSchema fuel' spec resolved
      | None => Some schema
      end
  end.

(** The body of the loop over [Object.entries(schema.properties)]: the
    value stored under the property's name. *)
Definition property_value (prop : Schema) : JSON :=
  match schema_example prop with
  | Some example => example
  | None =>
      if field_is (schema_type prop) "string" then
        if field_is (schema_format prop) "date-time"
        then JString "2024-01-01T00:00:00Z"
        else JString "string"
      else if field_is (schema_type prop) "number"
              || field_is (schema_type prop) "integer" then JNumber 0
      else if field_is (schema_type prop) "boolean" then JBool true
      else if field_is (schema_type prop) "array" then JArray []
      else JNull
  end.

Definition properties_object (properties : Dict Schema) : Dict JSON :=
  fold_left
    (fun obj entry => let '(name, prop) := entry in
                      set_property obj name (property_value prop))
    properties [].

(** [if (schema.example)] *)
Definition has_truthy_example (schema : Schema) : bool :=
  match schema_example schema with
  | Some example => truthy example
  | None => false
  end.

Fixpoint generateExampleResponse (fuel : nat) (schema : option Schema)
  (spec : option OpenAPISpec) : option string :=
  match fuel with
  | O => None
  | S fuel' =>
      match schema with
      | None => Some "{}"
      | Some schema =>
          match resolve_step spec schema with
          | Some resolved => generateExampleResponse fuel' (Some resolved) spec
          | None =>
              if has_truthy_example schema then
                match schema_example schema with
                | Some example => Some (JSON_stringify example)
                | None => None
                end
              else if field_is (schema_type schema) "array" then
                match
                  match schema_items schema with
                  | Some items =>
                      generateExampleResponse fuel' (Some items) spec
                  | None => Some "{}"
                  end
                with
                | Some itemExample =>
                    Some ("[" ++ Stringify.nl ++ "  " ++ itemExample
                          ++ Stringify.nl ++ "]")
                | None => None
                end
              else
                match field_is (schema_type schema) "object",
                      schema_properties schema with
                | true, Some properties =>
                    Some (JSON_stringify
                            (JObject (properties_object properties)))
                | _, _ => Some "{}"
                end
          end
      end
  end.

(** ** The request builder (the [Playground] component) *)

Record RequestInit : Type := mkRequestInit {
  init_method : string;
  init_headers : Dict string;
  init_body : option string
}.

(** [method.toUpperCase()] *)
Fixpoint toUpperCase (s : string) : string :=
  match s with
  | EmptyString => EmptyString
  | String c s' => String (Str.upper_char c) (toUpperCase s')
  end.

Section Playground.
(** The props of the component. *)
Variable endpoint : Endpoint.
Variable apiKey : string.
Variable spec : option OpenAPISpec.
(** Its state: the parameter values and the body text the user entered. *)
Variable params : Dict string.
Variable requestBody : string.

Definition allParams : list Param :=
  match spec with
  | Some spec => resolveParameters spec (ep_operation endpoint)
  | None => []
  end.

Definition pathParams : list Param :=
  filter (fun p => ParamIn_eqb (param_in p) in_path) allParams.

Definition queryParams : list Param :=
  filter (fun p => ParamIn_eqb (param_in p) in_query) allParams.

(** [spec?.servers?.[0]?.url || ''] *)
Definition baseUrl : string :=
  match spec with
  | Some spec =>
      match spec_servers spec with
      | Some (server :: _) => server_url server
      | _ => EmptyString
      end
  | None => EmptyString
  end.

Definition placeholder (name : string) : string := "{" ++ name ++ "}".

(** [params[name]] when it is truthy, for a name the state has an entry
    of or that is none of [Object_prototype].  (On one of those names
    without an entry the source reads the inherited member, a function or
    an object, in place of a text; the properties about states that may
    lack entries leave these names out.) *)
Definition param_value (name : string) : option string :=
  match lookup params name with
  | Some value => if Str.truthy value then Some value else None
  | None => None
  end.

(** One round of the loop over [pathParams]. *)
Definition substitute (builtPath : string) (param : Param) : string :=
  Str.replace builtPath (placeholder (param_name param))
    (match param_value (param_name param) with
     | Some value => value
     | None => placeholder (param_name param)
     end).

Definition builtPath : string :=
  fold_left substitute pathParams (ep_path endpoint).

Definition queryParts : list string :=
  fold_left
    (fun queryParts param =>
       match param_value (param_name param) with
       | Some value =>
           let part :=
             param_name param ++ "=" ++ Str.encodeURIComponent value in
           (queryParts ++ [part])%list
       | None => queryParts
       end)
    queryParams [].

Definition queryString : string :=
  if (0 <? List.length queryParts)%nat
  then "?" ++ String.concat "&" queryParts
  else EmptyString.

Definition buildUrl : string := baseUrl ++ builtPath ++ queryString.

(** [requestBody && ['post', 'put', 'patch'].includes(method)] *)
Definition sends_body : bool :=
  Str.truthy requestBody
  && includes ["post"; "put"; "patch"] (method_name (ep_method endpoint)).

(** The arguments of the call [fetch(url, options)] in [executeRequest]. *)
Definition executeRequest_headers : Dict string :=
  let headers := [("Content-Type", "application/json")] in
  if Str.truthy apiKey then assign headers "X-API-Key" apiKey else headers.

Definition executeRequest_options : RequestInit :=
  mkRequestInit
    (toUpperCase (method_name (ep_method endpoint)))
    executeRequest_headers
    (if sends_body then Some requestBody else None).

Definition executeRequest_url : string := buildUrl.

(** A line break of the rendered command: a space, a backslash, a
    newline and two spaces. *)
Definition continuation : string := " \" ++ Stringify.nl ++ "  ".

Definition generateCurl : string :=
  let url := buildUrl in
  let curl :=
    "curl -X " ++ toUpperCase (method_name (ep_method endpoint))
    ++ continuation ++ "'" ++ url ++ "'" in
  let curl :=
    if Str.truthy apiKey
    then curl ++ continuation ++ "-H 'X-API-Key: " ++ apiKey ++ "'"
    else curl in
  if sends_body then
    let curl :=
      curl ++ continuation ++ "-H 'Content-Type: application/json'" in
    curl ++ continuation ++ "-d '" ++ requestBody ++ "'"
  else curl.
End Playground.

(** ** The playground's parameter values (the [Playground] component) *)

(** [v.toString()] for a value that is not [null]: a number in decimal, a
    string as it is, an array as its elements joined by commas ([null]
    elements as nothing), an object as [[object Object]].  This is the
    text for the values of [printable]; on the others the call does not
    return one. *)
Fixpoint toString (v : JSON) : string :=
  match v with
  | JNull => "null"
  | JBool true => "true"
  | JBool false => "false"
  | JNumber z => Stringify.number z
  | JDecimal text => text
  | JString s => s
  | JArray l =>
      String.concat ","
        (map (fun x => match x with
                       | JNull => EmptyString
                       | _ => toString x
                       end) l)
  | JObject _ => "[object Object]"
  end.

(** The values [toString] is the text of: an integer is within the safe
    range, and an object that is printed (the value itself, or an element
    of an array that is) has no entry named [toString], which would be
    called in place of the inherited method and is no function. *)
Fixpoint printable (v : JSON) : bool :=
  match v with
  | JNumber z => (Z.abs z <? 2 ^ 53)%Z
  | JArray l => forallb printable l
  | JObject l => negb (includes (keys l) "toString")
  | _ => true
  end.

(** [v?.toString()] on an optional field: nothing for [undefined] and for
    [null]. *)
Definition optional_toString (v : option JSON) : option string :=
  match v with
  | None | Some JNull => None
  | Some v => Some (toString v)
  end.

(** [a || b] on strings that may be [undefined]. *)
Definition or_string (a b : option string) : option string :=
  match a with
  | Some s => if Str.truthy s then a else b
  | None => b
  end.

(** [param.schema?.example] and [param.schema?.default] *)
Definition param_schema_example (param : Param) : option JSON :=
  match param_schema param with
  | Some schema => schema_example schema
  | None => None
  end.

Definition param_schema_default (param : Param) : option JSON :=
  match param_schema param with
  | Some schema => schema_default schema
  | None => None
  end.

(** The right-hand side of the assignment in [getInitialParams]. *)
Definition initial_value (param : Param) : string :=
  match or_string
          (or_string
             (or_string (optional_toString (param_example param))
                (optional_toString (param_schema_example param)))
             (optional_toString (param_schema_default param)))
          (Some EmptyString)
  with
  | Some s => s
  | None => EmptyString
  end.

Definition getInitialParams (endpoint : Endpoint)
  (spec : option OpenAPISpec) : Dict string :=
  fold_left
    (fun initial param =>
       set_property initial (param_name param) (initial_value param))
    (allParams endpoint spec) [].

(** [setParams(prev => ({ ...prev, [name]: value }))] *)
Definition updateParam (prev : Dict string) (name value : string)
  : Dict string :=
  assign prev name value.

(** ** The documentation URL ([components/EndpointView.tsx]) *)

Module EndpointView.

(** [buildUrl] of [EndpointView]: every placeholder is replaced by itself,
    and every query parameter is shown as [name={name}]. *)
Definition builtPath (endpoint : Endpoint) (spec : option OpenAPISpec)
  : string :=
  fold_left
    (fun builtPath param =>
       Str.replace builtPath (placeholder (param_name param))
         (placeholder (param_name param)))
    (pathParams endpoint spec) (ep_path endpoint).

Definition queryParts (endpoint : Endpoint) (spec : option OpenAPISpec)
  : list string :=
  fold_left
    (fun queryParts param =>
       let part := param_name param ++ "=" ++ placeholder (param_name param) in
       (queryParts ++ [part])%list)
    (queryParams endpoint spec) [].

Definition buildUrl (endpoint : Endpoint) (spec : option OpenAPISpec)
  : string :=
  let queryString :=
    if (0 <? List.length (queryParts endpoint spec))%nat
    then "?" ++ String.concat "&" (queryParts endpoint spec)
    else EmptyString in
  baseUrl spec ++ builtPath endpoint spec ++ queryString.

End EndpointView.

(** ** The sidebar ([components/Sidebar.tsx]) *)

Module Sidebar.

(** A [Set<string>]: its elements in insertion order, none twice. *)
Definition has (s : list string) (x : string) : bool := includes s x.

Definition add (s : list string) (x : string) : list string :=
  if has s x then s else (s ++ [x])%list.

Definition delete (s : list string) (x : string) : list string :=
  filter (fun y => negb (String.eqb y x)) s.

(** The initial state of [expandedTags]. *)
Definition expandedTags_initial : list string := ["Getting Started"; "KLSI"].

(** The set [toggleTag] hands to [setExpandedTags]. *)
Definition toggleTag (expandedTags : list string) (tagName : string)
  : list string :=
  let newExpanded := expandedTags in
  if has newExpanded tagName then delete newExpanded tagName
  else add newExpanded tagName.

Definition isSelected (selectedEndpoint : option Endpoint)
  (endpoint : Endpoint) : bool :=
  match selectedEndpoint with
  | Some selected =>
      String.eqb (ep_path selected) (ep_path endpoint)
      && Method_eqb (ep_method selected) (ep_method endpoint)
  | None => false
  end.

(** The React key of an endpoint's button: [`${method}-${path}`]. *)
Definition key (endpoint : Endpoint) : string :=
  method_name (ep_method endpoint) ++ "-" ++ ep_path endpoint.

(** The label of the button: [operation.summary || path]. *)
Definition label (endpoint : Endpoint) : string :=
  match op_summary (ep_operation endpoint) with
  | Some summary => if Str.truthy summary then summary else ep_path endpoint
  | None => ep_path endpoint
  end.

End Sidebar.

(** ** Running a request (the [Playground] component) *)

(** What a [catch] may receive: an [Error] with its message, or something
    else. *)
Inductive Thrown : Type :=
| thrown_Error (message : string)
| thrown_other.

(** [err instanceof Error ? err.message : fallback] *)
Definition message_of (err : Thrown) (fallback : string) : string :=
  match err with
  | thrown_Error message => message
  | thrown_other => fallback
  end.

(** The response [fetch] resolves to, as [executeRequest] reads it: the
    status line, the headers as [forEach] enumerates them (names in lower
    case), and what [res.json()] and [res.text()] would give. *)
Record FetchResponse : Type := mkFetchResponse {
  res_status : Z;
  res_statusText : string;
  res_headers : Dict string;
  res_json : Thrown + JSON;
  res_text : Thrown + string
}.

Section ExecuteRequest.
(** The readings of [performance.now()] are not modelled: the elapsed time
    is a value of some type. *)
Variable Time : Type.

Record ApiResponse : Type := mkApiResponse {
  api_status : Z;
  api_statusText : string;
  api_headers : Dict string;
  api_body : JSON;
  api_duration : Time
}.

(** The state the component keeps about the request. *)
Record RequestState : Type := mkRequestState {
  state_loading : bool;
  state_response : option ApiResponse;
  state_error : option string
}.

(** [contentType?.includes('application/json')] *)
Definition is_json (res : FetchResponse) : bool :=
  match lookup (res_headers res) "content-type" with
  | Some contentType => Str.includes contentType "application/json"
  | None => false
  end.

(** The state once [executeRequest] is through, given what [fetch] did
    ([inl]: it threw) and the elapsed time. *)
Definition executeRequest (outcome : Thrown + FetchResponse)
  (duration : Time) : RequestState :=
  (* setLoading(true); setError(null); setResponse(null) *)
  let response := None in
  let error := None in
  match outcome with
  | inl err => mkRequestState false response
                 (Some (message_of err "Request failed"))
  | inr res =>
      let responseHeaders :=
        fold_left (fun headers entry =>
                     let '(key, value) := entry in
                     set_property headers key value)
          (res_headers res) [] in
      let body :=
        if is_json res then res_json res
        else match res_text res with
             | inl err => inl err
             | inr text => inr (JString text)
             end in
      match body with
      | inl err => mkRequestState false response
                     (Some (message_of err "Request failed"))
      | inr body =>
          mkRequestState false
            (Some (mkApiResponse (res_status res) (res_statusText res)
                     responseHeaders body duration))
            error
      end
  end.

(** The text shown for the body:
    [typeof body === 'string' ? body : JSON.stringify(body, null, 2)]. *)
Definition shown_body (response : ApiResponse) : string :=
  match api_body response with
  | JString text => text
  | body => JSON_stringify body
  end.

End ExecuteRequest.

(** ** Loading the document (the hook [useOpenAPI] and [App.tsx]) *)

(** The response to the request for [./openapi.json]: its status and what
    [response.json()] would give: it throws, or it gives the parsed body,
    a document or else [null] (for which, and for any other falsy value,
    [None] stands: the code only tests it).  [response.ok] is the status
    being in 200..299. *)
Record SpecResponse : Type := mkSpecResponse {
  spec_status : Z;
  spec_json : Thrown + option OpenAPISpec
}.

Definition response_ok (response : SpecResponse) : bool :=
  (200 <=? spec_status response)%Z && (spec_status response <=? 299)%Z.

Record UseOpenAPIResult : Type := mkUseOpenAPIResult {
  result_spec : option OpenAPISpec;
  result_loading : bool;
  result_error : option string
}.

(** The result of the hook once [fetchSpec] is through. *)
Definition fetchSpec (outcome : Thrown + SpecResponse) : UseOpenAPIResult :=
  let failed (err : Thrown) :=
    mkUseOpenAPIResult None false
      (Some (message_of err "Failed to load API specification")) in
  match outcome with
  | inl err => failed err
  | inr response =>
      if negb (response_ok response) then
        failed (thrown_Error ("Failed to fetch OpenAPI spec: "
                              ++ Stringify.number (spec_status response)))
      else
        match spec_json response with
        | inl err => failed err
        | inr data => mkUseOpenAPIResult data false None
        end
  end.

(** What [App] renders. *)
Inductive AppView : Type :=
| LoadingView
| ErrorView (error : string)
| MainView (spec : option OpenAPISpec).

Definition App (result : UseOpenAPIResult) : AppView :=
  if result_loading result then LoadingView
  else match result_error result with
       | Some error =>
           if Str.truthy error then ErrorView error
           else MainView (result_spec result)
       | None => MainView (result_spec result)
       end.

(** ** Descriptions ([components/EndpointView.tsx]) *)

Module Description.

(** [s.split(sep)] for a separator that is not empty; the fuel bounds the
    number of pieces. *)
Fixpoint split_fuel (fuel : nat) (sep s : string) : list string :=
  match fuel with
  | O => [s]
  | S fuel' =>
      match Str.split_first sep s with
      | Some (piece, rest) => piece :: split_fuel fuel' sep rest
      | None => [s]
      end
  end.

Definition split (sep s : string) : list string :=
  split_fuel (String.length s) sep s.

Definition newline : string := Stringify.nl.

(** [operation.description.split('\n')[0]], the paragraph under the
    title. *)
Definition summary (description : string) : string :=
  match split newline description with
  | first :: _ => first
  | [] => EmptyString
  end.


(** A piece of a formatted line: plain text, [<code>] or [<strong>]. *)
Inductive Inline : Type :=
| Text (s : string)
| Code (s : string)
| Strong (s : string).

(** The longest run of characters other than [x] at the start of [s], and
    what follows it. *)
Fixpoint take_until (x : ascii) (s : string) : string * string :=
  match s with
  | EmptyString => (EmptyString, EmptyString)
  | String c s' =>
      if Ascii.eqb c x then (EmptyString, s)
      else let '(run, rest) := take_until x s' in (String c run, rest)
  end.

(** A match of the pattern [delim ([^x]+) delim] at the start of [s]: its
    group. *)
Definition match_here (delim : string) (x : ascii) (s : string)
  : option string :=
  if Str.startsWith s delim then
    let '(run, rest) := take_until x (Str.drop (String.length delim) s) in
    if Str.truthy run && Str.startsWith rest delim then Some run else None
  else None.

(** [s.match(/delim([^x]+)delim/)]: the leftmost match, as the matched
    text and its group. *)
Fixpoint regex_match (delim : string) (x : ascii) (s : string)
  : option (string * string) :=
  match match_here delim x s with
  | Some group => Some (delim ++ group ++ delim, group)
  | None =>
      match s with
      | EmptyString => None
      | String _ s' => regex_match delim x s'
      end
  end.

(** [m ? remaining.indexOf(m[0]) : Infinity], with the text before and
    after that occurrence. *)
Definition located (m : option (string * string)) (remaining : string)
  : option (string * string * string) :=
  match m with
  | Some (whole, group) =>
      match Str.split_first whole remaining with
      | Some (before, after) => Some (before, group, after)
      | None => None
      end
  | None => None
  end.

(** [if (index > 0) parts.push(remaining.slice(0, index))] *)
Definition push_text (parts : list Inline) (before : string) : list Inline :=
  if Str.truthy before then (parts ++ [Text before])%list else parts.

(** The loop of [formatInline]; the fuel bounds the number of rounds. *)
Fixpoint formatInline_loop (fuel : nat) (parts : list Inline)
  (remaining : string) : option (list Inline) :=
  if negb (Str.truthy remaining) then Some parts
  else
    match fuel with
    | O => None
    | S fuel' =>
        let codeMatch := regex_match "`" "`" remaining in
        let boldMatch := regex_match "**" "*" remaining in
        match located codeMatch remaining, located boldMatch remaining with
        | None, None => Some (parts ++ [Text remaining])%list
        | Some (before, group, after), None =>
            formatInline_loop fuel'
              (push_text parts before ++ [Code group])%list after
        | None, Some (before, group, after) =>
            formatInline_loop fuel'
              (push_text parts before ++ [Strong group])%list after
        | Some (before, group, after), Some (before', group', after') =>
            if (String.length before <? String.length before')%nat then
              formatInline_loop fuel'
                (push_text parts before ++ [Code group])%list after
            else
              formatInline_loop fuel'
                (push_text parts before' ++ [Strong group'])%list after'
        end
    end.

Definition formatInline (fuel : nat) (text : string)
  : option (list Inline) :=
  formatInline_loop fuel [] text.

End Description.

(** * Properties *)

(** ** Lists built by pushing *)

Lemma fold_left_push (A B : Type) (f : A -> list B) (l : list A)
  (init : list B) :
  fold_left (fun acc x => (acc ++ f x)%list) l init
  = (init ++ flat_map f l)%list.
Proof.
  revert init; induction l as [|x l IH]; intros init; simpl.
  - now rewrite app_nil_r.
  - rewrite IH. now rewrite app_assoc.
Qed.

Lemma fold_left_ext (A B : Type) (f g : B -> A -> B) (l : list A) (init : B) :
  (forall acc x, f acc x = g acc x) ->
  fold_left f l init = fold_left g l init.
Proof.
  intros H. revert init. induction l as [|x l IH]; intros init; simpl.
  - reflexivity.
  - now rewrite H, IH.
Qed.

Lemma includes_In (l : list string) (x : string) :
  includes l x = true <-> In x l.
Proof.
  unfold includes. rewrite existsb_exists. split.
  - intros [y [Hy He]]. apply String.eqb_eq in He. now subst.
  - intros H. exists x. split; [assumption | apply String.eqb_refl].
Qed.

(** ** The endpoint index *)

(** The endpoint of one method of a path item, if the item has it. *)
Definition method_endpoint (path : string) (pathItem : PathItem)
  (m : Method) : list Endpoint :=
  match item_method pathItem m with
  | Some operation => [mkEndpoint path m operation]
  | None => []
  end.

(** What the specification says a path contributes: nothing when it is
    hidden, else one endpoint per method present, in the order get, post,
    put, delete, patch. *)
Definition path_endpoints (entry : string * PathItem) : list Endpoint :=
  let '(path, pathItem) := entry in
  if includes HIDDEN_ENDPOINTS path then []
  else (method_endpoint path pathItem get
        ++ method_endpoint path pathItem post
        ++ method_endpoint path pathItem put
        ++ method_endpoint path pathItem delete
        ++ method_endpoint path pathItem patch)%list.

Lemma push_methods_app (path : string) (pathItem : PathItem)
  (endpoints : list Endpoint) :
  push_methods path pathItem endpoints
  = (endpoints ++ flat_map (method_endpoint path pathItem) methods)%list.
Proof.
  unfold push_methods.
  rewrite <- (fold_left_push (method_endpoint path pathItem) methods endpoints).
  apply fold_left_ext. intros acc m. unfold method_endpoint.
  destruct (item_method pathItem m); [reflexivity | now rewrite app_nil_r].
Qed.

Lemma extractEndpoints_flat_map (spec : OpenAPISpec) :
  extractEndpoints spec = flat_map path_endpoints (spec_paths spec).
Proof.
  unfold extractEndpoints.
  rewrite <- (app_nil_l (flat_map path_endpoints (spec_paths spec))).
  rewrite <- fold_left_push.
  apply fold_left_ext. intros acc [path pathItem]. unfold path_endpoints.
  destruct (includes HIDDEN_ENDPOINTS path).
  - now rewrite app_nil_r.
  - rewrite push_methods_app. simpl. now rewrite !app_nil_r.
Qed.

Lemma In_method_endpoint (path : string) (pathItem : PathItem) (m : Method)
  (e : Endpoint) :
  In e (method_endpoint path pathItem m)
  <-> exists operation,
      item_method pathItem m = Some operation
      /\ e = mkEndpoint path m operation.
Proof.
  unfold method_endpoint. destruct (item_method pathItem m) as [op|]; simpl.
  - split.
    + intros [H|[]]. exists op. now split.
    + intros [op' [H1 H2]]. left. congruence.
  - split; [intros [] | intros [op' [H _]]; discriminate].
Qed.

Lemma In_path_endpoints (entry : string * PathItem) (e : Endpoint) :
  In e (path_endpoints entry)
  <-> ~ In (fst entry) HIDDEN_ENDPOINTS
      /\ ep_path e = fst entry
      /\ item_method (snd entry) (ep_method e) = Some (ep_operation e).
Proof.
  destruct entry as [path pathItem]. unfold path_endpoints. simpl fst; simpl snd.
  destruct (includes HIDDEN_ENDPOINTS path) eqn:Hh.
  - apply includes_In in Hh. split; [intros [] | intros [H _]; contradiction].
  - assert (Hn : ~ In path HIDDEN_ENDPOINTS).
    { intros H. apply includes_In in H. congruence. }
    rewrite !in_app_iff, !In_method_endpoint. split.
    + intros H.
      repeat (destruct H as [H|H]); destruct H as [op [H1 H2]]; subst e;
        simpl; auto.
    + intros [_ [Hp Ho]]. destruct e as [p m op]. simpl in *. subst p.
      destruct m; [left | right; left | do 2 right; left
                  | do 3 right; left | do 4 right];
        exists op; auto.
Qed.

(** The methods of the endpoints one path contributes are pairwise
    distinct: a method present on the item gives one endpoint, not more. *)
Lemma path_endpoints_methods_NoDup (entry : string * PathItem) :
  NoDup (map ep_method (path_endpoints entry)).
Proof.
  destruct entry as [path pathItem]. unfold path_endpoints, method_endpoint.
  destruct (includes HIDDEN_ENDPOINTS path); [constructor|].
  simpl.
  destruct (item_get pathItem), (item_post pathItem), (item_put pathItem),
    (item_delete pathItem), (item_patch pathItem); simpl;
    repeat constructor; simpl; intuition discriminate.
Qed.

(** C6.  [extractEndpoints] walks [spec.paths] in its key order and gives,
    for every path that is not hidden, one endpoint per method present on
    the path item, in the order get, post, put, delete, patch; a hidden
    path gives nothing whatever its methods, so no endpoint of the result
    has a hidden path; and an endpoint is in the result exactly when its
    path is a key that is not hidden and its operation is the one its
    method has under that key. *)
Theorem extractEndpoints_index (spec : OpenAPISpec) :
  extractEndpoints spec = flat_map path_endpoints (spec_paths spec)
  /\ (forall path pathItem,
        In path HIDDEN_ENDPOINTS -> path_endpoints (path, pathItem) = [])
  /\ (forall path pathItem,
        ~ In path HIDDEN_ENDPOINTS ->
        NoDup (map ep_method (path_endpoints (path, pathItem)))
        /\ forall m,
            (forall operation,
                item_method pathItem m = Some operation ->
                In (mkEndpoint path m operation)
                  (path_endpoints (path, pathItem)))
            /\ (item_method pathItem m = None ->
                ~ In m (map ep_method (path_endpoints (path, pathItem)))))
  /\ (forall e, In e (extractEndpoints spec) ->
                ~ In (ep_path e) HIDDEN_ENDPOINTS)
  /\ (forall e, In e (extractEndpoints spec) <->
                exists pathItem,
                  In (ep_path e, pathItem) (spec_paths spec)
                  /\ ~ In (ep_path e) HIDDEN_ENDPOINTS
                  /\ item_method pathItem (ep_method e)
                     = Some (ep_operation e)).
Proof.
  split; [apply extractEndpoints_flat_map|].
  split.
  { intros path pathItem H. unfold path_endpoints.
    apply includes_In in H. now rewrite H. }
  split.
  { intros path pathItem Hn. split; [apply path_endpoints_methods_NoDup|].
    intros m. split.
    - intros op Hop. apply In_path_endpoints. simpl. auto.
    - intros Hnone Hin. apply in_map_iff in Hin.
      destruct Hin as [e [He Hin]]. apply In_path_endpoints in Hin.
      simpl in Hin. destruct Hin as [_ [_ Ho]]. congruence. }
  rewrite extractEndpoints_flat_map.
  split.
  - intros e He. apply in_flat_map in He. destruct He as [entry [_ He]].
    apply In_path_endpoints in He. destruct He as [Hn [Hp _]]. congruence.
  - intros e. rewrite in_flat_map. split.
    + intros [[path pathItem] [Hin He]]. apply In_path_endpoints in He.
      simpl in He. destruct He as [Hn [Hp Ho]]. exists pathItem.
      rewrite Hp. auto.
    + intros [pathItem [Hin [Hn Ho]]]. exists (ep_path e, pathItem).
      split; [assumption|]. apply In_path_endpoints. simpl. auto.
Qed.

(** ** Order of occurrence in a list *)

(** [a] occurs in [l], and [b] occurs after it. *)
Definition before (A : Type) (a b : A) (l : list A) : Prop :=
  exists l1 l2 l3, l = (l1 ++ a :: l2 ++ b :: l3)%list.

Section Before.
Variable A : Type.
Implicit Types (a b x : A) (l : list A).

Lemma before_cons a b x l :
  before a b (x :: l) <-> (x = a /\ In b l) \/ before a b l.
Proof.
  split.
  - intros [l1 [l2 [l3 H]]]. destruct l1 as [|y l1]; simpl in H.
    + injection H as Hx Hl. left. split; [assumption|].
      subst l. apply in_or_app. right. now left.
    + injection H as Hx Hl. right. now exists l1, l2, l3.
  - intros [[Hx Hin] | [l1 [l2 [l3 H]]]].
    + apply in_split in Hin. destruct Hin as [l2 [l3 Hl]].
      exists [], l2, l3. simpl. now subst.
    + exists (x :: l1), l2, l3. simpl. now subst.
Qed.

Lemma before_nil a b : ~ before a b [].
Proof.
  intros [l1 [l2 [l3 H]]]. destruct l1; discriminate.
Qed.

Lemma before_In a b l : before a b l -> In a l /\ In b l.
Proof.
  intros [l1 [l2 [l3 H]]]. subst l. split.
  - apply in_or_app. right. now left.
  - apply in_or_app. right. right. apply in_or_app. right. now left.
Qed.

Lemma before_filter (P : A -> bool) a b l :
  before a b (filter P l) -> before a b l.
Proof.
  induction l as [|x l IH]; simpl.
  - intros H. now apply before_nil in H.
  - destruct (P x).
    + rewrite !before_cons. intros [[Hx Hin] | H].
      * left. split; [assumption|]. apply filter_In in Hin. tauto.
      * right. auto.
    + intros H. apply before_cons. right. auto.
Qed.

Lemma filter_before (P : A -> bool) a b l :
  before a b l -> P a = true -> P b = true -> before a b (filter P l).
Proof.
  intros H Ha Hb. induction l as [|x l IH]; simpl.
  - now apply before_nil in H.
  - apply before_cons in H. destruct H as [[Hx Hin] | H].
    + subst x. rewrite Ha. apply before_cons. left. split; [reflexivity|].
      apply filter_In. now split.
    + destruct (P x); [apply before_cons; right|]; auto.
Qed.

Lemma before_app_last a b x l :
  before a b (l ++ [x]) -> before a b l \/ (In a l /\ b = x).
Proof.
  induction l as [|y l IH]; simpl.
  - intros H. apply before_cons in H. destruct H as [[_ []] | H].
    now apply before_nil in H.
  - rewrite !before_cons. intros [[Hy Hin] | H].
    + apply in_app_or in Hin. destruct Hin as [Hin | [Hb | []]].
      * left. left. now split.
      * right. split; [now left | now symmetry].
    + destruct (IH H) as [H' | [Hin Hb]].
      * left. now right.
      * right. split; [now right | assumption].
Qed.

Lemma sorted_before (R : A -> A -> Prop) a b l :
  StronglySorted R l -> before a b l -> R a b.
Proof.
  intros Hs. induction Hs as [|x l Hs IH Hall].
  - intros H. now apply before_nil in H.
  - rewrite before_cons. intros [[Hx Hin] | H].
    + subst x. rewrite Forall_forall in Hall. now apply Hall.
    + now apply IH.
Qed.
End Before.

Lemma before_map_inv (A B : Type) (f : A -> B) (a b : B) (l : list A) :
  before a b (map f l) ->
  exists x y, f x = a /\ f y = b /\ before x y l.
Proof.
  induction l as [|z l IH]; simpl.
  - intros H. now apply before_nil in H.
  - rewrite before_cons. intros [[Hz Hin] | H].
    + apply in_map_iff in Hin. destruct Hin as [y [Hy Hin]].
      exists z, y. repeat split; try assumption.
      apply before_cons. left. now split.
    + destruct (IH H) as [x [y [Hx [Hy Hb]]]]. exists x, y.
      repeat split; try assumption. apply before_cons. now right.
Qed.

Lemma map_before (A B : Type) (f : A -> B) (x y : A) (l : list A) :
  before x y l -> before (f x) (f y) (map f l).
Proof.
  intros [l1 [l2 [l3 H]]]. subst l.
  exists (map f l1), (map f l2), (map f l3).
  now rewrite map_app, (map_cons f x), map_app, (map_cons f y).
Qed.

(** ** The stable sort *)

Section SortKey.
Variable A : Type.
Variable cmp : A -> A -> Z.
Variable key : A -> Z.
(** The comparator is the comparison of a key. *)
Hypothesis cmp_key :
  forall x y, (cmp x y <=? 0)%Z = (key x <=? key y)%Z.

Let le_key (x y : A) : Prop := (key x <= key y)%Z.

Lemma insert_perm (x : A) (l : list A) :
  Permutation (insert cmp x l) (x :: l).
Proof.
  induction l as [|y l IH]; simpl.
  - apply Permutation_refl.
  - destruct (cmp x y <=? 0)%Z.
    + apply Permutation_refl.
    + eapply Permutation_trans; [apply perm_skip, IH | apply perm_swap].
Qed.

Lemma sort_perm (l : list A) : Permutation (sort cmp l) l.
Proof.
  induction l as [|x l IH]; simpl.
  - apply Permutation_refl.
  - eapply Permutation_trans; [apply insert_perm | now apply perm_skip].
Qed.

Lemma insert_sorted (x : A) (l : list A) :
  StronglySorted le_key l -> StronglySorted le_key (insert cmp x l).
Proof.
  intros Hs. induction Hs as [|y l Hs IH Hall]; simpl.
  - constructor; constructor.
  - rewrite cmp_key. destruct (key x <=? key y)%Z eqn:Hle.
    + apply Z.leb_le in Hle. constructor.
      * now constructor.
      * constructor; [assumption|].
        rewrite Forall_forall in *. intros z Hz. unfold le_key in *.
        specialize (Hall z Hz). lia.
    + apply Z.leb_gt in Hle. constructor; [assumption|].
      rewrite Forall_forall in *. intros z Hz.
      apply (Permutation_in _ (insert_perm x l)) in Hz.
      destruct Hz as [Hz | Hz].
      * subst z. unfold le_key. lia.
      * now apply Hall.
Qed.

Lemma sort_sorted (l : list A) : StronglySorted le_key (sort cmp l).
Proof.
  induction l as [|x l IH]; simpl.
  - constructor.
  - now apply insert_sorted.
Qed.

(** Stability: the elements of one key keep their order. *)
Lemma insert_stable (k : Z) (x : A) (l : list A) :
  filter (fun y => (key y =? k)%Z) (insert cmp x l)
  = filter (fun y => (key y =? k)%Z) (x :: l).
Proof.
  induction l as [|y l IH]; simpl.
  - reflexivity.
  - rewrite cmp_key. destruct (key x <=? key y)%Z eqn:Hle.
    + reflexivity.
    + apply Z.leb_gt in Hle. simpl. rewrite IH. simpl.
      destruct (key y =? k)%Z eqn:Hy, (key x =? k)%Z eqn:Hx;
        try reflexivity.
      apply Z.eqb_eq in Hy, Hx. lia.
Qed.

Lemma sort_stable (k : Z) (l : list A) :
  filter (fun y => (key y =? k)%Z) (sort cmp l)
  = filter (fun y => (key y =? k)%Z) l.
Proof.
  induction l as [|x l IH]; simpl.
  - reflexivity.
  - rewrite insert_stable. simpl. now rewrite IH.
Qed.
End SortKey.

(** ** [indexOf] and the comparator of the groups *)

Lemma indexOf_range (l : list string) (x : string) :
  indexOf l x = (-1)%Z
  \/ (0 <= indexOf l x < Z.of_nat (List.length l))%Z.
Proof.
  induction l as [|y l IH]; simpl indexOf.
  - now left.
  - destruct (String.eqb y x).
    + right. simpl List.length. lia.
    + destruct IH as [IH | IH].
      * rewrite IH. now left.
      * right. destruct (indexOf l x =? -1)%Z eqn:E.
        -- apply Z.eqb_eq in E. lia.
        -- simpl List.length. lia.
Qed.

Lemma indexOf_inj (l : list string) (x y : string) :
  indexOf l x = indexOf l y -> indexOf l x <> (-1)%Z -> x = y.
Proof.
  induction l as [|z l IH]; simpl indexOf.
  - intros _ H. now contradiction H.
  - destruct (String.eqb z x) eqn:Ex, (String.eqb z y) eqn:Ey.
    + apply String.eqb_eq in Ex, Ey. congruence.
    + intros H _. destruct (indexOf_range l y) as [R | R].
      * rewrite R in H. discriminate.
      * destruct (indexOf l y =? -1)%Z; lia.
    + intros H _. destruct (indexOf_range l x) as [R | R].
      * rewrite R in H. discriminate.
      * destruct (indexOf l x =? -1)%Z; lia.
    + destruct (indexOf l x =? -1)%Z eqn:E1; [intros _ H; now contradiction H|].
      destruct (indexOf l y =? -1)%Z eqn:E2.
      * intros H _. apply Z.eqb_neq in E1.
        destruct (indexOf_range l x); lia.
      * intros H _. apply IH; [lia | now apply Z.eqb_neq].
Qed.

(** The sort key of a group: the index of its name among the declared
    tags, or the number of declared tags when it is not among them. *)
Definition rank (order : list string) (g : TagGroup) : Z :=
  if (indexOf order (group_name g) =? -1)%Z
  then Z.of_nat (List.length order)
  else indexOf order (group_name g).

Lemma compare_groups_rank (order : list string) (a b : TagGroup) :
  (compare_groups order a b <=? 0)%Z = (rank order a <=? rank order b)%Z.
Proof.
  unfold compare_groups, rank.
  destruct (indexOf_range order (group_name a)) as [Ha | Ha],
           (indexOf_range order (group_name b)) as [Hb | Hb].
  - rewrite Ha, Hb. simpl. symmetry. apply Z.leb_le. lia.
  - rewrite Ha. simpl. destruct (indexOf order (group_name b) =? -1)%Z eqn:E.
    + apply Z.eqb_eq in E. lia.
    + simpl. symmetry. apply Z.leb_gt. lia.
  - rewrite Hb. destruct (indexOf order (group_name a) =? -1)%Z eqn:E.
    + apply Z.eqb_eq in E. lia.
    + simpl. symmetry. apply Z.leb_le. lia.
  - destruct (indexOf order (group_name a) =? -1)%Z eqn:Ea.
    { apply Z.eqb_eq in Ea. lia. }
    destruct (indexOf order (group_name b) =? -1)%Z eqn:Eb.
    { apply Z.eqb_eq in Eb. lia. }
    simpl. destruct (indexOf order (group_name a) <=? indexOf order (group_name b))%Z eqn:E.
    + apply Z.leb_le. apply Z.leb_le in E. lia.
    + apply Z.leb_gt. apply Z.leb_gt in E. lia.
Qed.

(** ** The tag map *)

(** The [Map] that [groupEndpointsByTag] fills from the endpoints. *)
Definition tagMap_of (endpoints : list Endpoint) : Dict (list Endpoint) :=
  fold_left (fun tagMap endpoint =>
               tagMap_push tagMap (first_tag endpoint) endpoint)
    endpoints [].

(** The endpoints filed under a tag. *)
Definition tagged (tag : string) (endpoints : list Endpoint)
  : list Endpoint :=
  filter (fun e => String.eqb (first_tag e) tag) endpoints.

Lemma tagMap_of_snoc (E : list Endpoint) (e : Endpoint) :
  tagMap_of (E ++ [e]) = tagMap_push (tagMap_of E) (first_tag e) e.
Proof.
  unfold tagMap_of. now rewrite fold_left_app.
Qed.

Lemma keys_push (M : Dict (list Endpoint)) (t : string) (e : Endpoint) :
  keys (tagMap_push M t e)
  = if includes (keys M) t then keys M else (keys M ++ [t])%list.
Proof.
  induction M as [|[k es] M IH]; simpl.
  - reflexivity.
  - rewrite (String.eqb_sym t k). destruct (String.eqb k t); simpl.
    + reflexivity.
    + unfold keys in *. rewrite IH. unfold includes.
      now destruct (existsb (String.eqb t) (map fst M)).
Qed.

Lemma In_keys (V : Type) (M : Dict V) (k : string) (v : V) :
  In (k, v) M -> In k (keys M).
Proof.
  intros H. unfold keys. apply in_map_iff. now exists (k, v).
Qed.

Lemma In_push (M : Dict (list Endpoint)) (t : string) (e : Endpoint)
  (k : string) (es : list Endpoint) :
  NoDup (keys M) ->
  In (k, es) (tagMap_push M t e) ->
  (k <> t /\ In (k, es) M)
  \/ (k = t /\ exists es0, es = (es0 ++ [e])%list
                          /\ (In (t, es0) M \/ (~ In t (keys M) /\ es0 = []))).
Proof.
  induction M as [|[k' es'] M IH]; simpl; intros Hnd Hin.
  - destruct Hin as [Hin | []]. injection Hin as Hk Hes. right.
    split; [now symmetry|]. exists []. subst es. split; [reflexivity|].
    right. split; [tauto | reflexivity].
  - inversion Hnd as [|? ? Hnotin Hnd']; subst.
    destruct (String.eqb k' t) eqn:Ek.
    + apply String.eqb_eq in Ek. subst k'. destruct Hin as [Hin | Hin].
      * injection Hin as Hk Hes. right. split; [now symmetry|].
        exists es'. split; [now symmetry|]. left. now left.
      * left. split; [|now right]. intros ->.
        apply Hnotin. now apply In_keys in Hin.
    + apply String.eqb_neq in Ek. destruct Hin as [Hin | Hin].
      * injection Hin as Hk Hes. subst k es. left. split; [assumption|now left].
      * destruct (IH Hnd' Hin) as [[Hne Hin'] | [Heq [es0 [Hes H0]]]].
        -- left. split; [assumption | now right].
        -- right. split; [assumption|]. exists es0. split; [assumption|].
           destruct H0 as [H0 | [H0 H1]].
           ++ left. now right.
           ++ right. split; [|assumption]. simpl. intros [H|H]; auto.
Qed.

Lemma NoDup_snoc (A : Type) (l : list A) (x : A) :
  NoDup l -> ~ In x l -> NoDup (l ++ [x]).
Proof.
  intros Hnd Hx. apply (Permutation_NoDup (l := x :: l)).
  - apply Permutation_cons_append.
  - now constructor.
Qed.

Lemma In_split_first (l : list Endpoint) (a : string) :
  In a (map first_tag l) ->
  exists l1 x l2,
    l = (l1 ++ x :: l2)%list /\ first_tag x = a
    /\ forall y, In y l1 -> first_tag y <> a.
Proof.
  induction l as [|z l IH]; simpl.
  - intros [].
  - intros Hin. destruct (string_dec (first_tag z) a) as [Hz | Hz].
    + exists [], z, l. simpl. repeat split; [assumption | intros y []].
    + destruct Hin as [Hin | Hin]; [contradiction|].
      destruct (IH Hin) as [l1 [x [l2 [Hl [Hx Hl1]]]]].
      exists (z :: l1), x, l2. simpl. subst l. repeat split; [assumption|].
      intros y [Hy | Hy]; [now subst y | auto].
Qed.

Lemma tagged_nil (E : list Endpoint) (t : string) :
  ~ In t (map first_tag E) -> tagged t E = [].
Proof.
  intros Hn. unfold tagged. induction E as [|e E IH]; simpl.
  - reflexivity.
  - destruct (String.eqb (first_tag e) t) eqn:Et.
    + apply String.eqb_eq in Et. exfalso. apply Hn. now left.
    + apply IH. intros H. apply Hn. now right.
Qed.

Lemma tagged_not_nil (E : list Endpoint) (t : string) :
  In t (map first_tag E) -> tagged t E <> [].
Proof.
  intros Hin. apply in_map_iff in Hin. destruct Hin as [e [He Hin]].
  intros Hnil. assert (H : In e (tagged t E)).
  { unfold tagged. apply filter_In. split; [assumption|].
    now apply String.eqb_eq. }
  rewrite Hnil in H. contradiction.
Qed.

(** What the tag map holds after the loop over the endpoints. *)
Record tagMap_ok (E : list Endpoint) (M : Dict (list Endpoint)) : Prop := {
  ok_NoDup : NoDup (keys M);
  ok_keys : forall k, In k (keys M) <-> In k (map first_tag E);
  ok_values : forall k es, In (k, es) M -> es = tagged k E;
  ok_order : forall a b,
      before a b (keys M) ->
      exists E1 e E2,
        E = (E1 ++ e :: E2)%list /\ first_tag e = a
        /\ forall e', In e' E1 -> first_tag e' <> a /\ first_tag e' <> b
}.

Lemma tagMap_of_ok (E : list Endpoint) : tagMap_ok E (tagMap_of E).
Proof.
  induction E as [|e E IH] using rev_ind.
  - constructor; simpl.
    + constructor.
    + tauto.
    + intros k es [].
    + intros a b H. now apply before_nil in H.
  - destruct IH as [Hnd Hkeys Hvals Hord].
    rewrite tagMap_of_snoc.
    set (M := tagMap_of E) in *. set (t := first_tag e).
    assert (Hk : keys (tagMap_push M t e)
                 = if includes (keys M) t then keys M
                   else (keys M ++ [t])%list) by apply keys_push.
    destruct (includes (keys M) t) eqn:Hinc.
    + apply includes_In in Hinc. constructor.
      * now rewrite Hk.
      * intros k. rewrite Hk, map_app, in_app_iff, Hkeys. simpl.
        split; [tauto|]. intros [H | [H | []]]; [assumption|].
        subst k. now apply Hkeys.
      * intros k es Hin. apply In_push in Hin; [|assumption].
        unfold tagged. rewrite filter_app. simpl.
        destruct Hin as [[Hne Hin] | [Heq [es0 [Hes H0]]]].
        -- fold t. destruct (String.eqb t k) eqn:Etk.
           { apply String.eqb_eq in Etk. congruence. }
           rewrite app_nil_r. now apply Hvals.
        -- subst k. fold t. rewrite String.eqb_refl.
           destruct H0 as [H0 | [H0 _]]; [|contradiction].
           subst es. f_equal. now apply Hvals.
      * intros a b Hb. rewrite Hk in Hb.
        destruct (Hord a b Hb) as [E1 [e1 [E2 [HE [Ha Hno]]]]].
        exists E1, e1, (E2 ++ [e])%list. subst E.
        rewrite <- app_assoc. simpl. auto.
    + assert (Hnot : ~ In t (keys M)).
      { intros H. apply includes_In in H. congruence. }
      constructor.
      * rewrite Hk. now apply NoDup_snoc.
      * intros k. rewrite Hk, map_app, !in_app_iff, Hkeys. simpl.
        fold t. split; intros [H | [H | []]]; auto.
      * intros k es Hin. apply In_push in Hin; [|assumption].
        unfold tagged. rewrite filter_app. simpl.
        destruct Hin as [[Hne Hin] | [Heq [es0 [Hes H0]]]].
        -- fold t. destruct (String.eqb t k) eqn:Etk.
           { apply String.eqb_eq in Etk. congruence. }
           rewrite app_nil_r. now apply Hvals.
        -- subst k. fold t. rewrite String.eqb_refl.
           destruct H0 as [H0 | [_ H0]].
           ++ subst es. f_equal. now apply Hvals.
           ++ subst es es0. simpl. fold (tagged t E).
              rewrite tagged_nil; [reflexivity|]. now rewrite <- Hkeys.
      * intros a b Hb. rewrite Hk in Hb. apply before_app_last in Hb.
        destruct Hb as [Hb | [Hin Hbt]].
        -- destruct (Hord a b Hb) as [E1 [e1 [E2 [HE [Ha Hno]]]]].
           exists E1, e1, (E2 ++ [e])%list. subst E.
           rewrite <- app_assoc. simpl. auto.
        -- apply Hkeys in Hin. apply In_split_first in Hin.
           destruct Hin as [E1 [e1 [E2 [HE [Ha Hno]]]]].
           exists E1, e1, (E2 ++ [e])%list. split.
           { subst E. rewrite <- app_assoc. reflexivity. }
           split; [assumption|]. intros e' He'. split; [auto|].
           intros Hc. apply Hnot. apply Hkeys. subst b. rewrite <- Hc.
           apply in_map. subst E. apply in_or_app. now left.
Qed.

(** ** The tag groups *)

(** The groups before sorting: one per entry of the tag map. *)
Definition groups_of (spec : OpenAPISpec) : list TagGroup :=
  map (fun entry => let '(name, endpoints) := entry in
                    mkTagGroup name (lookup (tagDescriptions spec) name)
                      endpoints)
    (tagMap_of (extractEndpoints spec)).

Lemma groups_of_names (spec : OpenAPISpec) :
  map group_name (groups_of spec) = keys (tagMap_of (extractEndpoints spec)).
Proof.
  unfold groups_of, keys. rewrite map_map. apply map_ext.
  now intros [name endpoints].
Qed.

Lemma groups_of_endpoints (spec : OpenAPISpec) (g : TagGroup) :
  In g (groups_of spec) ->
  group_endpoints g = tagged (group_name g) (extractEndpoints spec)
  /\ group_endpoints g <> [].
Proof.
  unfold groups_of. rewrite in_map_iff. intros [[name es] [Hg Hin]].
  subst g. simpl.
  destruct (tagMap_of_ok (extractEndpoints spec)) as [_ Hkeys Hvals _].
  rewrite (Hvals _ _ Hin). split; [reflexivity|].
  apply tagged_not_nil. apply Hkeys. now apply In_keys in Hin.
Qed.

Lemma filter_all (A : Type) (P : A -> bool) (l : list A) :
  (forall x, In x l -> P x = true) -> filter P l = l.
Proof.
  induction l as [|x l IH]; simpl; intros H.
  - reflexivity.
  - rewrite (H x (or_introl eq_refl)). f_equal. apply IH. auto.
Qed.

Lemma groupEndpointsByTag_sorted (spec : OpenAPISpec) :
  groupEndpointsByTag spec
  = sort (compare_groups (tagOrder spec)) (groups_of spec).
Proof.
  unfold groupEndpointsByTag. fold (tagMap_of (extractEndpoints spec)).
  fold (groups_of spec). apply filter_all. intros g Hg.
  apply (Permutation_in _ (sort_perm _ _)) in Hg.
  apply groups_of_endpoints in Hg. destruct Hg as [_ Hne].
  destruct (group_endpoints g); [now contradiction Hne | reflexivity].
Qed.

(** C7, as the source has it.  [groupEndpointsByTag] files every endpoint
    of the index under its first declared tag when that tag is not empty,
    and under ["Other"] when it has no tag list, an empty one, or an empty
    first tag (the source's [||] treats these alike): the group names are
    pairwise distinct, every endpoint's tag names a group, and a group
    holds exactly the endpoints of its tag, in index order, and is never
    empty.  Of two groups the earlier one is
    declared in [spec.tags] whenever the later one is, and then at a smaller
    index; and when the earlier one is not declared, neither is the later
    one, and the earlier one's tag is seen in the index before the later
    one's. *)
Theorem groupEndpointsByTag_partition (spec : OpenAPISpec) :
  let E := extractEndpoints spec in
  let G := groupEndpointsByTag spec in
  let names := map group_name G in
  let order := tagOrder spec in
  (forall e, op_tags (ep_operation e) = None
             \/ op_tags (ep_operation e) = Some []
             \/ (exists rest,
                    op_tags (ep_operation e) = Some (EmptyString :: rest)) ->
             first_tag e = "Other")
  /\ (forall e t rest, op_tags (ep_operation e) = Some (t :: rest) ->
                       t <> EmptyString -> first_tag e = t)
  /\ NoDup names
  /\ (forall e, In e E -> In (first_tag e) names)
  /\ (forall g, In g G ->
                group_endpoints g
                = filter (fun e => String.eqb (first_tag e) (group_name g)) E
                /\ group_endpoints g <> [])
  /\ (forall a b, before a b names ->
                  indexOf order b <> (-1)%Z ->
                  indexOf order a <> (-1)%Z
                  /\ (indexOf order a < indexOf order b)%Z)
  /\ (forall a b, before a b names ->
                  indexOf order a = (-1)%Z ->
                  indexOf order b = (-1)%Z
                  /\ exists E1 e E2,
                      E = (E1 ++ e :: E2)%list /\ first_tag e = a
                      /\ forall e', In e' E1 ->
                                    first_tag e' <> a /\ first_tag e' <> b).
Proof.
  intros E G names order.
  assert (HG : G = sort (compare_groups order) (groups_of spec))
    by apply groupEndpointsByTag_sorted.
  pose proof (sort_perm (compare_groups order) (groups_of spec)) as Hperm.
  rewrite <- HG in Hperm.
  pose proof (sort_sorted _ _ (compare_groups_rank order) (groups_of spec))
    as Hsorted.
  rewrite <- HG in Hsorted.
  destruct (tagMap_of_ok E) as [Hnd Hkeys _ Hord].
  assert (Hnames : Permutation names (keys (tagMap_of E))).
  { unfold names, E. rewrite <- groups_of_names. now apply Permutation_map. }
  assert (Hdistinct : NoDup names).
  { apply (Permutation_NoDup (Permutation_sym Hnames) Hnd). }
  split.
  { intros e [H | [H | [rest H]]]; unfold first_tag; now rewrite H. }
  split.
  { intros e t rest H Ht. unfold first_tag. rewrite H.
    destruct t; [now contradiction Ht | reflexivity]. }
  split; [assumption|].
  split.
  { intros e He. apply (Permutation_in _ (Permutation_sym Hnames)).
    apply Hkeys. now apply in_map. }
  split.
  { intros g Hg. apply (Permutation_in _ Hperm) in Hg.
    now apply groups_of_endpoints in Hg. }
  assert (Hrank : forall a b, before a b names ->
            exists ga gb, group_name ga = a /\ group_name gb = b
                          /\ before ga gb G
                          /\ (rank order ga <= rank order gb)%Z).
  { intros a b Hb. apply before_map_inv in Hb.
    destruct Hb as [ga [gb [Ha [Hb Hbef]]]]. exists ga, gb.
    repeat split; try assumption.
    apply (sorted_before Hsorted Hbef). }
  split.
  - intros a b Hbef Hdecl.
    destruct (Hrank a b Hbef) as [ga [gb [Ha [Hb [_ Hle]]]]].
    unfold rank in Hle. rewrite Ha, Hb in Hle.
    apply Z.eqb_neq in Hdecl. rewrite Hdecl in Hle. apply Z.eqb_neq in Hdecl.
    destruct (indexOf_range order b) as [Rb | Rb]; [contradiction|].
    destruct (indexOf order a =? -1)%Z eqn:Ea; [lia|].
    apply Z.eqb_neq in Ea. split; [assumption|].
    assert (Hne : indexOf order a <> indexOf order b).
    { intros Heq. apply indexOf_inj in Heq; [|assumption]. subst b.
      destruct Hbef as [l1 [l2 [l3 Hl]]]. rewrite Hl in Hdistinct.
      apply NoDup_remove_2 in Hdistinct. apply Hdistinct.
      apply in_or_app. right. apply in_or_app. right. now left. }
    lia.
  - intros a b Hbef Hundecl.
    destruct (Hrank a b Hbef) as [ga [gb [Ha [Hb [HbefG Hle]]]]].
    set (top := Z.of_nat (List.length order)) in *.
    assert (Hra : rank order ga = top).
    { unfold rank. rewrite Ha, Hundecl. reflexivity. }
    assert (Hub : indexOf order b = (-1)%Z).
    { destruct (indexOf_range order b) as [Rb | Rb]; [assumption|].
      unfold rank in Hle at 2. rewrite Hb in Hle. rewrite Hra in Hle.
      destruct (indexOf order b =? -1)%Z eqn:Eb.
      - now apply Z.eqb_eq in Eb.
      - unfold top in Hle. lia. }
    split; [assumption|].
    assert (Hrb : rank order gb = top).
    { unfold rank. rewrite Hb, Hub. reflexivity. }
    apply Hord. unfold E.
    rewrite <- groups_of_names. rewrite <- Ha, <- Hb. apply map_before.
    apply (before_filter (fun g => (rank order g =? top)%Z) (groups_of spec)).
    rewrite <- (sort_stable _ _ (compare_groups_rank order) top).
    rewrite <- HG. apply filter_before; [assumption| |]; now apply Z.eqb_eq.
Qed.

(** C7 as stated fails on an empty first tag: the endpoint is filed under
    ["Other"], not under its first declared tag. *)
Lemma groupEndpointsByTag_empty_tag :
  let operation := mkOperation (Some [EmptyString]) None None None in
  let spec :=
    mkSpec None None
      [("/x", mkPathItem (Some operation) None None None None)] None in
  op_tags operation = Some [EmptyString]
  /\ map group_name (groupEndpointsByTag spec) = ["Other"]
  /\ map group_endpoints (groupEndpointsByTag spec)
     = [[mkEndpoint "/x" get operation]].
Proof.
  repeat split.
Qed.

(** ** Searching and replacing in strings *)

Module StrFacts.
Import Str.

Lemma append_assoc (s1 s2 s3 : string) :
  (s1 ++ s2) ++ s3 = s1 ++ (s2 ++ s3).
Proof.
  induction s1 as [|c s1 IH]; simpl; [reflexivity | now rewrite IH].
Qed.

Lemma prefix_app (p a : string) : startsWith (p ++ a) p = true.
Proof.
  induction p as [|c p IH]; simpl.
  - reflexivity.
  - now rewrite Ascii.eqb_refl.
Qed.

Lemma drop_app (p a : string) : drop (String.length p) (p ++ a) = a.
Proof.
  induction p as [|c p IH]; simpl; [reflexivity | assumption].
Qed.

Lemma prefix_inv (p s : string) :
  startsWith s p = true -> s = p ++ drop (String.length p) s.
Proof.
  revert s. induction p as [|c p IH]; intros s; simpl.
  - reflexivity.
  - destruct s as [|d s]; [discriminate|].
    destruct (Ascii.eqb c d) eqn:Hc; [|discriminate].
    apply Ascii.eqb_eq in Hc. simpl.
    intros H. subst d. f_equal. now apply IH.
Qed.

Lemma split_first_eq (pat s : string) :
  split_first pat s
  = if startsWith s pat
    then Some (EmptyString, drop (String.length pat) s)
    else match s with
         | EmptyString => None
         | String c s' =>
             match split_first pat s' with
             | Some (before, after) => Some (String c before, after)
             | None => None
             end
         end.
Proof.
  destruct s; reflexivity.
Qed.

(** The split is at an occurrence of the pattern ... *)
Lemma split_first_sound (pat s b a : string) :
  split_first pat s = Some (b, a) -> s = b ++ pat ++ a.
Proof.
  revert b. induction s as [|c s IH]; intros b; rewrite split_first_eq.
  - destruct (startsWith EmptyString pat) eqn:Hp; [|discriminate].
    intros H. injection H as Hb Ha. subst b a. now apply prefix_inv.
  - destruct (startsWith (String c s) pat) eqn:Hp.
    + intros H. injection H as Hb Ha. subst b a. now apply prefix_inv.
    + destruct (split_first pat s) as [[b0 a0]|]; [|discriminate].
      intros H. injection H as Hb Ha. subst b a. simpl. f_equal.
      now apply IH.
Qed.


(** Every occurrence is found. *)
Lemma split_first_complete (pat s b' a' : string) :
  s = b' ++ pat ++ a' -> exists b a, split_first pat s = Some (b, a).
Proof.
  revert s. induction b' as [|d b' IH]; intros s Hs; rewrite split_first_eq.
  - simpl in Hs. subst s. rewrite prefix_app. eauto.
  - simpl in Hs. subst s. destruct (startsWith _ pat); [eauto|].
    destruct (IH _ eq_refl) as [b [a H]]. rewrite H. eauto.
Qed.

Lemma split_first_prefix (pat a : string) :
  split_first pat (pat ++ a) = Some (EmptyString, a).
Proof.
  rewrite split_first_eq, prefix_app, drop_app. reflexivity.
Qed.

(** Removing a prefix with [replace(prefix, '')]. *)
Lemma replace_prefix (pat a : string) :
  replace (pat ++ a) pat EmptyString = a.
Proof.
  unfold replace. now rewrite split_first_prefix.
Qed.

Lemma replace_absent (s pat repl : string) :
  split_first pat s = None -> replace s pat repl = s.
Proof.
  unfold replace. now intros ->.
Qed.

Lemma startsWith_iff (s pat : string) :
  startsWith s pat = true <-> exists a, s = pat ++ a.
Proof.
  split.
  - intros H. eexists. now apply prefix_inv.
  - intros [a ->]. apply prefix_app.
Qed.

(** No [$] in sight: the replacement text stands for itself. *)
Fixpoint plain (template : string) : bool :=
  match template with
  | EmptyString => true
  | String c rest => negb (Ascii.eqb c "$") && plain rest
  end.

Lemma GetSubstitution_plain (matched before after template : string) :
  plain template = true ->
  GetSubstitution matched before after template = template.
Proof.
  induction template as [|c rest IH]; simpl.
  - reflexivity.
  - destruct (Ascii.eqb c "$"); simpl; [discriminate|].
    intros H. now rewrite IH.
Qed.
(** *** Occurrences of a placeholder *)

#[local] Arguments Ascii.eqb : simpl never.

Lemma startsWith_app_l (a b p : string) :
  startsWith a p = true -> startsWith (a ++ b) p = true.
Proof.
  revert a. induction p as [|c p IH]; intros a; simpl.
  - reflexivity.
  - destruct a as [|d a]; [discriminate|]. simpl.
    destruct (Ascii.eqb c d); [apply IH | discriminate].
Qed.

Lemma occurrences_app (pat a b : string) :
  (occurrences pat a + occurrences pat b <= occurrences pat (a ++ b))%nat.
Proof.
  induction a as [|c a IH].
  - simpl. lia.
  - change (String c a ++ b) with (String c (a ++ b)).
    cbn [occurrences].
    destruct (startsWith (String c a) pat) eqn:Hs.
    + change (String c (a ++ b)) with (String c a ++ b).
      rewrite (startsWith_app_l _ b _ Hs). lia.
    + destruct (startsWith (String c (a ++ b)) pat); lia.
Qed.

(** A placeholder: a brace, a name without braces, a brace. *)
Definition token (name : string) : string := "{" ++ name ++ "}".

(** A placeholder that starts inside [b] and is found in [b ++ "{" ...]
    ends inside [b]: it has no second opening brace. *)
Lemma startsWith_name_fits (n b rest : string) :
  brace_free n = true ->
  startsWith (b ++ String "{" rest) (n ++ "}") = true ->
  startsWith b (n ++ "}") = true.
Proof.
  revert b. induction n as [|d n IH]; intros b Hn; simpl.
  - destruct b as [|c b]; simpl.
    + discriminate.
    + destruct (Ascii.eqb "}" c); [reflexivity | discriminate].
  - simpl in Hn. apply andb_prop in Hn. destruct Hn as [Hd Hn].
    apply andb_prop in Hd. destruct Hd as [Hd _].
    destruct b as [|c b]; simpl.
    + apply negb_true_iff in Hd. rewrite Hd. discriminate.
    + destruct (Ascii.eqb d c); simpl; [now apply IH | discriminate].
Qed.

Lemma startsWith_token_fits (n b rest : string) (c : ascii) :
  brace_free n = true ->
  startsWith (String c b ++ String "{" rest) (token n) = true ->
  startsWith (String c b) (token n) = true.
Proof.
  intros Hn. unfold token. simpl.
  destruct (Ascii.eqb "{" c); [now apply startsWith_name_fits | discriminate].
Qed.

(** Two placeholders that start at the same place have the same name. *)
Lemma startsWith_same_name (n m a : string) :
  brace_free n = true -> brace_free m = true ->
  startsWith (m ++ String "}" a) (n ++ "}") = true -> n = m.
Proof.
  revert m. induction n as [|d n IH]; intros m Hn Hm; simpl.
  - destruct m as [|c m]; [reflexivity|]. simpl in *.
    apply andb_prop in Hm. destruct Hm as [Hc _].
    apply andb_prop in Hc. destruct Hc as [_ Hc].
    apply negb_true_iff in Hc. rewrite Ascii.eqb_sym, Hc. discriminate.
  - simpl in Hn. apply andb_prop in Hn. destruct Hn as [Hd Hn].
    apply andb_prop in Hd. destruct Hd as [_ Hd].
    destruct m as [|c m]; simpl.
    + apply negb_true_iff in Hd. rewrite Hd. discriminate.
    + simpl in Hm. apply andb_prop in Hm. destruct Hm as [_ Hm].
      destruct (Ascii.eqb d c) eqn:Hdc; [|discriminate].
      apply Ascii.eqb_eq in Hdc. subst c. intros H. f_equal.
      now apply IH.
Qed.

(** No placeholder starts inside the name of another one. *)
Lemma occurrences_name (n m a : string) :
  brace_free m = true ->
  occurrences (token n) (m ++ String "}" a) = occurrences (token n) a.
Proof.
  intros Hm. induction m as [|c m IH].
  - simpl. reflexivity.
  - simpl in Hm. apply andb_prop in Hm. destruct Hm as [Hc Hm].
    apply andb_prop in Hc. destruct Hc as [Hc _].
    apply negb_true_iff in Hc.
    change (String c m ++ String "}" a) with (String c (m ++ String "}" a)).
    cbn [occurrences]. rewrite (IH Hm). unfold token. simpl.
    rewrite Ascii.eqb_sym, Hc. reflexivity.
Qed.

(** The occurrences of one placeholder around an occurrence of another. *)
Lemma token_app (m a : string) :
  token m ++ a = String "{" (m ++ String "}" a).
Proof.
  unfold token. simpl. now rewrite append_assoc.
Qed.

Lemma occurrences_token (n m b a : string) :
  brace_free n = true -> brace_free m = true ->
  (occurrences (token n) (b ++ token m ++ a)
   <= occurrences (token n) b + (if String.eqb n m then 1 else 0)
      + occurrences (token n) a)%nat.
Proof.
  intros Hn Hm. rewrite token_app. induction b as [|c b IH].
  - change (EmptyString ++ String "{" (m ++ String "}" a))
      with (String "{" (m ++ String "}" a)).
    cbn [occurrences]. rewrite (@occurrences_name n m a Hm).
    destruct (startsWith (String "{" (m ++ String "}" a)) (token n)) eqn:Hs.
    + unfold token in Hs. simpl in Hs.
      apply startsWith_same_name in Hs; try assumption. subst m.
      rewrite String.eqb_refl. simpl. lia.
    + simpl. lia.
  - change (String c b ++ String "{" (m ++ String "}" a))
      with (String c (b ++ String "{" (m ++ String "}" a))).
    cbn [occurrences].
    destruct (startsWith (String c (b ++ String "{" (m ++ String "}" a)))
                (token n)) eqn:Hs.
    + change (String c (b ++ String "{" (m ++ String "}" a)))
        with (String c b ++ String "{" (m ++ String "}" a)) in Hs.
      apply startsWith_token_fits in Hs; [|assumption].
      rewrite Hs. lia.
    + destruct (startsWith (String c b) (token n)); lia.
Qed.

(** Replacing an occurrence of one placeholder removes at most that
    occurrence of it, and none of another placeholder. *)
Lemma occurrences_replace (n m s repl : string) :
  brace_free n = true -> brace_free m = true ->
  (occurrences (token n) s
   <= occurrences (token n) (replace s (token m) repl)
      + (if String.eqb n m then 1 else 0))%nat.
Proof.
  intros Hn Hm. unfold replace.
  destruct (split_first (token m) s) as [[b a]|] eqn:Hs; [|lia].
  apply split_first_sound in Hs. subst s.
  pose proof (@occurrences_token n m b a Hn Hm) as H1.
  pose proof (occurrences_app (token n) b
                (GetSubstitution (token m) b a repl ++ a)) as H2.
  pose proof (occurrences_app (token n)
                (GetSubstitution (token m) b a repl) a) as H3.
  lia.
Qed.


End StrFacts.

(** ** Reference resolution *)

(** A schema that is just a reference, and one that is just a type. *)
Definition schema_of_ref (ref : string) : Schema :=
  mkSchema None None None None None None (Some ref).

Definition schema_of_type (type : string) : Schema :=
  mkSchema (Some type) None None None None None None.

(** A document whose only content is its reusable schemas. *)
Definition spec_of_schemas (schemas : Dict Schema) : OpenAPISpec :=
  mkSpec None None [] (Some (mkComponents (Some schemas) None)).

(** [ref_chain spec n s t]: following [$ref] from [s] reaches [t] in [n]
    hops, each reference being [#/components/schemas/<name>] for a name
    present in [spec.components.schemas]. *)
Inductive ref_chain (spec : OpenAPISpec) : nat -> Schema -> Schema -> Prop :=
| chain_end (s : Schema) : ref_chain spec 0 s s
| chain_hop (n : nat) (s s' t : Schema) (name : string) :
    schema_ref s = Some (schemas_prefix ++ name) ->
    components_schema spec name = Some s' ->
    ref_chain spec n s' t ->
    ref_chain spec (S n) s t.

Lemma resolve_step_named (spec : OpenAPISpec) (s : Schema) (name : string) :
  schema_ref s = Some (schemas_prefix ++ name) ->
  resolve_step (Some spec) s = components_schema spec name.
Proof.
  unfold resolve_step. intros ->.
  rewrite StrFacts.replace_prefix. reflexivity.
Qed.

Lemma resolve_step_no_ref (spec : option OpenAPISpec) (s : Schema) :
  schema_ref s = None -> resolve_step spec s = None.
Proof.
  unfold resolve_step. now intros ->.
Qed.

(** The recursive call of [generateExampleResponse] on a resolved
    reference is a step of [resolveSchema]. *)
Lemma generateExampleResponse_resolved (fuel : nat) (spec : option OpenAPISpec)
  (schema resolved : Schema) :
  resolve_step spec schema = Some resolved ->
  generateExampleResponse (S fuel) (Some schema) spec
  = generateExampleResponse fuel (Some resolved) spec
  /\ resolveSchema (S fuel) spec schema = resolveSchema fuel spec resolved.
Proof.
  intros H. simpl. now rewrite H.
Qed.

(** [generateExampleResponse] follows a chain of references and goes on
    with the schema at its end. *)
Lemma generateExampleResponse_chain (spec : OpenAPISpec) (n k : nat)
  (s t : Schema) :
  ref_chain spec n s t ->
  generateExampleResponse (n + k) (Some s) (Some spec)
  = generateExampleResponse k (Some t) (Some spec).
Proof.
  intros Hc. induction Hc as [s | n s s' t name Href Hlook Hc IH].
  - reflexivity.
  - simpl. now rewrite (@resolve_step_named spec s name Href), Hlook.
Qed.

(** On a document whose schema refers to itself the resolution does not
    return, whatever the fuel. *)
Lemma resolveSchema_cycle (fuel : nat) :
  let ref := schemas_prefix ++ "Loop" in
  resolveSchema fuel (Some (spec_of_schemas [("Loop", schema_of_ref ref)]))
    (schema_of_ref ref) = None.
Proof.
  induction fuel as [|fuel IH]; [reflexivity | exact IH].
Qed.

(** C1, as the source has it.  When the chain of references that starts at
    a schema names a present schema at every hop and ends, after [n] hops,
    in a schema without [$ref], the resolution returns that schema (with
    more than [n] units of fuel); and a schema without [$ref] is returned
    unchanged. *)
Theorem resolveSchema_chain (spec : OpenAPISpec) :
  (forall n s t fuel,
      ref_chain spec n s t -> schema_ref t = None -> n < fuel ->
      resolveSchema fuel (Some spec) s = Some t)
  /\ (forall fuel spec' s,
         schema_ref s = None -> resolveSchema (S fuel) spec' s = Some s).
Proof.
  split.
  - intros n s t fuel Hc. revert fuel.
    induction Hc as [s | n s s' t name Href Hlook Hc IH]; intros fuel Ht Hn.
    + destruct fuel as [|fuel]; [lia|]. simpl.
      now rewrite resolve_step_no_ref.
    + destruct fuel as [|fuel]; [lia|]. simpl.
      rewrite (@resolve_step_named spec s name Href), Hlook.
      apply IH; [assumption | lia].
  - intros fuel spec' s Hs. simpl. now rewrite resolve_step_no_ref.
Qed.

(** A chain of two hops, resolved with three units of fuel. *)
Lemma resolveSchema_chain_witness :
  let leaf := schema_of_type "string" in
  let spec :=
    spec_of_schemas
      [("A", schema_of_ref (schemas_prefix ++ "B")); ("B", leaf)] in
  resolveSchema 3 (Some spec) (schema_of_ref (schemas_prefix ++ "A"))
  = Some leaf.
Proof.
  intros leaf spec.
  refine (proj1 (resolveSchema_chain spec) 2
            (schema_of_ref (schemas_prefix ++ "A")) leaf 3 _ eq_refl _).
  - apply (@chain_hop spec 1 (schema_of_ref (schemas_prefix ++ "A"))
             (schema_of_ref (schemas_prefix ++ "B")) leaf "A"
             eq_refl eq_refl).
    apply (@chain_hop spec 0 (schema_of_ref (schemas_prefix ++ "B"))
             leaf leaf "B" eq_refl eq_refl).
    apply chain_end.
  - lia.
Defined.

(** C1 as stated fails: the reference names a present schema, and that
    schema carries a reference to an absent one; the resolution stops there
    and returns a schema that still has its [$ref]. *)
Lemma resolveSchema_dangling :
  let missing := schemas_prefix ++ "Missing" in
  let spec := spec_of_schemas [("A", schema_of_ref missing)] in
  let schema := schema_of_ref (schemas_prefix ++ "A") in
  components_schema spec "A" = Some (schema_of_ref missing)
  /\ resolveSchema 3 (Some spec) schema = Some (schema_of_ref missing)
  /\ schema_ref (schema_of_ref missing) = Some missing.
Proof.
  repeat split.
Qed.

Lemma inherited_false (name : string) :
  inherited name = false <-> ~ In name Object_prototype.
Proof.
  unfold inherited. rewrite <- includes_In.
  destruct (includes Object_prototype name); split; congruence.
Qed.

(** [spec.components?.schemas?.[name]] is [undefined] exactly when the
    document has no reusable schemas, or they have no entry of that name
    and the name is none of those every object answers to. *)
Lemma components_schema_absent (spec : OpenAPISpec) (name : string) :
  components_schema spec name = None
  <-> match spec_components spec with
      | None => True
      | Some c =>
          match comp_schemas c with
          | None => True
          | Some schemas =>
              lookup schemas name = None /\ ~ In name Object_prototype
          end
      end.
Proof.
  unfold components_schema.
  destruct (spec_components spec) as [c|]; [|tauto].
  destruct (comp_schemas c) as [schemas|]; [|tauto].
  rewrite <- inherited_false.
  destruct (lookup schemas name) as [schema|].
  - split; [discriminate | intros [H _]; discriminate].
  - destruct (inherited name); split; try tauto; try discriminate.
    intros [_ H]. discriminate.
Qed.

(** On a name such as [constructor] the lookup gives the inherited member,
    whatever the document's schemas: [resolveRef] returns it, and the
    resolution goes on with it. *)
Lemma resolveRef_inherited_member :
  let spec := spec_of_schemas [] in
  let ref := schemas_prefix ++ "constructor" in
  resolveRef spec ref = Some member_schema
  /\ resolveSchema 2 (Some spec) (schema_of_ref ref) = Some member_schema
  /\ generateExampleResponse 2
       (Some (mkSchema (Some "array") None None None None None (Some ref)))
       (Some spec) = Some "{}".
Proof.
  repeat split.
Qed.

(** C2, as the source has it.  [resolveRef] returns [undefined] for a
    reference that does not start with [#/components/schemas/], and for one
    that does and under whose name [spec.components.schemas] has nothing.
    The resolution inside [generateExampleResponse] does not test the
    prefix: the name it looks up is the reference with the first
    occurrence of the prefix text removed (the rest of the reference when
    it starts with the prefix, the reference itself when the text does not
    occur in it), and whenever the schemas have nothing under that name --
    whatever the form of the reference -- it returns the schema as it is,
    as it does without a document.  The schemas have nothing under a name
    when there are no schemas, or they have no entry of that name and the
    name is none of [Object_prototype]. *)
Theorem resolveRef_unresolvable (spec : OpenAPISpec) (ref : string) :
  let looked_up := Str.replace ref schemas_prefix EmptyString in
  let nothing_under (name : string) :=
    match spec_components spec with
    | None => True
    | Some c =>
        match comp_schemas c with
        | None => True
        | Some schemas =>
            lookup schemas name = None /\ ~ In name Object_prototype
        end
    end in
  (Str.startsWith ref schemas_prefix = false -> resolveRef spec ref = None)
  /\ (forall name,
         ref = schemas_prefix ++ name ->
         looked_up = name
         /\ (nothing_under name -> resolveRef spec ref = None))
  /\ (Str.includes ref schemas_prefix = false -> looked_up = ref)
  /\ (forall fuel schema,
         schema_ref schema = Some ref ->
         nothing_under looked_up ->
         resolveSchema (S fuel) (Some spec) schema = Some schema)
  /\ (forall fuel schema,
         resolveSchema (S fuel) None schema = Some schema).
Proof.
  intros looked_up nothing_under.
  assert (Hnone : forall name, nothing_under name ->
                               components_schema spec name = None).
  { intros name. apply components_schema_absent. }
  split; [|split; [|split; [|split]]].
  - intros H. unfold resolveRef. now rewrite H.
  - intros name ->. unfold looked_up. rewrite StrFacts.replace_prefix.
    split; [reflexivity|]. intros Hab. apply Hnone in Hab.
    unfold resolveRef. rewrite StrFacts.prefix_app. simpl negb. cbv iota.
    now rewrite StrFacts.replace_prefix.
  - unfold looked_up, Str.includes. intros H.
    apply StrFacts.replace_absent.
    now destruct (Str.split_first schemas_prefix ref).
  - intros fuel schema Hs Hab. apply Hnone in Hab.
    simpl. unfold resolve_step. rewrite Hs.
    fold looked_up. rewrite Hab. now destruct (Str.truthy ref).
  - intros fuel schema. simpl. unfold resolve_step.
    now destruct (schema_ref schema).
Qed.

(** A reference in another form, and one to a name that is absent: both
    are nothing for [resolveRef], and both leave the schema as it is. *)
Lemma resolveRef_unresolvable_witness :
  let spec := spec_of_schemas [("Pet", schema_of_type "object")] in
  let other := "#/definitions/Pet" in
  let ref := schemas_prefix ++ "Cat" in
  (resolveRef spec other = None
   /\ resolveSchema 1 (Some spec) (schema_of_ref other)
      = Some (schema_of_ref other))
  /\ (resolveRef spec ref = None
      /\ resolveSchema 1 (Some spec) (schema_of_ref ref)
         = Some (schema_of_ref ref)).
Proof.
  intros spec other ref. split.
  - destruct (resolveRef_unresolvable spec other) as [H1 [_ [_ [H4 _]]]].
    split; [exact (H1 eq_refl)|].
    apply (H4 0%nat (schema_of_ref other) eq_refl).
    simpl. split; [reflexivity | intuition discriminate].
  - destruct (resolveRef_unresolvable spec ref) as [_ [H2 [_ [H4 _]]]].
    split.
    + apply (proj2 (H2 "Cat" eq_refl)).
      simpl. split; [reflexivity | intuition discriminate].
    + apply (H4 0%nat (schema_of_ref ref) eq_refl).
      simpl. split; [reflexivity | intuition discriminate].
Defined.

(** C2 as stated fails: for a reference without the prefix [resolveRef]
    returns [undefined], not a schema; and the resolution inside
    [generateExampleResponse], which does not test the prefix, goes on to
    the schema of that name.  It fails as well on a name that is no entry
    of the schemas but a member of [Object.prototype]: the resolution goes
    on with that member and does not return the schema it was given. *)
Lemma resolveRef_absent_value :
  let spec := spec_of_schemas [("Pet", schema_of_type "object")] in
  let inherited_ref := schemas_prefix ++ "constructor" in
  (Str.startsWith "Pet" schemas_prefix = false
   /\ resolveRef spec "Pet" = None
   /\ resolveSchema 2 (Some spec) (schema_of_ref "Pet")
      = Some (schema_of_type "object"))
  /\ (lookup [("Pet", schema_of_type "object")] "constructor" = None
      /\ resolveRef spec inherited_ref = Some member_schema
      /\ resolveSchema 2 (Some spec) (schema_of_ref inherited_ref)
         = Some member_schema
      /\ member_schema <> schema_of_ref inherited_ref).
Proof.
  repeat split. discriminate.
Qed.

(** ** Example synthesis *)

Lemma field_is_true (field : option string) (literal : string) :
  field_is field literal = true <-> field = Some literal.
Proof.
  unfold field_is. destruct field as [s|].
  - rewrite String.eqb_eq. split; [now intros -> | now intros [= ->]].
  - split; discriminate.
Qed.

Lemma field_is_false (field : option string) (literal : string) :
  field_is field literal = false <-> field <> Some literal.
Proof.
  rewrite <- field_is_true. destruct (field_is field literal); split;
    congruence.
Qed.

(** The rule of the specification for the value of a property: its own
    example if it has one; else ["string"] for a string, or a fixed instant
    when its format is date-time; [0] for a number or an integer; [true] for
    a boolean; an empty sequence for an array; [null] for anything else. *)
Definition synthesized (prop : Schema) (v : JSON) : Prop :=
  match schema_example prop with
  | Some example => v = example
  | None =>
      (schema_type prop = Some "string" ->
       (schema_format prop = Some "date-time" ->
        v = JString "2024-01-01T00:00:00Z")
       /\ (schema_format prop <> Some "date-time" -> v = JString "string"))
      /\ (schema_type prop = Some "number"
          \/ schema_type prop = Some "integer" -> v = JNumber 0)
      /\ (schema_type prop = Some "boolean" -> v = JBool true)
      /\ (schema_type prop = Some "array" -> v = JArray [])
      /\ (schema_type prop <> Some "string" ->
          schema_type prop <> Some "number" ->
          schema_type prop <> Some "integer" ->
          schema_type prop <> Some "boolean" ->
          schema_type prop <> Some "array" -> v = JNull)
  end.

Lemma property_value_synthesized (prop : Schema) :
  synthesized prop (property_value prop).
Proof.
  unfold synthesized, property_value.
  destruct (schema_example prop) as [example|]; [reflexivity|].
  destruct (field_is (schema_type prop) "string") eqn:Es.
  { apply field_is_true in Es. rewrite Es.
    destruct (field_is (schema_format prop) "date-time") eqn:Ef.
    - apply field_is_true in Ef.
      repeat split; try congruence; intros [H|H]; discriminate.
    - apply field_is_false in Ef.
      repeat split; try congruence; intros [H|H]; discriminate. }
  apply field_is_false in Es.
  destruct (field_is (schema_type prop) "number") eqn:En.
  { apply field_is_true in En. rewrite En. simpl.
    repeat split; congruence. }
  destruct (field_is (schema_type prop) "integer") eqn:Ei.
  { apply field_is_true in Ei. rewrite Ei. simpl.
    repeat split; congruence. }
  apply field_is_false in En, Ei. simpl.
  destruct (field_is (schema_type prop) "boolean") eqn:Eb.
  { apply field_is_true in Eb. rewrite Eb.
    repeat split; try congruence; intros [H|H]; discriminate. }
  apply field_is_false in Eb.
  destruct (field_is (schema_type prop) "array") eqn:Ea.
  { apply field_is_true in Ea. rewrite Ea.
    repeat split; try congruence; intros [H|H]; discriminate. }
  apply field_is_false in Ea.
  repeat split; try congruence. intros [H|H]; congruence.
Qed.

Lemma assign_new (V : Type) (d : Dict V) (k : string) (v : V) :
  ~ In k (keys d) -> assign d k v = (d ++ [(k, v)])%list.
Proof.
  induction d as [|[k' v'] d IH]; simpl; intros Hn.
  - reflexivity.
  - destruct (String.eqb k' k) eqn:Ek.
    + apply String.eqb_eq in Ek. exfalso. apply Hn. now left.
    + f_equal. apply IH. intros H. apply Hn. now right.
Qed.

Lemma set_property_proto (V : Type) (d : Dict V) (v : V) :
  set_property d "__proto__" v = d.
Proof.
  reflexivity.
Qed.

Lemma set_property_other (V : Type) (d : Dict V) (k : string) (v : V) :
  k <> "__proto__" -> set_property d k v = assign d k v.
Proof.
  intros Hk. unfold set_property.
  destruct (String.eqb k "__proto__") eqn:E; [|reflexivity].
  apply String.eqb_eq in E. contradiction.
Qed.

(** The properties the loop stores an entry for: all but one named
    [__proto__]. *)
Definition stored (entry : string * Schema) : bool :=
  negb (String.eqb (fst entry) "__proto__").

(** With pairwise distinct property names every assignment of the loop
    that stores an entry adds it at the end of the object. *)
Lemma properties_object_from (properties : Dict Schema) (obj : Dict JSON) :
  NoDup (keys obj ++ keys properties) ->
  fold_left
    (fun obj entry => let '(name, prop) := entry in
                      set_property obj name (property_value prop))
    properties obj
  = (obj ++ map (fun entry => (fst entry, property_value (snd entry)))
              (filter stored properties))%list.
Proof.
  revert obj. induction properties as [|[name prop] properties IH];
    intros obj Hnd; simpl.
  - now rewrite app_nil_r.
  - simpl in Hnd. unfold stored at 1. simpl fst.
    destruct (String.eqb name "__proto__") eqn:E; simpl negb; cbv iota.
    + apply String.eqb_eq in E. subst name. rewrite set_property_proto.
      apply IH. now apply NoDup_remove_1 in Hnd.
    + apply String.eqb_neq in E. rewrite (set_property_other _ _ E).
      rewrite assign_new.
      * rewrite IH.
        -- simpl. now rewrite <- app_assoc.
        -- unfold keys in *. rewrite map_app. simpl. rewrite <- app_assoc.
           exact Hnd.
      * apply NoDup_remove_2 in Hnd. intros H. apply Hnd.
        apply in_or_app. now left.
Qed.

Lemma properties_object_map (properties : Dict Schema) :
  NoDup (keys properties) ->
  properties_object properties
  = map (fun entry => (fst entry, property_value (snd entry)))
      (filter stored properties).
Proof.
  intros Hnd. unfold properties_object.
  now rewrite properties_object_from.
Qed.

(** X23.  The rule for object schemas, as the source has it.  For a
    schema on which neither the reference rule nor the example rule
    applies: when it is an object with properties (of pairwise distinct
    names, as the keys of an object are), the result is the rendering of
    an object that has one entry per declared property not named
    [__proto__], in declaration order, under the property's name, with the
    value the specification's rule gives; and when it is neither an array
    nor an object with properties, the result is the empty object. *)
Theorem generateExampleResponse_object (fuel : nat)
  (spec : option OpenAPISpec) (schema : Schema) :
  resolve_step spec schema = None ->
  has_truthy_example schema = false ->
  (forall properties,
      schema_type schema = Some "object" ->
      schema_properties schema = Some properties ->
      NoDup (keys properties) ->
      exists obj,
        generateExampleResponse (S fuel) (Some schema) spec
        = Some (JSON_stringify (JObject obj))
        /\ Forall2 (fun entry field =>
                      fst field = fst entry
                      /\ synthesized (snd entry) (snd field))
             (filter (fun entry => negb (String.eqb (fst entry) "__proto__"))
                properties)
             obj)
  /\ (schema_type schema <> Some "array" ->
      schema_type schema <> Some "object"
      \/ schema_properties schema = None ->
      generateExampleResponse (S fuel) (Some schema) spec = Some "{}").
Proof.
  intros Hstep Hex. split.
  - intros properties Ht Hp Hnd.
    exists (properties_object properties). split.
    + simpl. rewrite Hstep, Hex, Ht, Hp. reflexivity.
    + rewrite (@properties_object_map properties Hnd).
      fold stored. generalize (filter stored properties). clear.
      intros kept. induction kept as [|[name prop] kept IH]; simpl.
      * constructor.
      * constructor; [|assumption]. simpl. split; [reflexivity|].
        apply property_value_synthesized.
  - intros Harr Hobj. simpl. rewrite Hstep, Hex.
    apply field_is_false in Harr. rewrite Harr.
    destruct Hobj as [Hobj | Hobj].
    + apply field_is_false in Hobj. now rewrite Hobj.
    + rewrite Hobj. now destruct (field_is (schema_type schema) "object").
Qed.

(** The scenario of the specification, an object with one boolean
    property, and a schema with a property of every kind. *)
Definition ok_schema : Schema :=
  mkSchema (Some "object") None
    (Some [("ok", schema_of_type "boolean")]) None None None None.

Definition market_properties : Dict Schema :=
  [("id", schema_of_type "string");
   ("closes", mkSchema (Some "string") (Some "date-time")
                None None None None None);
   ("price", mkSchema (Some "number") None None None
               (Some (JDecimal "0.5")) None None);
   ("volume", schema_of_type "integer");
   ("open", schema_of_type "boolean");
   ("__proto__", schema_of_type "string");
   ("outcomes", mkSchema (Some "array") None None
                  (Some (schema_of_type "string")) None None None);
   ("meta", schema_of_type "object");
   ("note", mkSchema None None None None (Some JNull) None None)].

Definition market_schema : Schema :=
  mkSchema (Some "object") None (Some market_properties) None None None None.

(** The rule at work on that schema: eight entries for nine properties. *)
Lemma generateExampleResponse_object_witness :
  (resolve_step None market_schema = None
   /\ has_truthy_example market_schema = false)
  /\ (exists obj,
         generateExampleResponse 1 (Some market_schema) None
         = Some (JSON_stringify (JObject obj))
         /\ Forall2 (fun entry field =>
                       fst field = fst entry
                       /\ synthesized (snd entry) (snd field))
              (filter (fun entry => negb (String.eqb (fst entry) "__proto__"))
                 market_properties)
              obj)
  /\ generateExampleResponse 1 (Some market_schema) None
     = Some (JSON_stringify
               (JObject [("id", JString "string");
                         ("closes", JString "2024-01-01T00:00:00Z");
                         ("price", JDecimal "0.5");
                         ("volume", JNumber 0);
                         ("open", JBool true);
                         ("outcomes", JArray []);
                         ("meta", JNull);
                         ("note", JNull)])).
Proof.
  split; [split; reflexivity|]. split; [|reflexivity].
  apply (proj1 (generateExampleResponse_object 0 None market_schema
                  eq_refl eq_refl)).
  - reflexivity.
  - reflexivity.
  - unfold market_properties, keys. simpl.
    repeat (constructor;
            [simpl; intuition discriminate|]).
    constructor.
Defined.

(** C9 fails on a property named [__proto__].  The loop stores the value
    with [obj[name] = ...], and on the object [{}] that name is the
    accessor of the prototype, not an entry: the property is declared, and
    the result has no entry for it. *)
Theorem generateExampleResponse_proto_property :
  let properties :=
    [("id", schema_of_type "string"); ("__proto__", schema_of_type "string")] in
  let schema :=
    mkSchema (Some "object") None (Some properties) None None None None in
  keys properties = ["id"; "__proto__"]
  /\ generateExampleResponse 1 (Some schema) None
     = Some (JSON_stringify (JObject [("id", JString "string")]))
  /\ generateExampleResponse 1 (Some schema) None
     <> Some (JSON_stringify
                (JObject [("id", JString "string");
                          ("__proto__", JString "string")])).
Proof.
  repeat split. discriminate.
Qed.

(** A schema that carries nothing but an example. *)
Definition schema_of_example (example : JSON) : Schema :=
  mkSchema None None None None (Some example) None None.

(** C3 fails on falsy examples at the top level.  The test there is
    [if (schema.example)]: for the examples [0], [false], the empty string
    and [null] it does not hold, and the result is the fallback [{}], not
    the rendering of the example.  The loop over the properties tests
    [prop.example !== undefined] and does take such an example. *)
Theorem generateExampleResponse_falsy_example :
  let top (example : JSON) :=
    generateExampleResponse 1 (Some (schema_of_example example)) None in
  let nested (example : JSON) :=
    generateExampleResponse 1
      (Some (mkSchema (Some "object") None
               (Some [("count", schema_of_example example)])
               None None None None)) None in
  (top (JNumber 0) = Some "{}" /\ JSON_stringify (JNumber 0) = "0")
  /\ (top (JBool false) = Some "{}" /\ JSON_stringify (JBool false) = "false")
  /\ (top (JString EmptyString) = Some "{}"
      /\ JSON_stringify (JString EmptyString) <> "{}")
  /\ (top JNull = Some "{}" /\ JSON_stringify JNull = "null")
  /\ top (JNumber 7) = Some "7"
  /\ nested (JNumber 0)
     = Some (JSON_stringify (JObject [("count", JNumber 0)]))
  /\ nested JNull = Some (JSON_stringify (JObject [("count", JNull)])).
Proof.
  repeat split. discriminate.
Qed.

(** ** The request builder *)

(** An operation with the given parameters and nothing else, a document
    with nothing in it, an endpoint of the playground. *)
Definition operation_of (parameters : list Param) : Operation :=
  mkOperation None None None (Some parameters).

Definition empty_spec : OpenAPISpec := mkSpec None None [] None.

Definition path_param (name : string) : Param :=
  mkParam name in_path (Some true) None None None.

Definition query_param (name : string) : Param :=
  mkParam name in_query None None None None.

(** C5.  The request [executeRequest] hands to [fetch]: it has a body
    exactly when the method is post, put or patch and the body text is not
    empty, and the body is that text; when it has a body the header
    [Content-Type] is [application/json]; the header [X-API-Key] is there,
    with the credential as its value, exactly when the credential is not
    empty; and there is no header of another name, and none twice. *)
Theorem executeRequest_request (endpoint : Endpoint)
  (apiKey requestBody : string) :
  let options := executeRequest_options endpoint apiKey requestBody in
  (init_body options <> None
   <-> In (ep_method endpoint) [post; put; patch]
       /\ requestBody <> EmptyString)
  /\ (forall body, init_body options = Some body -> body = requestBody)
  /\ (init_body options <> None ->
      lookup (init_headers options) "Content-Type"
      = Some "application/json")
  /\ (apiKey <> EmptyString ->
      lookup (init_headers options) "X-API-Key" = Some apiKey)
  /\ (apiKey = EmptyString ->
      lookup (init_headers options) "X-API-Key" = None)
  /\ NoDup (keys (init_headers options))
  /\ (forall name, In name (keys (init_headers options)) ->
                   name = "Content-Type" \/ name = "X-API-Key")
  /\ init_method options
     = toUpperCase (method_name (ep_method endpoint)).
Proof.
  unfold executeRequest_options, executeRequest_headers, sends_body.
  simpl init_body; simpl init_headers; simpl init_method.
  split.
  { destruct requestBody as [|c body]; simpl.
    - split; [intros H; now contradiction H | intros [_ H]; now contradiction H].
    - destruct (ep_method endpoint); simpl; split; intros H;
        first [ congruence
              | split; [auto | discriminate]
              | destruct H as [[H | [H | [H | []]]] _]; discriminate ]. }
  split.
  { intros body. destruct (_ && _); [now intros [= <-] | discriminate]. }
  split.
  { intros _. now destruct apiKey. }
  split.
  { intros H. destruct apiKey; [now contradiction H | reflexivity]. }
  split.
  { now intros ->. }
  split.
  { destruct apiKey; simpl; repeat constructor; simpl; intuition discriminate. }
  split.
  { intros name. destruct apiKey; simpl; intuition congruence. }
  reflexivity.
Qed.

(** What the rendered command and the request have in common: the method,
    the URL, the credential header and the body.  The command names the
    content type only next to a body. *)
Lemma generateCurl_request (endpoint : Endpoint) (apiKey : string)
  (spec : option OpenAPISpec) (params : Dict string) (requestBody : string) :
  let options := executeRequest_options endpoint apiKey requestBody in
  generateCurl endpoint apiKey spec params requestBody
  = "curl -X " ++ init_method options ++ continuation
    ++ "'" ++ executeRequest_url endpoint spec params ++ "'"
    ++ match lookup (init_headers options) "X-API-Key" with
       | Some key => continuation ++ "-H 'X-API-Key: " ++ key ++ "'"
       | None => EmptyString
       end
    ++ match init_body options with
       | Some body =>
           continuation ++ "-H 'Content-Type: application/json'"
           ++ continuation ++ "-d '" ++ body ++ "'"
       | None => EmptyString
       end.
Proof.
  unfold generateCurl, executeRequest_options, executeRequest_headers,
    executeRequest_url.
  simpl init_method; simpl init_headers; simpl init_body.
  set (url := buildUrl endpoint spec params).
  set (verb := toUpperCase (method_name (ep_method endpoint))).
  set (k := continuation).
  destruct apiKey as [|c key]; destruct (sends_body endpoint requestBody);
    cbn [Str.truthy assign lookup String.eqb Ascii.eqb Bool.eqb];
    repeat rewrite StrFacts.append_assoc; cbn [append];
    repeat rewrite StrFacts.append_assoc; reflexivity.
Qed.

(** C4 fails on the content type.  For a request without a body (here a
    GET, no credential) [executeRequest] still sends
    [Content-Type: application/json], and the command [generateCurl]
    renders has no [-H] at all. *)
Theorem generateCurl_content_type :
  let endpoint := mkEndpoint "/ping" get (operation_of []) in
  init_headers (executeRequest_options endpoint EmptyString EmptyString)
  = [("Content-Type", "application/json")]
  /\ init_body (executeRequest_options endpoint EmptyString EmptyString)
     = None
  /\ generateCurl endpoint EmptyString (Some empty_spec) [] EmptyString
     = "curl -X GET" ++ continuation ++ "'/ping'"
  /\ Str.includes
       (generateCurl endpoint EmptyString (Some empty_spec) [] EmptyString)
       "Content-Type" = false
  /\ executeRequest_url endpoint (Some empty_spec) [] = "/ping".
Proof.
  repeat split.
Qed.

(** The query parts: one per query parameter that has a value, in the
    order of the parameters. *)
Lemma queryParts_values (endpoint : Endpoint) (spec : option OpenAPISpec)
  (params : Dict string) :
  queryParts endpoint spec params
  = flat_map
      (fun param =>
         match param_value params (param_name param) with
         | Some value =>
             [param_name param ++ "=" ++ Str.encodeURIComponent value]
         | None => []
         end)
      (queryParams endpoint spec).
Proof.
  unfold queryParts.
  rewrite <- (app_nil_l (flat_map _ (queryParams endpoint spec))).
  rewrite <- fold_left_push. apply fold_left_ext. intros acc param.
  destruct (param_value params (param_name param));
    [reflexivity | now rewrite app_nil_r].
Qed.

(** C8 fails on values that hold a [$].  The second argument of [replace]
    is a replacement pattern: for the value [$$] the built path has a
    single [$], and for [$&] it has the placeholder again.  The examples of
    the specification come out as it says. *)
Theorem buildUrl_dollar_value :
  let markets := mkEndpoint "/markets/{id}" get
                   (operation_of [path_param "id"]) in
  let search := mkEndpoint "/search" get
                  (operation_of [query_param "a"; query_param "b"]) in
  let spec := Some empty_spec in
  buildUrl markets spec [("id", "$$")] = "/markets/$"
  /\ buildUrl markets spec [("id", "$&")] = "/markets/{id}"
  /\ buildUrl markets spec [("id", "42")] = "/markets/42"
  /\ buildUrl markets spec [("id", EmptyString)] = "/markets/{id}"
  /\ buildUrl markets spec [] = "/markets/{id}"
  /\ buildUrl search spec [("a", "1"); ("b", EmptyString)] = "/search?a=1"
  /\ queryString search spec [("a", "1"); ("b", EmptyString)] = "?a=1"
  /\ queryString search spec [("a", "x y"); ("b", "&")] = "?a=x%20y&b=%26".
Proof.
  repeat split.
Qed.

(** One round of the loop over the path parameters: the first occurrence
    of the placeholder is the one replaced (by the value, when it holds no
    [$]), and the text after it is kept as it is. *)
Lemma substitute_first (params : Dict string) (s : string) (p : Param)
  (pre post value : string) :
  Str.split_first (placeholder (param_name p)) s = Some (pre, post) ->
  param_value params (param_name p) = Some value ->
  let expansion :=
    Str.GetSubstitution (placeholder (param_name p)) pre post value in
  s = pre ++ placeholder (param_name p) ++ post
  /\ substitute params s p = pre ++ expansion ++ post
  /\ (StrFacts.plain value = true -> expansion = value).
Proof.
  intros Hsplit Hv expansion.
  split; [now apply StrFacts.split_first_sound|].
  split.
  - unfold substitute, Str.replace. now rewrite Hv, Hsplit.
  - apply StrFacts.GetSubstitution_plain.
Qed.

(** A round removes at most one occurrence of its own placeholder and none
    of another parameter's. *)
Lemma substitute_occurrences (params : Dict string) (name s : string)
  (q : Param) :
  Str.brace_free name = true -> Str.brace_free (param_name q) = true ->
  (Str.occurrences (placeholder name) s
   <= Str.occurrences (placeholder name) (substitute params s q)
      + (if String.eqb name (param_name q) then 1 else 0))%nat.
Proof.
  intros Hn Hq. unfold substitute.
  apply (@StrFacts.occurrences_replace name (param_name q) s _ Hn Hq).
Qed.

Lemma fold_substitute_occurrences (params : Dict string) (name : string)
  (ps : list Param) (s : string) :
  Str.brace_free name = true ->
  (forall q, In q ps -> Str.brace_free (param_name q) = true) ->
  (Str.occurrences (placeholder name) s
   <= Str.occurrences (placeholder name) (fold_left (substitute params) ps s)
      + count_occ string_dec (map param_name ps) name)%nat.
Proof.
  intros Hn. revert s. induction ps as [|q ps IH]; intros s Hps; simpl.
  - lia.
  - assert (Hq : Str.brace_free (param_name q) = true)
      by (apply Hps; now left).
    pose proof (@substitute_occurrences params name s q Hn Hq) as H1.
    pose proof (IH (substitute params s q)
                  (fun q' H => Hps q' (or_intror H))) as H2.
    destruct (string_dec (param_name q) name) as [He | He].
    + subst name. rewrite String.eqb_refl in H1. lia.
    + destruct (String.eqb name (param_name q)) eqn:E.
      * apply String.eqb_eq in E. congruence.
      * lia.
Qed.

(** C10, as the source has it.  A round of the loop over the path
    parameters replaces the first occurrence of its placeholder and keeps
    the text after it.  When the names have no braces, the built URL has at
    least as many occurrences of [{name}] as the template, less the number
    of times the parameter is listed: listed once, every occurrence after
    the first is still there. *)
Theorem buildUrl_first_occurrence (endpoint : Endpoint)
  (spec : option OpenAPISpec) (params : Dict string) (name : string) :
  Str.brace_free name = true ->
  (forall q, In q (pathParams endpoint spec) ->
             Str.brace_free (param_name q) = true) ->
  (Str.occurrences (placeholder name) (ep_path endpoint)
   <= Str.occurrences (placeholder name) (buildUrl endpoint spec params)
      + count_occ string_dec (map param_name (pathParams endpoint spec))
          name)%nat
  /\ (forall s p pre post value,
         param_name p = name ->
         Str.split_first (placeholder name) s = Some (pre, post) ->
         param_value params name = Some value ->
         s = pre ++ placeholder name ++ post
         /\ substitute params s p
            = pre ++ Str.GetSubstitution (placeholder name) pre post value
              ++ post).
Proof.
  intros Hn Hps. split.
  - pose proof (@fold_substitute_occurrences params name
                  (pathParams endpoint spec) (ep_path endpoint) Hn Hps) as H1.
    fold (builtPath endpoint spec params) in H1.
    unfold buildUrl.
    pose proof (StrFacts.occurrences_app (placeholder name) (baseUrl spec)
                  (builtPath endpoint spec params
                   ++ queryString endpoint spec params)) as H2.
    pose proof (StrFacts.occurrences_app (placeholder name)
                  (builtPath endpoint spec params)
                  (queryString endpoint spec params)) as H3.
    lia.
  - intros s p pre post value Hp Hsplit Hv. subst name.
    destruct (@substitute_first params s p pre post value Hsplit Hv)
      as [H1 [H2 _]].
    now split.
Qed.

(** A template with the placeholder twice, the parameter listed once. *)
Lemma buildUrl_first_occurrence_witness :
  let endpoint := mkEndpoint "/a/{id}/b/{id}" get
                    (operation_of [path_param "id"]) in
  (2 <= Str.occurrences "{id}"
          (buildUrl endpoint (Some empty_spec) [("id", "7")]) + 1)%nat.
Proof.
  intros endpoint.
  refine (proj1 (@buildUrl_first_occurrence endpoint (Some empty_spec)
                   [("id", "7")] "id" eq_refl _)).
  intros q [Hq | []]. rewrite <- Hq. reflexivity.
Defined.

(** The built URL when the parameter is the only path parameter. *)
Lemma buildUrl_single_parameter :
  let endpoint := mkEndpoint "/a/{id}/b/{id}" get
                    (operation_of [path_param "id"]) in
  buildUrl endpoint (Some empty_spec) [("id", "7")] = "/a/7/b/{id}".
Proof.
  reflexivity.
Qed.

(** C10 as stated fails when the parameter is listed twice: each entry
    gets its round of the loop, and the second round replaces the second
    occurrence. *)
Lemma buildUrl_parameter_twice :
  let endpoint := mkEndpoint "/a/{id}/b/{id}" get
                    (operation_of [path_param "id"; path_param "id"]) in
  Str.occurrences "{id}" (ep_path endpoint) = 2
  /\ buildUrl endpoint (Some empty_spec) [("id", "7")] = "/a/7/b/7"
  /\ Str.includes (buildUrl endpoint (Some empty_spec) [("id", "7")]) "{id}"
     = false.
Proof.
  repeat split.
Qed.

(** ** The scenario of the specification

    One path [/ping] with a GET operation tagged [Health], no parameters,
    and a response that is an object with the boolean property [ok]. *)

Definition ping_operation : Operation :=
  mkOperation (Some ["Health"]) None None None.

Definition ping_spec : OpenAPISpec :=
  mkSpec None (Some [mkTag "Health" None])
    [("/ping", mkPathItem (Some ping_operation) None None None None)] None.

Example scenario_ping :
  let endpoint := mkEndpoint "/ping" get ping_operation in
  extractEndpoints ping_spec = [endpoint]
  /\ map (fun g => (group_name g, group_endpoints g))
       (groupEndpointsByTag ping_spec)
     = [("Health", [endpoint])]
  /\ generateExampleResponse 1 (Some ok_schema) (Some ping_spec)
     = Some (JSON_stringify (JObject [("ok", JBool true)]))
  /\ buildUrl endpoint (Some ping_spec) [] = "/ping".
Proof.
  repeat split.
Qed.

(** * Further properties of the code *)

(** ** Dictionaries: assignment and lookup *)

Lemma lookup_assign_same (V : Type) (d : Dict V) (k : string) (v : V) :
  lookup (assign d k v) k = Some v.
Proof.
  induction d as [|[k' v'] d IH]; simpl.
  - now rewrite String.eqb_refl.
  - destruct (String.eqb k' k) eqn:E; simpl; rewrite E; auto.
Qed.

Lemma lookup_assign_other (V : Type) (d : Dict V) (k k' : string) (v : V) :
  k' <> k -> lookup (assign d k v) k' = lookup d k'.
Proof.
  intros Hne. induction d as [|[k0 v0] d IH]; simpl.
  - destruct (String.eqb k k') eqn:E; [|reflexivity].
    apply String.eqb_eq in E. congruence.
  - destruct (String.eqb k0 k) eqn:E; simpl.
    + apply String.eqb_eq in E. subst k0.
      destruct (String.eqb k k') eqn:E'; [|reflexivity].
      apply String.eqb_eq in E'. congruence.
    + now rewrite IH.
Qed.

Lemma keys_assign (V : Type) (d : Dict V) (k k' : string) (v : V) :
  In k' (keys (assign d k v)) <-> k' = k \/ In k' (keys d).
Proof.
  induction d as [|[k0 v0] d IH]; simpl.
  - intuition congruence.
  - destruct (String.eqb k0 k) eqn:E; simpl.
    + apply String.eqb_eq in E. subst k0. intuition congruence.
    + unfold keys in IH. rewrite IH. tauto.
Qed.

Lemma lookup_In_keys (V : Type) (d : Dict V) (k : string) :
  In k (keys d) <-> lookup d k <> None.
Proof.
  induction d as [|[k0 v0] d IH]; simpl.
  - split; [intros [] | intros H; now contradiction H].
  - destruct (String.eqb k0 k) eqn:E.
    + apply String.eqb_eq in E. split; [discriminate | now left].
    + apply String.eqb_neq in E. unfold keys in IH. rewrite <- IH.
      intuition congruence.
Qed.

(** ** Parameters *)

(** Literal parameters, and a parameter that is a reference. *)
Definition is_literal (p : Param) : Prop :=
  param_ref p = None \/ param_ref p = Some EmptyString.

(** The object [{ $ref: ref }]: it has no [name] (read as a key or in a
    template that is the text [undefined]) and no [in]. *)
Definition param_of_ref (ref : string) : Param :=
  mkParam "undefined" in_other None None None (Some ref).

(** The resolved parameters of a list of declared ones. *)
Definition resolved (spec : OpenAPISpec) (parameters : list Param)
  : list Param :=
  resolveParameters spec (operation_of parameters).

Lemma resolveParameter_literal (spec : OpenAPISpec) (p : Param) :
  is_literal p -> resolveParameter spec p = Some p.
Proof.
  unfold resolveParameter. now intros [-> | ->].
Qed.

Lemma resolveParameter_named (spec : OpenAPISpec) (p : Param)
  (name : string) :
  param_ref p = Some (parameters_prefix ++ name) ->
  resolveParameter spec p = components_parameter spec name.
Proof.
  unfold resolveParameter. intros ->.
  rewrite StrFacts.prefix_app, StrFacts.replace_prefix. reflexivity.
Qed.

Lemma resolved_app (spec : OpenAPISpec) (l1 l2 : list Param) :
  resolved spec (l1 ++ l2) = (resolved spec l1 ++ resolved spec l2)%list.
Proof.
  unfold resolved, resolveParameters. simpl. apply flat_map_app.
Qed.

(** X1.  [resolveParameters] gives back a list of literal parameters as it
    is, in its order; and whatever the parameters, it never gives more
    entries than were declared. *)
Theorem resolveParameters_literal (spec : OpenAPISpec)
  (operation : Operation) (parameters : list Param) :
  op_parameters operation = Some parameters ->
  (List.length (resolveParameters spec operation)
   <= List.length parameters)%nat
  /\ ((forall p, In p parameters -> is_literal p) ->
      resolveParameters spec operation = parameters).
Proof.
  intros Hop. unfold resolveParameters. rewrite Hop. clear Hop. split.
  - induction parameters as [|p l IH]; simpl; [lia|].
    rewrite length_app. destruct (resolveParameter spec p); simpl; lia.
  - induction parameters as [|p l IH]; simpl; intros Hl; [reflexivity|].
    rewrite (@resolveParameter_literal spec p (Hl p (or_introl eq_refl))).
    simpl. f_equal. apply IH. auto.
Qed.

Lemma resolveParameters_literal_witness :
  resolveParameters empty_spec
    (operation_of [path_param "id"; query_param "limit"])
  = [path_param "id"; query_param "limit"].
Proof.
  apply (@resolveParameters_literal empty_spec
           (operation_of [path_param "id"; query_param "limit"])
           [path_param "id"; query_param "limit"] eq_refl).
  intros p [<- | [<- | []]]; now left.
Defined.

(** [spec.components?.parameters?.[name]] is [undefined] exactly when the
    document has no reusable parameters, or they have no entry of that name
    and the name is none of those every object answers to. *)
Lemma components_parameter_absent (spec : OpenAPISpec) (name : string) :
  components_parameter spec name = None
  <-> match spec_components spec with
      | None => True
      | Some c =>
          match comp_parameters c with
          | None => True
          | Some parameters =>
              lookup parameters name = None /\ ~ In name Object_prototype
          end
      end.
Proof.
  unfold components_parameter.
  destruct (spec_components spec) as [c|]; [|tauto].
  destruct (comp_parameters c) as [parameters|]; [|tauto].
  rewrite <- inherited_false.
  destruct (lookup parameters name) as [parameter|].
  - split; [discriminate | intros [H _]; discriminate].
  - destruct (inherited name); split; try tauto; try discriminate.
    intros [_ H]. discriminate.
Qed.

(** X2.  A parameter that is [{$ref: '#/components/parameters/<name>'}] is
    replaced, at its place in the list, by the entry the document's
    parameters have under that name, as it is (its own [$ref], if it has
    one, is not followed); it is left out when they have nothing under the
    name: when there are no parameters, or they have no entry of that name
    and the name is none of [Object_prototype] (for one of these names
    the inherited member takes the place).  A reference that does not
    start with the prefix is left out. *)
Theorem resolveParameters_reference (spec : OpenAPISpec)
  (operation : Operation) (l1 l2 : list Param) (p : Param) (ref : string) :
  op_parameters operation = Some (l1 ++ p :: l2)%list ->
  param_ref p = Some ref ->
  let replaced_by (at_p : list Param) :=
    resolveParameters spec operation
    = (resolved spec l1 ++ at_p ++ resolved spec l2)%list in
  (forall name,
      ref = parameters_prefix ++ name ->
      (spec_components spec = None -> replaced_by [])
      /\ forall c,
          spec_components spec = Some c ->
          (comp_parameters c = None -> replaced_by [])
          /\ forall parameters,
              comp_parameters c = Some parameters ->
              (forall component,
                  lookup parameters name = Some component ->
                  replaced_by [component])
              /\ (lookup parameters name = None ->
                  ~ In name Object_prototype -> replaced_by [])
              /\ (lookup parameters name = None ->
                  In name Object_prototype ->
                  replaced_by [member_parameter name]))
  /\ (ref <> EmptyString -> Str.startsWith ref parameters_prefix = false ->
      replaced_by []).
Proof.
  intros Hop Hp replaced_by.
  assert (H : forall at_p,
             match resolveParameter spec p with
             | Some q => [q]
             | None => []
             end = at_p -> replaced_by at_p).
  { intros at_p <-. unfold replaced_by, resolved, resolveParameters.
    rewrite Hop. simpl. now rewrite flat_map_app. }
  split.
  - intros name Href. subst ref.
    rewrite (@resolveParameter_named spec p name Hp) in H.
    unfold components_parameter in H. split.
    { intros E. apply H. now rewrite E. }
    intros c Ec. rewrite Ec in H. split.
    { intros E. apply H. now rewrite E. }
    intros parameters E. rewrite E in H. split; [|split].
    + intros component El. apply H. now rewrite El.
    + intros El Hn. apply H. rewrite El.
      apply inherited_false in Hn. now rewrite Hn.
    + intros El Hin. apply H. rewrite El.
      apply includes_In in Hin. unfold inherited. now rewrite Hin.
  - intros Hne Hpre. apply H. unfold resolveParameter. rewrite Hp, Hpre.
    destruct ref; [now contradiction Hne | reflexivity].
Qed.

(** A reference to a component that is itself a reference, one to a name
    that is absent, and one in another form. *)
Lemma resolveParameters_reference_witness :
  let limit := query_param "limit" in
  let nested := param_of_ref (parameters_prefix ++ "Limit") in
  let spec :=
    mkSpec None None []
      (Some (mkComponents None (Some [("Limit", limit); ("Again", nested)])))
  in
  resolveParameters spec
    (operation_of [path_param "id";
                   param_of_ref (parameters_prefix ++ "Again");
                   query_param "q"])
  = [path_param "id"; nested; query_param "q"]
  /\ resolveParameters spec
       (operation_of [path_param "id";
                      param_of_ref (parameters_prefix ++ "Limit");
                      param_of_ref (parameters_prefix ++ "Offset")])
     = [path_param "id"; limit]
  /\ resolveParameters spec
       (operation_of [param_of_ref "#/parameters/Limit"; query_param "q"])
     = [query_param "q"].
Proof.
  intros limit nested spec. split; [|split].
  - destruct (proj1 (@resolveParameters_reference spec
                       (operation_of
                          [path_param "id";
                           param_of_ref (parameters_prefix ++ "Again");
                           query_param "q"])
                       [path_param "id"] [query_param "q"]
                       (param_of_ref (parameters_prefix ++ "Again"))
                       (parameters_prefix ++ "Again") eq_refl eq_refl)
                "Again" eq_refl) as [_ H].
    destruct (H _ eq_refl) as [_ H'].
    exact (proj1 (H' _ eq_refl) nested eq_refl).
  - destruct (proj1 (@resolveParameters_reference spec
                       (operation_of
                          [path_param "id";
                           param_of_ref (parameters_prefix ++ "Limit");
                           param_of_ref (parameters_prefix ++ "Offset")])
                       [path_param "id";
                        param_of_ref (parameters_prefix ++ "Limit")]
                       []
                       (param_of_ref (parameters_prefix ++ "Offset"))
                       (parameters_prefix ++ "Offset") eq_refl eq_refl)
                "Offset" eq_refl) as [_ H].
    destruct (H _ eq_refl) as [_ H'].
    apply (proj1 (proj2 (H' _ eq_refl)) eq_refl).
    simpl. intuition discriminate.
  - refine (proj2 (@resolveParameters_reference spec
                     (operation_of [param_of_ref "#/parameters/Limit";
                                    query_param "q"])
                     [] [query_param "q"]
                     (param_of_ref "#/parameters/Limit")
                     "#/parameters/Limit" eq_refl eq_refl) _ eq_refl).
    discriminate.
Defined.

(** ** The parameter values of the playground *)

Section FoldAssign.
Variables A V : Type.
Variable name : A -> string.
Variable f : A -> V.

(** The loop [for (const x of l) d[name(x)] = f(x)]. *)
Let step (d : Dict V) (x : A) : Dict V := assign d (name x) (f x).

Lemma lookup_fold_other (l : list A) (d : Dict V) (k : string) :
  ~ In k (map name l) -> lookup (fold_left step l d) k = lookup d k.
Proof.
  revert d. induction l as [|q l IH]; intros d Hn; simpl.
  - reflexivity.
  - rewrite IH.
    + apply lookup_assign_other. intros H. apply Hn. left. now symmetry.
    + intros H. apply Hn. now right.
Qed.

Lemma lookup_fold_known (l : list A) (d : Dict V) (k : string) :
  In k (map name l) -> lookup (fold_left step l d) k <> None.
Proof.
  revert d. induction l as [|q l IH]; intros d Hin; simpl.
  - destruct Hin.
  - destruct (in_dec string_dec k (map name l)) as [Hl | Hl].
    + now apply IH.
    + rewrite lookup_fold_other; [|assumption].
      destruct Hin as [<- | Hin]; [|contradiction].
      unfold step. rewrite lookup_assign_same. discriminate.
Qed.

Lemma lookup_fold_NoDup (l : list A) (d : Dict V) (p : A) :
  NoDup (map name l) -> In p l ->
  lookup (fold_left step l d) (name p) = Some (f p).
Proof.
  revert d. induction l as [|q l IH]; intros d Hnd Hin; simpl.
  - destruct Hin.
  - inversion Hnd as [|? ? Hq Hnd']; subst. destruct Hin as [-> | Hin].
    + rewrite lookup_fold_other; [|assumption].
      apply lookup_assign_same.
    + now apply IH.
Qed.
End FoldAssign.

Lemma lookup_set_property_same (V : Type) (d : Dict V) (k : string)
  (v : V) :
  k <> "__proto__" -> lookup (set_property d k v) k = Some v.
Proof.
  intros Hk. rewrite (set_property_other _ _ Hk). apply lookup_assign_same.
Qed.

Lemma lookup_set_property_other (V : Type) (d : Dict V) (k k' : string)
  (v : V) :
  k' <> k -> lookup (set_property d k v) k' = lookup d k'.
Proof.
  intros Hne. unfold set_property.
  destruct (String.eqb k "__proto__"); [reflexivity|].
  now apply lookup_assign_other.
Qed.

Lemma lookup_set_property_proto (V : Type) (d : Dict V) (k : string)
  (v : V) :
  lookup (set_property d k v) "__proto__" = lookup d "__proto__".
Proof.
  unfold set_property. destruct (String.eqb k "__proto__") eqn:E.
  - reflexivity.
  - apply String.eqb_neq in E. apply lookup_assign_other. congruence.
Qed.

Section FoldSet.
Variables A V : Type.
Variable name : A -> string.
Variable f : A -> V.

(** The loop [for (const x of l) d[name(x)] = f(x)] on an object created
    as [{}]. *)
Let step (d : Dict V) (x : A) : Dict V := set_property d (name x) (f x).

Lemma lookup_set_other (l : list A) (d : Dict V) (k : string) :
  ~ In k (map name l) -> lookup (fold_left step l d) k = lookup d k.
Proof.
  revert d. induction l as [|q l IH]; intros d Hn; simpl.
  - reflexivity.
  - rewrite IH.
    + apply lookup_set_property_other. intros H. apply Hn. left.
      now symmetry.
    + intros H. apply Hn. now right.
Qed.

Lemma lookup_set_proto (l : list A) (d : Dict V) :
  lookup (fold_left step l d) "__proto__" = lookup d "__proto__".
Proof.
  revert d. induction l as [|q l IH]; intros d; simpl.
  - reflexivity.
  - rewrite IH. apply lookup_set_property_proto.
Qed.

Lemma lookup_set_known (l : list A) (d : Dict V) (k : string) :
  k <> "__proto__" ->
  In k (map name l) -> lookup (fold_left step l d) k <> None.
Proof.
  intros Hk. revert d. induction l as [|q l IH]; intros d Hin; simpl.
  - destruct Hin.
  - destruct (in_dec string_dec k (map name l)) as [Hl | Hl].
    + now apply IH.
    + rewrite lookup_set_other; [|assumption].
      destruct Hin as [<- | Hin]; [|contradiction].
      unfold step. rewrite lookup_set_property_same; [discriminate|].
      assumption.
Qed.

Lemma lookup_set_NoDup (l : list A) (d : Dict V) (p : A) :
  name p <> "__proto__" ->
  NoDup (map name l) -> In p l ->
  lookup (fold_left step l d) (name p) = Some (f p).
Proof.
  intros Hk. revert d. induction l as [|q l IH]; intros d Hnd Hin; simpl.
  - destruct Hin.
  - inversion Hnd as [|? ? Hq Hnd']; subst. destruct Hin as [-> | Hin].
    + rewrite lookup_set_other; [|assumption].
      now apply lookup_set_property_same.
    + now apply IH.
Qed.
End FoldSet.

(** X3.  [getInitialParams] gives every resolved parameter whose name is
    not [__proto__] an entry under its name, and never an entry under
    [__proto__].  When the names are pairwise distinct the value is the
    text of the parameter's own example if that is not empty, else that of
    its schema's example, else that of its schema's default, else the
    empty string.  The text of a value is what [toString()] gives: none
    for an absent value and for [null], [0] and [false] for the number [0]
    and for [false], a string as it is, a number that is not an integer as
    JavaScript prints it.  The examples and defaults are values on which
    [toString()] returns ([printable]). *)
Theorem getInitialParams_values (endpoint : Endpoint)
  (spec : option OpenAPISpec) (p : Param) :
  (forall q v, In q (allParams endpoint spec) ->
               In (Some v) [param_example q; param_schema_example q;
                            param_schema_default q] ->
               printable v = true) ->
  In p (allParams endpoint spec) ->
  let initial := getInitialParams endpoint spec in
  let text (v : option JSON) (s : string) :=
    optional_toString v = Some s /\ s <> EmptyString in
  let no_text (v : option JSON) :=
    optional_toString v = None \/ optional_toString v = Some EmptyString in
  (param_name p <> "__proto__" -> lookup initial (param_name p) <> None)
  /\ lookup initial "__proto__" = None
  /\ (NoDup (map param_name (allParams endpoint spec)) ->
      param_name p <> "__proto__" ->
      exists value,
        lookup initial (param_name p) = Some value
        /\ (forall s, text (param_example p) s -> value = s)
        /\ (no_text (param_example p) ->
            forall s, text (param_schema_example p) s -> value = s)
        /\ (no_text (param_example p) ->
            no_text (param_schema_example p) ->
            forall s, text (param_schema_default p) s -> value = s)
        /\ (no_text (param_example p) ->
            no_text (param_schema_example p) ->
            no_text (param_schema_default p) -> value = EmptyString))
  /\ (forall v, optional_toString v = None <-> v = None \/ v = Some JNull)
  /\ optional_toString (Some (JNumber 0)) = Some "0"
  /\ optional_toString (Some (JBool false)) = Some "false"
  /\ optional_toString (Some (JBool true)) = Some "true"
  /\ (forall s, optional_toString (Some (JString s)) = Some s)
  /\ (forall printed, optional_toString (Some (JDecimal printed))
                      = Some printed).
Proof.
  intros _ Hin initial text no_text. split; [|split; [|split]].
  - intros Hk.
    apply (@lookup_set_known Param string param_name initial_value
             (allParams endpoint spec) [] (param_name p) Hk).
    now apply in_map.
  - unfold initial, getInitialParams.
    now rewrite (@lookup_set_proto Param string param_name initial_value).
  - intros Hnd Hk. exists (initial_value p). split.
    + unfold initial, getInitialParams.
      apply (@lookup_set_NoDup Param string param_name initial_value
               _ [] p Hk Hnd Hin).
    + unfold initial_value, or_string, text, no_text.
      destruct (optional_toString (param_example p)) as [[|c a]|];
        destruct (optional_toString (param_schema_example p)) as [[|c' b]|];
        destruct (optional_toString (param_schema_default p)) as [[|c'' d]|];
        simpl; repeat split; intros;
        repeat match goal with
               | H : _ /\ _ |- _ => destruct H
               | H : _ \/ _ |- _ => destruct H
               end;
        congruence.
  - repeat split; try reflexivity.
    + destruct v as [[]|]; simpl; try discriminate; auto.
    + intros [-> | ->]; reflexivity.
Qed.

(** Three parameters: one without any example, one whose schema has the
    example [0] and the default [50], one named [__proto__]. *)
Lemma getInitialParams_values_witness :
  let limit := mkParam "limit" in_query None
                 (Some (mkSchema (Some "integer") None None None
                          (Some (JNumber 0)) (Some (JNumber 50)) None))
                 None None in
  let endpoint :=
    mkEndpoint "/markets/{id}" get
      (operation_of [path_param "id"; limit; query_param "__proto__"]) in
  let initial := getInitialParams endpoint (Some empty_spec) in
  lookup initial "limit" = Some "0"
  /\ lookup initial "__proto__" = None
  /\ initial = [("id", EmptyString); ("limit", "0")].
Proof.
  intros limit endpoint initial.
  assert (Hprintable :
            forall q v, In q (allParams endpoint (Some empty_spec)) ->
                        In (Some v) [param_example q; param_schema_example q;
                                     param_schema_default q] ->
                        printable v = true).
  { intros q v [<- | [<- | [<- | []]]]; simpl;
      intros [H | [H | [H | []]]]; try discriminate;
      injection H as <-; reflexivity. }
  destruct (@getInitialParams_values endpoint (Some empty_spec) limit
              Hprintable (or_intror (or_introl eq_refl)))
    as [_ [Hproto [Hvalue _]]].
  split; [|split; [exact Hproto | reflexivity]].
  destruct Hvalue as [value [Hlook [_ [Hschema _]]]].
  - repeat (constructor; [simpl; intuition discriminate|]). constructor.
  - discriminate.
  - assert (Hv : value = "0").
    { apply Hschema; [now left | split; [reflexivity | discriminate]]. }
    rewrite Hv in Hlook. exact Hlook.
Defined.

Lemma keys_assign_known (V : Type) (d : Dict V) (k : string) (v : V) :
  In k (keys d) -> keys (assign d k v) = keys d.
Proof.
  induction d as [|[k0 v0] d IH]; simpl.
  - intros [].
  - destruct (String.eqb k0 k) eqn:E; simpl; [reflexivity|].
    apply String.eqb_neq in E. intros [H | H]; [contradiction|].
    f_equal. now apply IH.
Qed.

(** X4.  [updateParam]: the new value is the one found under the name, the
    values under the other names are as before, a name that was there
    keeps its place, and an empty value counts as no value for the URL. *)
Theorem updateParam_lookup (prev : Dict string) (name value : string) :
  lookup (updateParam prev name value) name = Some value
  /\ (forall other, other <> name ->
                    lookup (updateParam prev name value) other
                    = lookup prev other)
  /\ (In name (keys prev) -> keys (updateParam prev name value) = keys prev)
  /\ (forall other,
         param_value (updateParam prev name value) other
         = if String.eqb other name
           then (if Str.truthy value then Some value else None)
           else param_value prev other).
Proof.
  unfold updateParam. split; [apply lookup_assign_same|].
  split; [intros other H; now apply lookup_assign_other|].
  split; [apply keys_assign_known|].
  intros other. unfold param_value.
  destruct (String.eqb other name) eqn:E.
  - apply String.eqb_eq in E. subst other. now rewrite lookup_assign_same.
  - apply String.eqb_neq in E. now rewrite lookup_assign_other.
Qed.

(** ** The expanded tags of the sidebar *)

Lemma has_delete (s : list string) (t u : string) :
  Sidebar.has (Sidebar.delete s t) u
  = Sidebar.has s u && negb (String.eqb u t).
Proof.
  unfold Sidebar.has, Sidebar.delete, includes.
  induction s as [|y s IH]; simpl; [reflexivity|].
  destruct (String.eqb y t) eqn:Eyt; simpl.
  - rewrite IH. apply String.eqb_eq in Eyt. subst y.
    destruct (String.eqb u t); simpl; [|reflexivity].
    now rewrite !andb_false_r.
  - rewrite IH. destruct (String.eqb u y) eqn:Euy; simpl; [|reflexivity].
    apply String.eqb_eq in Euy. subst y. now rewrite Eyt.
Qed.

Lemma has_add (s : list string) (t u : string) :
  Sidebar.has (Sidebar.add s t) u = Sidebar.has s u || String.eqb u t.
Proof.
  unfold Sidebar.add. destruct (Sidebar.has s t) eqn:Ht.
  - destruct (String.eqb u t) eqn:E; [|now rewrite orb_false_r].
    apply String.eqb_eq in E. subst u. now rewrite Ht.
  - unfold Sidebar.has, includes. rewrite existsb_app. simpl.
    now rewrite orb_false_r.
Qed.

(** X5.  [toggleTag] changes whether the tag is expanded and nothing else:
    membership of the tag is negated, membership of every other tag is
    kept, the set stays without repetition, and toggling twice gives back
    the membership one started with. *)
Theorem toggleTag_membership (expandedTags : list string)
  (tagName : string) :
  (forall u, Sidebar.has (Sidebar.toggleTag expandedTags tagName) u
             = if String.eqb u tagName
               then negb (Sidebar.has expandedTags tagName)
               else Sidebar.has expandedTags u)
  /\ (NoDup expandedTags -> NoDup (Sidebar.toggleTag expandedTags tagName))
  /\ (forall u,
         Sidebar.has
           (Sidebar.toggleTag (Sidebar.toggleTag expandedTags tagName)
              tagName) u
         = Sidebar.has expandedTags u).
Proof.
  assert (H1 : forall s t u,
             Sidebar.has (Sidebar.toggleTag s t) u
             = if String.eqb u t then negb (Sidebar.has s t)
               else Sidebar.has s u).
  { intros s t u. unfold Sidebar.toggleTag.
    destruct (Sidebar.has s t) eqn:Ht.
    - rewrite has_delete. destruct (String.eqb u t); simpl;
        [apply andb_false_r | apply andb_true_r].
    - rewrite has_add. destruct (String.eqb u t) eqn:E; simpl.
      + apply orb_true_r.
      + apply orb_false_r. }
  split; [apply H1|]. split.
  - intros Hnd. unfold Sidebar.toggleTag.
    destruct (Sidebar.has expandedTags tagName) eqn:Ht.
    + unfold Sidebar.delete. now apply NoDup_filter.
    + unfold Sidebar.add. rewrite Ht. apply NoDup_snoc; [assumption|].
      intros Hin. apply includes_In in Hin. unfold Sidebar.has in Ht.
      congruence.
  - intros u. rewrite H1. destruct (String.eqb u tagName) eqn:E.
    + rewrite H1, String.eqb_refl, negb_involutive.
      apply String.eqb_eq in E. now subst u.
    + rewrite H1, E. reflexivity.
Qed.

(** ** The endpoints of the sidebar *)

(** The path and the method of an endpoint. *)
Definition route (e : Endpoint) : string * Method := (ep_path e, ep_method e).

Lemma NoDup_map_coarser (A B C : Type) (f : A -> B) (g : A -> C)
  (l : list A) :
  (forall x y, In x l -> In y l -> g x = g y -> f x = f y) ->
  NoDup (map f l) -> NoDup (map g l).
Proof.
  induction l as [|x l IH]; simpl; intros Hfg Hnd.
  - constructor.
  - inversion Hnd as [|? ? Hx Hnd']; subst. constructor.
    + intros Hin. apply Hx. apply in_map_iff in Hin.
      destruct Hin as [y [Hy Hin]]. apply in_map_iff. exists y.
      split; [|assumption]. apply Hfg; auto.
    + apply IH; auto.
Qed.

Lemma NoDup_map_filter (A B : Type) (f : A -> B) (P : A -> bool)
  (l : list A) :
  NoDup (map f l) -> NoDup (map f (filter P l)).
Proof.
  induction l as [|x l IH]; simpl; intros Hnd.
  - constructor.
  - inversion Hnd as [|? ? Hx Hnd']; subst.
    destruct (P x); simpl; [|now apply IH]. constructor; [|now apply IH].
    intros Hin. apply Hx. apply in_map_iff in Hin.
    destruct Hin as [y [Hy Hin]]. apply filter_In in Hin.
    apply in_map_iff. exists y. tauto.
Qed.

Lemma NoDup_map_In_eq (A B : Type) (f : A -> B) (l : list A) (x y : A) :
  NoDup (map f l) -> In x l -> In y l -> f x = f y -> x = y.
Proof.
  induction l as [|z l IH]; simpl; intros Hnd Hx Hy Hf.
  - destruct Hx.
  - inversion Hnd as [|? ? Hz Hnd']; subst.
    destruct Hx as [-> | Hx], Hy as [-> | Hy].
    + reflexivity.
    + exfalso. apply Hz. rewrite Hf. now apply in_map.
    + exfalso. apply Hz. rewrite <- Hf. now apply in_map.
    + now apply IH.
Qed.

(** With pairwise distinct paths in [spec.paths], no two endpoints of the
    index have the same path and method. *)
Lemma extractEndpoints_routes (spec : OpenAPISpec) :
  NoDup (keys (spec_paths spec)) ->
  NoDup (map route (extractEndpoints spec)).
Proof.
  rewrite extractEndpoints_flat_map.
  induction (spec_paths spec) as [|[path pathItem] paths IH];
    intros Hnd.
  - constructor.
  - simpl in Hnd. inversion Hnd as [|? ? Hpath Hnd']; subst.
    cbn [flat_map]. rewrite map_app.
    apply NoDup_app.
    + apply (@NoDup_map_coarser _ _ _ ep_method route).
      * intros x y Hx Hy Hxy.
        apply In_path_endpoints in Hx, Hy. unfold route in Hxy. congruence.
      * apply path_endpoints_methods_NoDup.
    + now apply IH.
    + intros [p m] Hin1 Hin2.
      apply in_map_iff in Hin1. destruct Hin1 as [e1 [He1 Hin1]].
      apply in_map_iff in Hin2. destruct Hin2 as [e2 [He2 Hin2]].
      apply In_path_endpoints in Hin1. simpl in Hin1.
      destruct Hin1 as [_ [Hp1 _]].
      apply in_flat_map in Hin2. destruct Hin2 as [entry [Hentry Hin2]].
      apply In_path_endpoints in Hin2. destruct Hin2 as [_ [Hp2 _]].
      apply Hpath. unfold keys. apply in_map_iff. exists entry.
      split; [|assumption]. unfold route in *. congruence.
Qed.

Lemma key_route (e1 e2 : Endpoint) :
  Sidebar.key e1 = Sidebar.key e2 -> route e1 = route e2.
Proof.
  unfold Sidebar.key, route.
  destruct (ep_method e1), (ep_method e2); simpl; intros H;
    try discriminate; injection H as H; now rewrite H.
Qed.

(** X6.  With pairwise distinct paths in [spec.paths], the keys
    [method-path] of the sidebar's buttons are pairwise distinct, over
    the whole index and so within every tag group. *)
Theorem sidebar_keys_distinct (spec : OpenAPISpec) :
  NoDup (keys (spec_paths spec)) ->
  NoDup (map Sidebar.key (extractEndpoints spec))
  /\ forall g, In g (groupEndpointsByTag spec) ->
               NoDup (map Sidebar.key (group_endpoints g)).
Proof.
  intros Hnd. pose proof (extractEndpoints_routes spec Hnd) as Hr.
  assert (Hk : NoDup (map Sidebar.key (extractEndpoints spec))).
  { apply (@NoDup_map_coarser _ _ _ route Sidebar.key); [|assumption].
    intros x y _ _. apply key_route. }
  split; [assumption|].
  intros g Hg. rewrite groupEndpointsByTag_sorted in Hg.
  apply (Permutation_in _ (sort_perm _ _)) in Hg.
  apply groups_of_endpoints in Hg. destruct Hg as [Hg _]. rewrite Hg.
  unfold tagged. now apply NoDup_map_filter.
Qed.

(** A document with two paths and four operations, under two tags. *)
Definition markets_spec : OpenAPISpec :=
  let op (tag summary : string) :=
    mkOperation (Some [tag]) (Some summary) None None in
  mkSpec None (Some [mkTag "Markets" None; mkTag "Admin" None])
    [("/markets", mkPathItem (Some (op "Markets" "List markets"))
                    (Some (op "Admin" "Create a market")) None None None);
     ("/markets/{id}", mkPathItem (Some (op "Markets" "Get a market"))
                         None None (Some (op "Admin" "Delete a market"))
                         None)]
    None.

Lemma sidebar_keys_distinct_witness :
  map Sidebar.key (extractEndpoints markets_spec)
  = ["get-/markets"; "post-/markets"; "get-/markets/{id}";
     "delete-/markets/{id}"]
  /\ map (fun g => map Sidebar.key (group_endpoints g))
       (groupEndpointsByTag markets_spec)
     = [["get-/markets"; "get-/markets/{id}"];
        ["post-/markets"; "delete-/markets/{id}"]]
  /\ NoDup (map Sidebar.key (extractEndpoints markets_spec))
  /\ Forall (fun g => NoDup (map Sidebar.key (group_endpoints g)))
       (groupEndpointsByTag markets_spec).
Proof.
  split; [reflexivity|]. split; [reflexivity|].
  destruct (@sidebar_keys_distinct markets_spec) as [Hall Hgroup].
  - repeat (constructor; [simpl; intuition discriminate|]). constructor.
  - split; [exact Hall|]. apply Forall_forall. exact Hgroup.
Defined.

Lemma Method_eqb_eq (a b : Method) : Method_eqb a b = true <-> a = b.
Proof.
  destruct a, b; simpl; split; congruence.
Qed.

(** X7.  With pairwise distinct paths in [spec.paths], [isSelected] marks
    one endpoint of the index, the selected one; and with nothing selected
    it marks none. *)
Theorem isSelected_unique (spec : OpenAPISpec)
  (selected endpoint : Endpoint) :
  NoDup (keys (spec_paths spec)) ->
  In selected (extractEndpoints spec) ->
  In endpoint (extractEndpoints spec) ->
  (Sidebar.isSelected (Some selected) endpoint = true
   <-> endpoint = selected)
  /\ Sidebar.isSelected None endpoint = false.
Proof.
  intros Hnd Hs He. split; [|reflexivity]. unfold Sidebar.isSelected.
  rewrite andb_true_iff, String.eqb_eq, Method_eqb_eq. split.
  - intros [Hp Hm]. symmetry.
    apply (@NoDup_map_In_eq _ _ route (extractEndpoints spec));
      try assumption.
    + now apply extractEndpoints_routes.
    + unfold route. congruence.
  - intros ->. now split.
Qed.

(** Of the four endpoints of [markets_spec], with [GET /markets]
    selected: it is marked, and neither the other method of its path nor
    the same method of the other path is. *)
Lemma isSelected_unique_witness :
  let endpoint (n : nat) :=
    nth n (extractEndpoints markets_spec)
      (mkEndpoint EmptyString get (operation_of [])) in
  map Sidebar.key [endpoint 0%nat; endpoint 1%nat; endpoint 2%nat]
  = ["get-/markets"; "post-/markets"; "get-/markets/{id}"]
  /\ (Sidebar.isSelected (Some (endpoint 0%nat)) (endpoint 0%nat) = true
      <-> endpoint 0%nat = endpoint 0%nat)
  /\ (Sidebar.isSelected (Some (endpoint 0%nat)) (endpoint 1%nat) = true
      <-> endpoint 1%nat = endpoint 0%nat)
  /\ (Sidebar.isSelected (Some (endpoint 0%nat)) (endpoint 2%nat) = true
      <-> endpoint 2%nat = endpoint 0%nat)
  /\ Sidebar.isSelected (Some (endpoint 0%nat)) (endpoint 1%nat) = false
  /\ Sidebar.isSelected (Some (endpoint 0%nat)) (endpoint 2%nat) = false.
Proof.
  intros endpoint.
  assert (Hnd : NoDup (keys (spec_paths markets_spec))).
  { repeat (constructor; [simpl; intuition discriminate|]). constructor. }
  split; [reflexivity|].
  split.
  { apply (@isSelected_unique markets_spec (endpoint 0%nat) (endpoint 0%nat)
             Hnd); simpl; tauto. }
  split.
  { apply (@isSelected_unique markets_spec (endpoint 0%nat) (endpoint 1%nat)
             Hnd); simpl; tauto. }
  split.
  { apply (@isSelected_unique markets_spec (endpoint 0%nat) (endpoint 2%nat)
             Hnd); simpl; tauto. }
  split; reflexivity.
Defined.

(** ** Nothing is lost between the index and the groups *)

Lemma tagMap_push_perm (M : Dict (list Endpoint)) (t : string)
  (e : Endpoint) :
  Permutation (flat_map snd (tagMap_push M t e)) (e :: flat_map snd M).
Proof.
  induction M as [|[k es] M IH]; simpl.
  - apply Permutation_refl.
  - destruct (String.eqb k t); simpl.
    + rewrite <- app_assoc. simpl.
      apply Permutation_sym.
      apply (@Permutation_middle _ es (flat_map snd M) e).
    + eapply Permutation_trans.
      * apply Permutation_app_head. exact IH.
      * apply Permutation_sym.
        apply (@Permutation_middle _ es (flat_map snd M) e).
Qed.

Lemma tagMap_of_perm (E : list Endpoint) :
  Permutation (flat_map snd (tagMap_of E)) E.
Proof.
  induction E as [|e E IH] using rev_ind.
  - apply Permutation_refl.
  - rewrite tagMap_of_snoc.
    eapply Permutation_trans; [apply tagMap_push_perm|].
    eapply Permutation_trans; [apply perm_skip, IH|].
    apply Permutation_cons_append.
Qed.

(** X8.  The groups of the sidebar hold the endpoints of the index, each
    as often as it is in the index: none is lost and none is shown under
    two tags. *)
Theorem groupEndpointsByTag_covers (spec : OpenAPISpec) :
  Permutation (flat_map group_endpoints (groupEndpointsByTag spec))
    (extractEndpoints spec).
Proof.
  rewrite groupEndpointsByTag_sorted.
  eapply Permutation_trans.
  - apply Permutation_flat_map. apply sort_perm.
  - unfold groups_of. rewrite flat_map_concat_map, map_map.
    rewrite <- (tagMap_of_perm (extractEndpoints spec)) at 2.
    rewrite flat_map_concat_map.
    replace (map (fun x => group_endpoints
                             (let '(name, endpoints) := x in
                              mkTagGroup name
                                (lookup (tagDescriptions spec) name)
                                endpoints))
               (tagMap_of (extractEndpoints spec)))
      with (map snd (tagMap_of (extractEndpoints spec))).
    + apply Permutation_refl.
    + apply map_ext. now intros [name endpoints].
Qed.

(** ** The descriptions of the groups *)

Lemma indexOf_absent (l : list string) (x : string) :
  indexOf l x = (-1)%Z <-> ~ In x l.
Proof.
  induction l as [|y l IH]; simpl indexOf.
  - split; [intros _ [] | reflexivity].
  - destruct (String.eqb y x) eqn:E.
    + apply String.eqb_eq in E. split; [discriminate|].
      intros H. exfalso. apply H. now left.
    + apply String.eqb_neq in E.
      destruct (indexOf l x =? -1)%Z eqn:Ei.
      * apply Z.eqb_eq in Ei. split; [|reflexivity].
        intros _ [H | H]; [contradiction | now apply IH in Ei].
      * apply Z.eqb_neq in Ei. split.
        -- intros H. destruct (indexOf_range l x); lia.
        -- intros H. exfalso. apply Ei. apply IH. intros Hin. apply H.
           now right.
Qed.

(** [tag.description || ''] *)
Definition description_text (tag : Tag) : string :=
  match tag_description tag with
  | Some d => d
  | None => EmptyString
  end.

Lemma groups_of_description (spec : OpenAPISpec) (g : TagGroup) :
  In g (groups_of spec) ->
  group_description g = lookup (tagDescriptions spec) (group_name g).
Proof.
  unfold groups_of. rewrite in_map_iff. intros [[name es] [Hg _]].
  now subst g.
Qed.

(** X9.  A group has a description exactly when its tag is declared in
    [spec.tags]; with pairwise distinct declared names the description is
    the declared one, and the empty string when the declaration has
    none. *)
Theorem group_description_declared (spec : OpenAPISpec) (g : TagGroup) :
  In g (groupEndpointsByTag spec) ->
  (group_description g = None
   <-> indexOf (tagOrder spec) (group_name g) = (-1)%Z)
  /\ (forall tags tag,
         spec_tags spec = Some tags ->
         NoDup (map tag_name tags) ->
         In tag tags -> tag_name tag = group_name g ->
         group_description g = Some (description_text tag)).
Proof.
  intros Hg. rewrite groupEndpointsByTag_sorted in Hg.
  apply (Permutation_in _ (sort_perm _ _)) in Hg.
  apply groups_of_description in Hg. rewrite Hg.
  unfold tagDescriptions, tagOrder.
  set (text := fun tag : Tag =>
                 match tag_description tag with
                 | Some d => if Str.truthy d then d else EmptyString
                 | None => EmptyString
                 end).
  destruct (spec_tags spec) as [tags|].
  - split.
    + rewrite indexOf_absent. split.
      * intros Hnone Hin.
        now apply (@lookup_fold_known Tag string tag_name text tags [])
          in Hin.
      * intros Hn.
        now rewrite (@lookup_fold_other Tag string tag_name text tags []).
    + intros tags' tag Htags Hnd Hin Hname. injection Htags as <-.
      rewrite <- Hname.
      pose proof (@lookup_fold_NoDup Tag string tag_name text tags [] tag
                    Hnd Hin) as Hl.
      unfold text in Hl at 1. cbv beta in Hl. rewrite Hl.
      unfold text, description_text.
      now destruct (tag_description tag) as [[|c d]|].
  - split; [now split | discriminate].
Qed.

Lemma group_description_declared_witness :
  let g := mkTagGroup "Health" (Some EmptyString)
             [mkEndpoint "/ping" get ping_operation] in
  group_description g = None
  <-> indexOf (tagOrder ping_spec) (group_name g) = (-1)%Z.
Proof.
  intros g.
  apply (@group_description_declared ping_spec g (or_introl eq_refl)).
Defined.

(** ** The URL of the playground *)

Lemma plain_placeholder (name : string) :
  StrFacts.plain (placeholder name) = StrFacts.plain name.
Proof.
  unfold placeholder. simpl. induction name as [|c name IH]; simpl.
  - reflexivity.
  - now rewrite IH.
Qed.

(** Replacing a text without [$] by itself changes nothing. *)
Lemma replace_self (s pat : string) :
  StrFacts.plain pat = true -> Str.replace s pat pat = s.
Proof.
  intros Hp. unfold Str.replace.
  destruct (Str.split_first pat s) as [[b a]|] eqn:Hs; [|reflexivity].
  rewrite StrFacts.GetSubstitution_plain; [|assumption].
  symmetry. now apply StrFacts.split_first_sound.
Qed.

Lemma fold_left_id (A B : Type) (f : B -> A -> B) (l : list A) (b : B) :
  (forall x, In x l -> forall b, f b x = b) -> fold_left f l b = b.
Proof.
  revert b. induction l as [|x l IH]; intros b H; simpl.
  - reflexivity.
  - rewrite (H x (or_introl eq_refl)). apply IH. intros y Hy. apply H.
    now right.
Qed.

Lemma append_empty_r (s : string) : s ++ EmptyString = s.
Proof.
  induction s as [|c s IH]; simpl; [reflexivity | now rewrite IH].
Qed.

(** X10.  The query string of the playground has one part per query
    parameter whose value in the state is a text that is not empty,
    [name=] and the encoded value, in the order of the parameters; a
    parameter without an entry or with the empty text gives no part; and
    the string is empty when there is no part, else [?] and the parts
    joined by [&].  (No query parameter without an entry in the state is
    named as a member of [Object.prototype].) *)
Theorem queryString_parts (endpoint : Endpoint)
  (spec : option OpenAPISpec) (params : Dict string) :
  (forall q, In q (queryParams endpoint spec) ->
             lookup params (param_name q) <> None
             \/ ~ In (param_name q) Object_prototype) ->
  let parts := queryParts endpoint spec params in
  let valued :=
    filter (fun q => match lookup params (param_name q) with
                     | Some value => negb (String.eqb value EmptyString)
                     | None => false
                     end) (queryParams endpoint spec) in
  Forall2 (fun q part =>
             exists value,
               lookup params (param_name q) = Some value
               /\ value <> EmptyString
               /\ part = param_name q ++ "=" ++ Str.encodeURIComponent value)
    valued parts
  /\ (forall q, In q valued <->
                In q (queryParams endpoint spec)
                /\ exists value, lookup params (param_name q) = Some value
                                 /\ value <> EmptyString)
  /\ (valued = [] -> queryString endpoint spec params = EmptyString)
  /\ (valued <> [] ->
      queryString endpoint spec params = "?" ++ String.concat "&" parts).
Proof.
  intros _ parts valued.
  assert (H : Forall2 (fun q part =>
             exists value,
               lookup params (param_name q) = Some value
               /\ value <> EmptyString
               /\ part = param_name q ++ "=" ++ Str.encodeURIComponent value)
    valued parts).
  { subst parts valued. rewrite queryParts_values.
    induction (queryParams endpoint spec) as [|q l IH]; simpl.
    - constructor.
    - unfold param_value.
      destruct (lookup params (param_name q)) as [[|c value]|] eqn:E; simpl.
      + assumption.
      + constructor; [|assumption]. exists (String c value).
        split; [exact E|]. split; [discriminate | reflexivity].
      + assumption. }
  split; [assumption|]. split.
  { intros q. unfold valued. rewrite filter_In. split.
    - intros [Hq Hv]. split; [assumption|].
      destruct (lookup params (param_name q)) as [[|c value]|];
        try discriminate.
      exists (String c value). split; [reflexivity | discriminate].
    - intros [Hq [value [Hv Hne]]]. split; [assumption|]. rewrite Hv.
      destruct value; [now contradiction Hne | reflexivity]. }
  unfold queryString. fold parts. split.
  - intros Hv. rewrite Hv in H. inversion H. reflexivity.
  - intros Hv. destruct H; [now contradiction Hv | reflexivity].
Qed.

(** The query string for the state [{a: '1', b: '', c: 'x y&z'}] and a
    fourth parameter that has no entry. *)
Lemma queryString_parts_witness :
  let endpoint :=
    mkEndpoint "/markets" get
      (operation_of [query_param "a"; query_param "b"; query_param "c";
                     query_param "d"]) in
  let params :=
    [("a", "1"); ("b", EmptyString); ("c", "x y&z")] in
  queryString endpoint (Some empty_spec) params = "?a=1&c=x%20y%26z".
Proof.
  intros endpoint params.
  refine (proj2 (proj2 (proj2
            (@queryString_parts endpoint (Some empty_spec) params _))) _).
  - intros q [<- | [<- | [<- | [<- | []]]]]; simpl;
      solve [left; discriminate | right; intuition discriminate].
  - simpl. discriminate.
Defined.

(** X11.  As long as no parameter has a value (and no name holds a [$]),
    the URL of the playground is the base URL and the path template as it
    is, placeholders included, without a query string.  A parameter has no
    value when its entry in the state is the empty text, or when the state
    has no entry for it and its name is none of the members of
    [Object.prototype]. *)
Theorem buildUrl_no_values (endpoint : Endpoint)
  (spec : option OpenAPISpec) (params : Dict string) :
  (forall p, In p (allParams endpoint spec) ->
             StrFacts.plain (param_name p) = true
             /\ (lookup params (param_name p) = Some EmptyString
                 \/ (lookup params (param_name p) = None
                     /\ ~ In (param_name p) Object_prototype))) ->
  buildUrl endpoint spec params = baseUrl spec ++ ep_path endpoint.
Proof.
  intros H0.
  assert (H : forall p, In p (allParams endpoint spec) ->
                        StrFacts.plain (param_name p) = true
                        /\ param_value params (param_name p) = None).
  { intros p Hp. destruct (H0 p Hp) as [Hplain Hv]. split; [assumption|].
    unfold param_value. destruct Hv as [-> | [-> _]]; reflexivity. }
  clear H0. unfold buildUrl.
  assert (Hb : builtPath endpoint spec params = ep_path endpoint).
  { unfold builtPath. apply fold_left_id. intros p Hp b.
    unfold pathParams in Hp. apply filter_In in Hp. destruct Hp as [Hp _].
    destruct (H p Hp) as [Hplain Hnone]. unfold substitute.
    rewrite Hnone. apply replace_self. now rewrite plain_placeholder. }
  assert (Hq : queryString endpoint spec params = EmptyString).
  { unfold queryString. rewrite queryParts_values.
    replace (flat_map _ (queryParams endpoint spec)) with (@nil string);
      [reflexivity|].
    symmetry. unfold queryParams.
    induction (allParams endpoint spec) as [|q l IH]; simpl; [reflexivity|].
    destruct (ParamIn_eqb (param_in q) in_query); simpl.
    - destruct (H q (or_introl eq_refl)) as [_ ->]. simpl.
      apply IH. intros p Hp. apply H. now right.
    - apply IH. intros p Hp. apply H. now right. }
  rewrite Hb, Hq. now rewrite append_empty_r.
Qed.

Lemma buildUrl_no_values_witness :
  let endpoint := mkEndpoint "/markets/{id}" get
                    (operation_of [path_param "id"; query_param "limit"]) in
  buildUrl endpoint (Some empty_spec) [("id", EmptyString)]
  = EmptyString ++ "/markets/{id}".
Proof.
  intros endpoint.
  apply (@buildUrl_no_values endpoint (Some empty_spec)
           [("id", EmptyString)]).
  intros p [<- | [<- | []]]; split; try reflexivity.
  - now left.
  - right. split; [reflexivity | simpl; intuition discriminate].
Defined.

(** X12.  The URL shown in the documentation (no name holding a [$]) is the
    base URL, the path template as it is, and every query parameter,
    valued or not, as [name={name}], joined by [&] after a [?]. *)
Theorem EndpointView_buildUrl_template (endpoint : Endpoint)
  (spec : option OpenAPISpec) :
  (forall p, In p (pathParams endpoint spec) ->
             StrFacts.plain (param_name p) = true) ->
  EndpointView.buildUrl endpoint spec
  = baseUrl spec ++ ep_path endpoint
    ++ match queryParams endpoint spec with
       | [] => EmptyString
       | _ :: _ =>
           "?" ++ String.concat "&"
                    (map (fun q => param_name q ++ "={" ++ param_name q ++ "}")
                       (queryParams endpoint spec))
       end.
Proof.
  intros H. unfold EndpointView.buildUrl.
  assert (Hb : EndpointView.builtPath endpoint spec = ep_path endpoint).
  { unfold EndpointView.builtPath. apply fold_left_id. intros p Hp b.
    apply replace_self. rewrite plain_placeholder. now apply H. }
  assert (Hq : EndpointView.queryParts endpoint spec
               = map (fun q => param_name q ++ "={" ++ param_name q ++ "}")
                   (queryParams endpoint spec)).
  { unfold EndpointView.queryParts.
    rewrite (fold_left_push
               (fun q => [param_name q ++ "=" ++ placeholder (param_name q)])).
    simpl. induction (queryParams endpoint spec) as [|q l IH]; simpl.
    - reflexivity.
    - now rewrite IH. }
  rewrite Hb, Hq. now destruct (queryParams endpoint spec).
Qed.

Lemma EndpointView_buildUrl_template_witness :
  let endpoint := mkEndpoint "/markets/{id}" get
                    (operation_of [path_param "id"; query_param "limit"]) in
  EndpointView.buildUrl endpoint (Some empty_spec)
  = "/markets/{id}?limit={limit}".
Proof.
  intros endpoint.
  apply (@EndpointView_buildUrl_template endpoint (Some empty_spec)).
  intros p [<- | []]. reflexivity.
Defined.

(** X18.  With one path parameter whose value holds no [$], the URL of the
    playground is the base URL, the template with the value in the place
    of the first occurrence of the placeholder, and the query string; and
    a template without the placeholder is left as it is. *)
Theorem buildUrl_single_value (endpoint : Endpoint)
  (spec : option OpenAPISpec) (params : Dict string) (p : Param)
  (value : string) :
  pathParams endpoint spec = [p] ->
  param_value params (param_name p) = Some value ->
  StrFacts.plain value = true ->
  (forall pre post,
      Str.split_first (placeholder (param_name p)) (ep_path endpoint)
      = Some (pre, post) ->
      buildUrl endpoint spec params
      = baseUrl spec ++ (pre ++ value ++ post)
        ++ queryString endpoint spec params)
  /\ (Str.split_first (placeholder (param_name p)) (ep_path endpoint) = None ->
      buildUrl endpoint spec params
      = baseUrl spec ++ ep_path endpoint ++ queryString endpoint spec params).
Proof.
  intros Hp Hv Hplain. unfold buildUrl, builtPath. rewrite Hp. simpl. split.
  - intros pre post Hs.
    destruct (@substitute_first params (ep_path endpoint) p pre post value
                Hs Hv) as [_ [H1 H2]].
    now rewrite H1, (H2 Hplain).
  - intros Hs. unfold substitute. now rewrite StrFacts.replace_absent.
Qed.

Lemma buildUrl_single_value_witness :
  let endpoint := mkEndpoint "/markets/{id}" get
                    (operation_of [path_param "id"]) in
  buildUrl endpoint (Some empty_spec) [("id", "42")]
  = EmptyString ++ ("/markets/" ++ "42" ++ EmptyString) ++ EmptyString.
Proof.
  intros endpoint.
  exact (proj1 (@buildUrl_single_value endpoint (Some empty_spec)
                  [("id", "42")] (path_param "id") "42"
                  eq_refl eq_refl eq_refl)
           "/markets/" EmptyString eq_refl).
Defined.

(** ** Percent-encoding *)

(** The encoding of one character. *)
Definition encode_char (c : ascii) : string :=
  Str.encodeURIComponent (String c EmptyString).

Lemma encodeURIComponent_cons (c : ascii) (s : string) :
  Str.encodeURIComponent (String c s)
  = encode_char c ++ Str.encodeURIComponent s.
Proof.
  unfold encode_char. simpl. now destruct (Str.uri_unreserved c).
Qed.

Fixpoint all_chars (P : ascii -> bool) (s : string) : bool :=
  match s with
  | EmptyString => true
  | String c s' => P c && all_chars P s'
  end.

Lemma all_chars_app (P : ascii -> bool) (a b : string) :
  all_chars P (a ++ b) = all_chars P a && all_chars P b.
Proof.
  induction a as [|c a IH]; simpl; [reflexivity|].
  now rewrite IH, andb_assoc.
Qed.

(** The characters of an encoded value: the unreserved ones and [%]. *)
Definition encoded_char (c : ascii) : bool :=
  Str.uri_unreserved c || Ascii.eqb c "%".

Lemma encode_char_chars (c : ascii) :
  all_chars encoded_char (encode_char c) = true.
Proof.
  destruct c as [[] [] [] [] [] [] [] []]; reflexivity.
Qed.

(** A decoder, to tell encoded values apart. *)
Definition hex_value (c : ascii) : nat :=
  let n := nat_of_ascii c in
  if (n <? 58)%nat then (n - 48)%nat else (n - 55)%nat.

Fixpoint decode (s : string) : string :=
  match s with
  | EmptyString => EmptyString
  | String c rest =>
      if Ascii.eqb c "%" then
        match rest with
        | String h (String l rest') =>
            String (ascii_of_nat (16 * hex_value h + hex_value l))
              (decode rest')
        | _ => String c (decode rest)
        end
      else String c (decode rest)
  end.

Lemma decode_encode_char (c : ascii) (s : string) :
  decode (encode_char c ++ s) = String c (decode s).
Proof.
  destruct c as [[] [] [] [] [] [] [] []]; reflexivity.
Qed.

Lemma decode_encode (s : string) : decode (Str.encodeURIComponent s) = s.
Proof.
  induction s as [|c s IH].
  - reflexivity.
  - now rewrite encodeURIComponent_cons, decode_encode_char, IH.
Qed.

(** X13.  An encoded query value is made of unreserved characters and [%]
    only: it holds no [&], [=], [?], [#], [/], [+] and no space, so
    a value cannot add a parameter to the query string or cut it short;
    and different values have different encodings. *)
Theorem encodeURIComponent_safe (value : string) :
  all_chars encoded_char (Str.encodeURIComponent value) = true
  /\ forallb (fun c => negb (encoded_char c))
       ["&"; "="; "?"; "#"; "/"; "+"; " "]%char = true
  /\ (forall other,
         Str.encodeURIComponent value = Str.encodeURIComponent other ->
         value = other).
Proof.
  split.
  - induction value as [|c s IH]; [reflexivity|].
    now rewrite encodeURIComponent_cons, all_chars_app, encode_char_chars.
  - split; [reflexivity|]. intros other H.
    rewrite <- (decode_encode value), <- (decode_encode other).
    now rewrite H.
Qed.

(** ** Following references *)

(** X16.  On a reference of the form [#/components/schemas/<name>],
    [resolveRef] and the resolution inside [generateExampleResponse] and
    [SchemaFields] look up the same schema: nothing when the document has
    no reusable schemas; else the entry of that name; else, when there is
    no entry, nothing -- unless the name is that of a member of
    [Object.prototype], which both then take for the schema. *)
Theorem resolveRef_agrees (spec : OpenAPISpec) (schema : Schema)
  (name : string) :
  schema_ref schema = Some (schemas_prefix ++ name) ->
  let ref := schemas_prefix ++ name in
  resolveRef spec ref = components_schema spec name
  /\ resolve_step (Some spec) schema = resolveRef spec ref
  /\ (spec_components spec = None -> resolveRef spec ref = None)
  /\ (forall c,
         spec_components spec = Some c ->
         (comp_schemas c = None -> resolveRef spec ref = None)
         /\ forall schemas,
             comp_schemas c = Some schemas ->
             (forall entry, lookup schemas name = Some entry ->
                            resolveRef spec ref = Some entry)
             /\ (lookup schemas name = None ->
                 In name Object_prototype ->
                 resolveRef spec ref = Some member_schema)
             /\ (lookup schemas name = None ->
                 ~ In name Object_prototype ->
                 resolveRef spec ref = None)).
Proof.
  intros Href ref.
  assert (H : resolveRef spec ref = components_schema spec name).
  { unfold resolveRef, ref. rewrite StrFacts.prefix_app. simpl negb.
    cbv iota. now rewrite StrFacts.replace_prefix. }
  split; [assumption|]. split.
  { now rewrite H, (@resolve_step_named spec schema name Href). }
  rewrite H. unfold components_schema. split.
  { now intros ->. }
  intros c ->. split.
  { now intros ->. }
  intros schemas ->. split; [|split].
  - now intros entry ->.
  - intros -> Hin. apply includes_In in Hin. unfold inherited.
    now rewrite Hin.
  - intros -> Hin. unfold inherited.
    destruct (includes Object_prototype name) eqn:E; [|reflexivity].
    apply includes_In in E. contradiction.
Qed.

(** A name that is an entry, one that is not, and [toString]. *)
Lemma resolveRef_agrees_witness :
  let spec := spec_of_schemas [("Pet", schema_of_type "object")] in
  let ref (name : string) := schemas_prefix ++ name in
  (resolveRef spec (ref "Pet") = Some (schema_of_type "object")
   /\ resolve_step (Some spec) (schema_of_ref (ref "Pet"))
      = resolveRef spec (ref "Pet"))
  /\ (resolveRef spec (ref "Cat") = None
      /\ resolve_step (Some spec) (schema_of_ref (ref "Cat"))
         = resolveRef spec (ref "Cat"))
  /\ (resolveRef spec (ref "toString") = Some member_schema
      /\ resolve_step (Some spec) (schema_of_ref (ref "toString"))
         = resolveRef spec (ref "toString")).
Proof.
  intros spec ref. split; [|split].
  - destruct (@resolveRef_agrees spec (schema_of_ref (ref "Pet")) "Pet"
                eq_refl) as [H1 [H2 _]].
    split; [exact H1 | exact H2].
  - destruct (@resolveRef_agrees spec (schema_of_ref (ref "Cat")) "Cat"
                eq_refl) as [H1 [H2 _]].
    split; [exact H1 | exact H2].
  - destruct (@resolveRef_agrees spec (schema_of_ref (ref "toString"))
                "toString" eq_refl) as [H1 [H2 _]].
    split; [exact H1 | exact H2].
Defined.

(** ** Example synthesis: termination and references *)

(** How deep the [items] of a schema nest, and whether the schema or one of
    its nested [items] has a [$ref]. *)
Fixpoint items_depth (s : Schema) : nat :=
  match s with
  | mkSchema _ _ _ items _ _ _ =>
      match items with
      | Some i => S (items_depth i)
      | None => O
      end
  end.

Fixpoint items_ref_free (s : Schema) : bool :=
  match s with
  | mkSchema _ _ _ items _ _ ref =>
      match ref with
      | Some _ => false
      | None =>
          match items with
          | Some i => items_ref_free i
          | None => true
          end
      end
  end.

Lemma generateExampleResponse_fuel (spec : option OpenAPISpec) (n k : nat)
  (schema : option Schema) (r : string) :
  generateExampleResponse n schema spec = Some r ->
  generateExampleResponse (n + k) schema spec = Some r.
Proof.
  revert schema r. induction n as [|n IH]; intros schema r; simpl.
  - discriminate.
  - destruct schema as [s|]; [|trivial].
    destruct (resolve_step spec s) as [resolved|]; [apply IH|].
    destruct (has_truthy_example s); [trivial|].
    destruct (field_is (schema_type s) "array"); [|trivial].
    destruct (schema_items s) as [items|]; [|trivial].
    destruct (generateExampleResponse n (Some items) spec) as [r'|] eqn:E;
      [|discriminate].
    now rewrite (IH _ _ E).
Qed.

Lemma generateExampleResponse_ref_free (spec : option OpenAPISpec)
  (n : nat) (s : Schema) :
  items_ref_free s = true -> items_depth s < n ->
  exists r, generateExampleResponse n (Some s) spec = Some r.
Proof.
  revert s. induction n as [|n IH]; intros s Hfree Hd; [lia|].
  destruct s as [type format properties items example default ref].
  simpl in Hfree, Hd. destruct ref as [ref|]; [discriminate|].
  cbn [generateExampleResponse]. rewrite resolve_step_no_ref; [|reflexivity].
  destruct (has_truthy_example _) eqn:Hex.
  - unfold has_truthy_example in Hex. simpl in *.
    destruct example as [example|]; [eauto | discriminate].
  - cbn [schema_type schema_items schema_properties].
    destruct (field_is type "array").
    + destruct items as [i|]; [|eauto].
      destruct (IH i Hfree ltac:(lia)) as [r Hr]. rewrite Hr. eauto.
    + destruct (field_is type "object"), properties; eauto.
Qed.

(** X14.  On a schema that has no [$ref], itself or in its nested [items],
    [generateExampleResponse] returns a text once the fuel exceeds the
    nesting depth of the [items] (it needs no document for that); and a
    text returned with some fuel is the text returned with any more fuel,
    for every schema and document. *)
Theorem generateExampleResponse_returns (spec : option OpenAPISpec)
  (s : Schema) :
  items_ref_free s = true ->
  (forall k, exists r,
        generateExampleResponse (S (items_depth s) + k) (Some s) spec
        = Some r)
  /\ (forall schema spec' n k r,
         generateExampleResponse n schema spec' = Some r ->
         generateExampleResponse (n + k) schema spec' = Some r).
Proof.
  intros Hfree. split.
  - intros k. apply generateExampleResponse_ref_free; [assumption | lia].
  - intros schema spec' n k r. apply generateExampleResponse_fuel.
Qed.

(** An array of arrays of strings. *)
Definition nested_array_schema : Schema :=
  mkSchema (Some "array") None None
    (Some (mkSchema (Some "array") None None
             (Some (schema_of_type "string")) None None None))
    None None None.

Lemma generateExampleResponse_returns_witness :
  exists r,
    generateExampleResponse (S (items_depth nested_array_schema) + 0)
      (Some nested_array_schema) None = Some r.
Proof.
  exact (proj1 (@generateExampleResponse_returns None nested_array_schema
                  eq_refl) 0).
Defined.

(** X15.  A reference, direct or through other references, to a component
    that carries a truthy example gives the rendering of that example,
    whatever else the component declares. *)
Theorem generateExampleResponse_referenced_example (spec : OpenAPISpec)
  (n k : nat) (s t : Schema) (example : JSON) :
  ref_chain spec n s t ->
  schema_ref t = None ->
  schema_example t = Some example ->
  truthy example = true ->
  generateExampleResponse (S n + k) (Some s) (Some spec)
  = Some (JSON_stringify example).
Proof.
  intros Hc Href Hex Ht.
  replace (S n + k) with (n + S k) by lia.
  rewrite (@generateExampleResponse_chain spec n (S k) s t Hc).
  cbn [generateExampleResponse]. rewrite resolve_step_no_ref; [|assumption].
  unfold has_truthy_example. now rewrite Hex, Ht.
Qed.

Lemma generateExampleResponse_referenced_example_witness :
  let market :=
    mkSchema (Some "object") None (Some [("id", schema_of_type "string")])
      None (Some (JObject [("id", JString "m1")])) None None in
  let spec := spec_of_schemas [("Market", market)] in
  generateExampleResponse 2
    (Some (schema_of_ref (schemas_prefix ++ "Market"))) (Some spec)
  = Some (JSON_stringify (JObject [("id", JString "m1")])).
Proof.
  intros market spec.
  apply (@generateExampleResponse_referenced_example spec 1 0
           (schema_of_ref (schemas_prefix ++ "Market")) market
           (JObject [("id", JString "m1")])).
  - apply (@chain_hop spec 0 (schema_of_ref (schemas_prefix ++ "Market"))
             market market "Market" eq_refl eq_refl).
    apply chain_end.
  - reflexivity.
  - reflexivity.
  - reflexivity.
Defined.

(** ** Parameters that are not part of the URL *)

(** Whether a declared parameter resolves to a path or a query
    parameter. *)
Definition in_url (spec : OpenAPISpec) (p : Param) : bool :=
  match resolveParameter spec p with
  | Some q => ParamIn_eqb (param_in q) in_path
              || ParamIn_eqb (param_in q) in_query
  | None => false
  end.

Lemma resolved_filter (spec : OpenAPISpec) (location : ParamIn)
  (l : list Param) :
  location = in_path \/ location = in_query ->
  filter (fun q => ParamIn_eqb (param_in q) location)
    (resolved spec (filter (in_url spec) l))
  = filter (fun q => ParamIn_eqb (param_in q) location) (resolved spec l).
Proof.
  intros Hloc. unfold resolved, resolveParameters. simpl.
  induction l as [|p l IH]; simpl; [reflexivity|].
  unfold in_url at 1.
  destruct (resolveParameter spec p) as [q|] eqn:E; simpl.
  - destruct (ParamIn_eqb (param_in q) in_path
              || ParamIn_eqb (param_in q) in_query) eqn:Eu; simpl.
    + rewrite E. simpl. rewrite IH. reflexivity.
    + rewrite IH.
      destruct (ParamIn_eqb (param_in q) location) eqn:El; [|reflexivity].
      destruct Hloc as [-> | ->]; rewrite El in Eu; simpl in Eu;
        try discriminate.
      now rewrite orb_true_r in Eu.
  - exact IH.
Qed.

(** X17.  Header and cookie parameters are no part of the request the
    playground builds: dropping every declared parameter that does not
    resolve to a path or query parameter leaves the URL as it is. *)
Theorem buildUrl_ignores_headers (spec : OpenAPISpec) (path : string)
  (method : Method) (parameters : list Param) (params : Dict string) :
  buildUrl (mkEndpoint path method
              (operation_of (filter (in_url spec) parameters)))
    (Some spec) params
  = buildUrl (mkEndpoint path method (operation_of parameters))
      (Some spec) params.
Proof.
  unfold buildUrl, builtPath, queryString, queryParts, pathParams,
    queryParams, allParams. cbn [ep_operation ep_path].
  fold (resolved spec (filter (in_url spec) parameters)).
  fold (resolved spec parameters).
  rewrite !resolved_filter; auto.
Qed.

(** ** The outcome of a request *)

(** Case analysis on outcomes. *)
Ltac outcome_cases :=
  repeat match goal with
    | |- _ /\ _ => split
    | |- _ <-> _ => split
    | |- forall _, _ => intro
    | H : _ /\ _ |- _ => destruct H
    | H : _ \/ _ |- _ => destruct H
    | H : exists _, _ |- _ => destruct H
    | H : @inr _ _ _ = inr _ |- _ => injection H as H; subst
    | H : @inl _ _ _ = inl _ |- _ => injection H as H; subst
    | H : Some _ = Some _ |- _ => injection H as H; subst
    | H : MainView _ = MainView _ |- _ => injection H as H; subst
    | H : thrown_Error _ = thrown_Error _ |- _ => injection H as H; subst
    | H : ?x = _, H' : context [?x] |- _ => rewrite H in H'
    end;
  try discriminate; try congruence; eauto.

Lemma is_json_iff (res : FetchResponse) :
  is_json res = true
  <-> exists contentType,
        lookup (res_headers res) "content-type" = Some contentType
        /\ Str.includes contentType "application/json" = true.
Proof.
  unfold is_json.
  destruct (lookup (res_headers res) "content-type") as [contentType|].
  - split; [intros H; now exists contentType | now intros [c [[= <-] H]]].
  - split; [discriminate | now intros [c [H _]]].
Qed.

(** X19.  Once [executeRequest] is through, the component is no longer
    loading and holds either a response or an error message, never both
    and never neither.  A response whose body can be read is kept as a
    response whatever its status (a 404 or a 500 is not an error); the
    body is what [res.json()] gives when the response has a header
    [content-type] whose value contains [application/json], and the text
    [res.text()] gives when it has not; an error message is the message
    of the [Error] that was thrown, or [Request failed] when what was
    thrown is no [Error]. *)
Theorem executeRequest_outcome (Time : Type)
  (outcome : Thrown + FetchResponse) (duration : Time) :
  let state := executeRequest outcome duration in
  let json (res : FetchResponse) :=
    exists contentType,
      lookup (res_headers res) "content-type" = Some contentType
      /\ Str.includes contentType "application/json" = true in
  let stored (res : FetchResponse) (body : JSON) :=
    state_error state = None
    /\ exists response,
        state_response state = Some response
        /\ api_status response = res_status res
        /\ api_statusText response = res_statusText res
        /\ api_body response = body
        /\ api_duration response = duration in
  let failed (message : string) :=
    state_response state = None /\ state_error state = Some message in
  state_loading state = false
  /\ (state_response state = None <-> state_error state <> None)
  /\ (forall res body,
         outcome = inr res -> json res -> res_json res = inr body ->
         stored res body)
  /\ (forall res text,
         outcome = inr res -> ~ json res -> res_text res = inr text ->
         stored res (JString text))
  /\ (forall thrown,
         outcome = inl thrown
         \/ (exists res, outcome = inr res
                         /\ ((json res /\ res_json res = inl thrown)
                             \/ (~ json res /\ res_text res = inl thrown))) ->
         (forall message, thrown = thrown_Error message -> failed message)
         /\ (thrown = thrown_other -> failed "Request failed")).
Proof.
  intros state json stored failed. subst state stored failed.
  assert (Hjson : forall res, is_json res = true <-> json res)
    by exact is_json_iff.
  unfold executeRequest. destruct outcome as [err | res]; simpl.
  - split; [reflexivity|]. split; [split; [discriminate | reflexivity]|].
    split; [discriminate|]. split; [discriminate|].
    intros thrown [[= <-] | [res [H _]]]; [|discriminate].
    split; [now intros message -> | now intros ->].
  - destruct (is_json res) eqn:Ej.
    + assert (Hj : json res) by now apply Hjson.
      destruct (res_json res) as [err | body] eqn:Eb; simpl.
      * split; [reflexivity|].
        split; [split; [discriminate | reflexivity]|].
        split; [intros r b [= <-]; rewrite Eb; discriminate|].
        split; [intros r t [= <-] Hn; contradiction|].
        intros thrown [H | [r [[= <-] [[_ H] | [Hn _]]]]];
          [discriminate | | contradiction].
        rewrite Eb in H. injection H as <-.
        split; [now intros message -> | now intros ->].
      * split; [reflexivity|].
        split; [split; [discriminate | intros H; now contradiction H]|].
        split.
        { intros r b [= <-] _ H. rewrite Eb in H. injection H as <-.
          split; [reflexivity|]. eexists. repeat split. }
        split; [intros r t [= <-] Hn; contradiction|].
        intros thrown [H | [r [[= <-] [[_ H] | [Hn _]]]]];
          [discriminate | | contradiction].
        rewrite Eb in H. discriminate.
    + assert (Hj : ~ json res).
      { intros H. apply Hjson in H. congruence. }
      destruct (res_text res) as [err | text] eqn:Eb; simpl.
      * split; [reflexivity|].
        split; [split; [discriminate | reflexivity]|].
        split; [intros r b [= <-] H; contradiction|].
        split; [intros r t [= <-] _; rewrite Eb; discriminate|].
        intros thrown [H | [r [[= <-] [[H _] | [_ H]]]]];
          [discriminate | contradiction |].
        rewrite Eb in H. injection H as <-.
        split; [now intros message -> | now intros ->].
      * split; [reflexivity|].
        split; [split; [discriminate | intros H; now contradiction H]|].
        split; [intros r b [= <-] H; contradiction|].
        split.
        { intros r t [= <-] _ H. rewrite Eb in H. injection H as <-.
          split; [reflexivity|]. eexists. repeat split. }
        intros thrown [H | [r [[= <-] [[H _] | [_ H]]]]];
          [discriminate | contradiction |].
        rewrite Eb in H. discriminate.
Qed.

(** A 404 with a JSON body, and a 200 with a text body under a JSON
    content type whose parsing fails. *)
Lemma executeRequest_outcome_witness :
  let not_found :=
    mkFetchResponse 404 "Not Found"
      [("content-type", "application/json; charset=utf-8")]
      (inr (JObject [("error", JString "no such market")]))
      (inr "{}") in
  let broken :=
    mkFetchResponse 200 "OK" [("content-type", "application/json")]
      (inl (thrown_Error "Unexpected token")) (inr "oops") in
  let plain :=
    mkFetchResponse 200 "OK" [("content-type", "text/plain")]
      (inl (thrown_Error "Unexpected token")) (inr "pong") in
  (state_error (executeRequest (inr not_found) tt) = None
   /\ exists response,
       state_response (executeRequest (inr not_found) tt) = Some response
       /\ api_status response = 404%Z
       /\ api_statusText response = "Not Found"
       /\ api_body response = JObject [("error", JString "no such market")]
       /\ api_duration response = tt)
  /\ (state_response (executeRequest (inr broken) tt) = None
      /\ state_error (executeRequest (inr broken) tt)
         = Some "Unexpected token")
  /\ (state_error (executeRequest (inr plain) tt) = None
      /\ exists response,
          state_response (executeRequest (inr plain) tt) = Some response
          /\ api_status response = 200%Z
          /\ api_statusText response = "OK"
          /\ api_body response = JString "pong"
          /\ api_duration response = tt).
Proof.
  intros not_found broken plain. split; [|split].
  - refine (proj1 (proj2 (proj2 (@executeRequest_outcome unit
                                   (inr not_found) tt)))
              not_found _ eq_refl _ eq_refl).
    eexists. split; reflexivity.
  - refine (proj1 (proj2 (proj2 (proj2 (proj2
              (@executeRequest_outcome unit (inr broken) tt))))
              (thrown_Error "Unexpected token") _) _ eq_refl).
    right. exists broken. split; [reflexivity|]. left. split.
    + eexists. split; reflexivity.
    + reflexivity.
  - refine (proj1 (proj2 (proj2 (proj2 (@executeRequest_outcome unit
                                          (inr plain) tt))))
              plain "pong" eq_refl _ eq_refl).
    intros [contentType [[= <-] H]]. discriminate.
Defined.

(** ** Loading the document *)

(** X20.  Once [fetchSpec] is through, [App] no longer shows the loading
    view, and a result with an error has no document.  [App] shows the
    main view with the document exactly when the status is in 200..299 and
    the body parses to a document; for any other status it shows the error
    [Failed to fetch OpenAPI spec: <status>]; and it shows the main view
    without a document exactly when what was thrown is an [Error] with an
    empty message, which the test [if (error)] takes for no error, or the
    status is in 200..299 and the body parses to [null]. *)
Theorem App_after_fetchSpec (outcome : Thrown + SpecResponse) :
  let result := fetchSpec outcome in
  let ok (response : SpecResponse) :=
    (200 <= spec_status response /\ spec_status response <= 299)%Z in
  result_loading result = false
  /\ App result <> LoadingView
  /\ (result_error result <> None -> result_spec result = None)
  /\ (forall data,
         App result = MainView (Some data)
         <-> exists response,
             outcome = inr response /\ ok response
             /\ spec_json response = inr (Some data))
  /\ (forall response,
         outcome = inr response -> ~ ok response ->
         (0 <= spec_status response < 1000)%Z ->
         App result
         = ErrorView ("Failed to fetch OpenAPI spec: "
                      ++ Stringify.number (spec_status response)))
  /\ (App result = MainView None
      <-> outcome = inl (thrown_Error EmptyString)
          \/ exists response,
              outcome = inr response /\ ok response
              /\ (spec_json response = inl (thrown_Error EmptyString)
                  \/ spec_json response = inr None))
  /\ (forall thrown,
         outcome = inl thrown
         \/ (exists response,
                outcome = inr response /\ ok response
                /\ spec_json response = inl thrown) ->
         (forall message, thrown = thrown_Error message ->
                          result_error result = Some message)
         /\ (thrown = thrown_other ->
             App result = ErrorView "Failed to load API specification")).
Proof.
  intros result ok. subst result.
  assert (Hok : forall response, response_ok response = true <-> ok response).
  { intros response. unfold response_ok, ok.
    rewrite andb_true_iff, !Z.leb_le. tauto. }
  unfold fetchSpec, App.
  destruct outcome as [[[|c m]|] | response]; simpl.
  - outcome_cases.
  - outcome_cases.
  - outcome_cases.
  - destruct (response_ok response) eqn:Eok; simpl.
    + assert (Ho : ok response) by now apply Hok.
      destruct (spec_json response) as [[[|c m]|] | [data|]] eqn:Ej; simpl;
        outcome_cases;
        solve [right; exists response;
               split; [reflexivity | split; [exact Ho | auto]]].
    + assert (Ho : ~ ok response).
      { intros H. apply Hok in H. congruence. }
      outcome_cases.
Qed.

(** A body that is [null] under the status 200, and the status 404. *)
Lemma App_after_fetchSpec_witness :
  App (fetchSpec (inr (mkSpecResponse 200 (inr None)))) = MainView None
  /\ App (fetchSpec (inr (mkSpecResponse 404 (inr (Some empty_spec)))))
     = ErrorView "Failed to fetch OpenAPI spec: 404".
Proof.
  split.
  - apply (proj2 (proj2 (proj2 (proj2 (proj2
             (App_after_fetchSpec
                (inr (mkSpecResponse 200 (inr None))))))))).
    right. eexists. split; [reflexivity|]. split; [simpl; lia|].
    now right.
  - apply (proj1 (proj2 (proj2 (proj2 (proj2
             (App_after_fetchSpec
                (inr (mkSpecResponse 404 (inr (Some empty_spec)))))))))
             _ eq_refl); simpl; lia.
Defined.

(** ** Descriptions: what is shown of them *)

Module DescriptionFacts.
Import Description.

Lemma length_app (a b : string) :
  String.length (a ++ b) = (String.length a + String.length b)%nat.
Proof.
  induction a as [|c a IH]; simpl; [reflexivity | now rewrite IH].
Qed.




(** An occurrence in a part is an occurrence in the whole. *)
Lemma split_first_none_part (sep a s b : string) :
  Str.split_first sep (a ++ s ++ b) = None -> Str.split_first sep s = None.
Proof.
  intros H.
  destruct (Str.split_first sep s) as [[p r]|] eqn:Hs; [|reflexivity].
  apply StrFacts.split_first_sound in Hs.
  destruct (@StrFacts.split_first_complete sep (a ++ s ++ b) (a ++ p) (r ++ b))
    as [x [y Hxy]].
  - rewrite Hs. now rewrite !StrFacts.append_assoc.
  - congruence.
Qed.







End DescriptionFacts.


(** ** Inline formatting: nothing is lost *)

Module InlineFacts.
Import Description.

(** The text a piece stands for. *)
Definition source (i : Inline) : string :=
  match i with
  | Text s => s
  | Code s => "`" ++ s ++ "`"
  | Strong s => "**" ++ s ++ "**"
  end.

Fixpoint sources (parts : list Inline) : string :=
  match parts with
  | [] => EmptyString
  | i :: parts' => source i ++ sources parts'
  end.

(** No piece is empty, and a code or strong piece holds no delimiter. *)
Definition well_formed (i : Inline) : Prop :=
  match i with
  | Text s => s <> EmptyString
  | Code s =>
      s <> EmptyString /\ all_chars (fun c => negb (Ascii.eqb c "`")) s = true
  | Strong s =>
      s <> EmptyString /\ all_chars (fun c => negb (Ascii.eqb c "*")) s = true
  end.

Lemma sources_app (a b : list Inline) :
  sources (a ++ b) = sources a ++ sources b.
Proof.
  induction a as [|i a IH]; simpl; [reflexivity|].
  now rewrite IH, StrFacts.append_assoc.
Qed.

Lemma take_until_spec (x : ascii) (s run rest : string) :
  take_until x s = (run, rest) ->
  s = run ++ rest /\ all_chars (fun c => negb (Ascii.eqb c x)) run = true.
Proof.
  revert run rest. induction s as [|c s IH]; intros run rest; simpl.
  - intros H. injection H as <- <-. now split.
  - destruct (Ascii.eqb c x) eqn:E.
    + intros H. injection H as <- <-. now split.
    + destruct (take_until x s) as [run' rest'].
      intros H. injection H as <- <-.
      destruct (IH run' rest' eq_refl) as [-> Hall]. simpl.
      rewrite E. now split.
Qed.

Lemma match_here_spec (delim : string) (x : ascii) (s group : string) :
  match_here delim x s = Some group ->
  group <> EmptyString
  /\ all_chars (fun c => negb (Ascii.eqb c x)) group = true
  /\ exists post, s = delim ++ group ++ delim ++ post.
Proof.
  unfold match_here. destruct (Str.startsWith s delim) eqn:Hs; [|discriminate].
  destruct (take_until x (Str.drop (String.length delim) s))
    as [run rest] eqn:Ht.
  destruct (Str.truthy run) eqn:Hrun; [|discriminate].
  destruct (Str.startsWith rest delim) eqn:Hr; [|discriminate].
  simpl. intros H. injection H as <-.
  apply take_until_spec in Ht. destruct Ht as [Hdrop Hall].
  apply StrFacts.prefix_inv in Hs, Hr.
  split; [destruct run; [discriminate | discriminate]|].
  split; [assumption|].
  exists (Str.drop (String.length delim) rest).
  rewrite Hs at 1. rewrite Hdrop. now rewrite Hr at 1.
Qed.

Lemma regex_match_spec (delim : string) (x : ascii)
  (s whole group : string) :
  regex_match delim x s = Some (whole, group) ->
  whole = delim ++ group ++ delim
  /\ group <> EmptyString
  /\ all_chars (fun c => negb (Ascii.eqb c x)) group = true
  /\ exists pre post, s = pre ++ whole ++ post.
Proof.
  induction s as [|c s IH].
  - simpl. destruct (match_here delim x EmptyString) as [g|] eqn:Hm;
      [|discriminate].
    intros H. injection H as <- <-.
    destruct (match_here_spec _ _ _ Hm) as [H1 [H2 [post H3]]].
    repeat split; try assumption. exists EmptyString, post.
    simpl. rewrite !StrFacts.append_assoc. exact H3.
  - simpl. destruct (match_here delim x (String c s)) as [g|] eqn:Hm.
    + intros H. injection H as <- <-.
      destruct (match_here_spec _ _ _ Hm) as [H1 [H2 [post H3]]].
      repeat split; try assumption. exists EmptyString, post.
      simpl. rewrite !StrFacts.append_assoc. exact H3.
    + intros H. destruct (IH H) as [H1 [H2 [H3 [pre [post H4]]]]].
      repeat split; try assumption. exists (String c pre), post.
      simpl. now rewrite <- H4.
Qed.

(** The matched text is found by [indexOf]. *)
Lemma located_total (delim : string) (x : ascii) (s whole group : string) :
  regex_match delim x s = Some (whole, group) ->
  exists before after,
    located (regex_match delim x s) s = Some (before, group, after).
Proof.
  intros H. rewrite H. unfold located.
  destruct (regex_match_spec _ _ _ H) as [_ [_ [_ [pre [post Hs]]]]].
  destruct (@StrFacts.split_first_complete whole s pre post Hs)
    as [b [a Hba]].
  rewrite Hba. eauto.
Qed.

Lemma located_spec (delim : string) (x : ascii)
  (s before group after : string) :
  located (regex_match delim x s) s = Some (before, group, after) ->
  s = before ++ (delim ++ group ++ delim) ++ after
  /\ group <> EmptyString
  /\ all_chars (fun c => negb (Ascii.eqb c x)) group = true
  /\ (String.length after < String.length s)%nat.
Proof.
  unfold located.
  destruct (regex_match delim x s) as [[whole g]|] eqn:Hm; [|discriminate].
  destruct (Str.split_first whole s) as [[b a]|] eqn:Hs; [|discriminate].
  intros H. injection H as <- <- <-.
  destruct (regex_match_spec _ _ _ Hm) as [Hw [Hg [Hall _]]].
  apply StrFacts.split_first_sound in Hs. subst whole.
  repeat split; try assumption.
  rewrite Hs. rewrite !DescriptionFacts.length_app.
  destruct g; [now contradiction Hg|]. simpl. lia.
Qed.

(** The pieces [push_text] adds. *)
Definition text_piece (before : string) : list Inline :=
  if Str.truthy before then [Text before] else [].

Lemma push_text_app (parts : list Inline) (before : string) :
  push_text parts before = (parts ++ text_piece before)%list.
Proof.
  unfold push_text, text_piece.
  destruct (Str.truthy before); [reflexivity | now rewrite app_nil_r].
Qed.

Lemma text_piece_spec (before : string) :
  sources (text_piece before) = before
  /\ Forall well_formed (text_piece before).
Proof.
  unfold text_piece. destruct before as [|c s]; simpl.
  - split; [reflexivity | constructor].
  - split; [now rewrite append_empty_r|].
    constructor; [discriminate | constructor].
Qed.

(** One round of the loop, for either kind of match. *)
Lemma round (K : string -> Inline) (delim : string) (x : ascii)
  (s before group after : string) (out : list Inline) :
  (forall g, source (K g) = delim ++ g ++ delim) ->
  (forall g, g <> EmptyString ->
             all_chars (fun c => negb (Ascii.eqb c x)) g = true ->
             well_formed (K g)) ->
  located (regex_match delim x s) s = Some (before, group, after) ->
  sources out = after -> Forall well_formed out ->
  sources (text_piece before ++ [K group] ++ out) = s
  /\ Forall well_formed (text_piece before ++ [K group] ++ out).
Proof.
  intros Hsrc Hwf Hloc Hout Hall.
  destruct (located_spec _ _ _ Hloc) as [Hs [Hg [Hchars _]]].
  destruct (text_piece_spec before) as [Hb Hbwf]. split.
  - rewrite sources_app, Hb. simpl. rewrite Hsrc, Hout.
    rewrite Hs at 1. now rewrite !StrFacts.append_assoc.
  - apply Forall_app. split; [assumption|].
    constructor; [now apply Hwf | assumption].
Qed.

Lemma formatInline_loop_spec (fuel : nat) (parts : list Inline)
  (remaining : string) :
  (String.length remaining <= fuel)%nat ->
  exists out,
    formatInline_loop fuel parts remaining = Some (parts ++ out)%list
    /\ sources out = remaining
    /\ Forall well_formed out.
Proof.
  revert parts remaining.
  induction fuel as [|fuel IH]; intros parts remaining Hlen.
  - destruct remaining; [|simpl in Hlen; lia].
    exists []. simpl. rewrite app_nil_r. repeat split. constructor.
  - destruct remaining as [|c r].
    { exists []. simpl. rewrite app_nil_r. repeat split. constructor. }
    set (s := String c r) in *.
    assert (Hcode : forall g, source (Code g) = "`" ++ g ++ "`")
      by reflexivity.
    assert (Hbold : forall g, source (Strong g) = "**" ++ g ++ "**")
      by reflexivity.
    assert (Hcwf : forall g, g <> EmptyString ->
              all_chars (fun c => negb (Ascii.eqb c "`")) g = true ->
              well_formed (Code g)) by (intros; now split).
    assert (Hbwf : forall g, g <> EmptyString ->
              all_chars (fun c => negb (Ascii.eqb c "*")) g = true ->
              well_formed (Strong g)) by (intros; now split).
    assert (Hnext : forall K delim x before group after,
              (forall g, source (K g) = delim ++ g ++ delim) ->
              (forall g, g <> EmptyString ->
                 all_chars (fun c => negb (Ascii.eqb c x)) g = true ->
                 well_formed (K g)) ->
              located (regex_match delim x s) s
              = Some (before, group, after) ->
              exists out,
                formatInline_loop fuel
                  (push_text parts before ++ [K group])%list after
                = Some (parts ++ out)%list
                /\ sources out = s /\ Forall well_formed out).
    { intros K delim x before group after Hsrc Hwf Hloc.
      destruct (located_spec _ _ _ Hloc) as [_ [_ [_ Hshort]]].
      destruct (IH (push_text parts before ++ [K group])%list after)
        as [out [Hrun [Hout Hall]]].
      { unfold s in Hshort. simpl in Hshort, Hlen. lia. }
      exists (text_piece before ++ [K group] ++ out)%list.
      split.
      - rewrite Hrun, push_text_app. now rewrite <- !app_assoc.
      - now apply (@round K delim x s before group after out). }
    change (formatInline_loop (S fuel) parts s)
      with (match located (regex_match "`" "`" s) s,
                  located (regex_match "**" "*" s) s with
            | None, None => Some (parts ++ [Text s])%list
            | Some (before, group, after), None =>
                formatInline_loop fuel
                  (push_text parts before ++ [Code group])%list after
            | None, Some (before, group, after) =>
                formatInline_loop fuel
                  (push_text parts before ++ [Strong group])%list after
            | Some (before, group, after), Some (before', group', after') =>
                if (String.length before <? String.length before')%nat then
                  formatInline_loop fuel
                    (push_text parts before ++ [Code group])%list after
                else
                  formatInline_loop fuel
                    (push_text parts before' ++ [Strong group'])%list after'
            end).
    destruct (located (regex_match "`" "`" s) s) as [[[b g] a]|] eqn:Ec;
      destruct (located (regex_match "**" "*" s) s) as [[[b' g'] a']|] eqn:Eb.
    + destruct (String.length b <? String.length b')%nat.
      * now apply (Hnext Code "`" "`"%char).
      * now apply (Hnext Strong "**" "*"%char).
    + now apply (Hnext Code "`" "`"%char).
    + now apply (Hnext Strong "**" "*"%char).
    + exists [Text s]. repeat split.
      * unfold s. simpl. now rewrite append_empty_r.
      * constructor; [discriminate | constructor].
Qed.

End InlineFacts.

(** X22.  [formatInline] ends on every text, with as many rounds as the
    text has characters at most, and loses nothing: its pieces, code put
    back between backticks and strong text between double stars, make up
    the text; no piece is empty, a code piece holds no backtick and a
    strong piece no star. *)
Theorem formatInline_sources (text : string) :
  exists parts,
    Description.formatInline (String.length text) text = Some parts
    /\ InlineFacts.sources parts = text
    /\ Forall InlineFacts.well_formed parts.
Proof.
  destruct (@InlineFacts.formatInline_loop_spec (String.length text) []
              text (le_n _)) as [out H].
  exists out. exact H.
Qed.
